(** * EACC agent framework: secure content-addressed messaging and the job lifecycle

    A shallow embedding of the encryption module ([src/encryption/index.js]),
    the marketplace connector ([src/connector/index.js]), the base agent
    ([src/base-agent/index.js]) and the agent manager
    ([src/agent-manager/index.js]), followed by the properties of the
    messaging subsystem and of the job lifecycle.

    Conventions.
    - A JavaScript string holding text is a [string]: the sequence of the
      bytes of its UTF-8 encoding, so that [cipher.update(data, 'utf8')] and
      [buffer.toString('utf8')] are [list_byte_of_string] and
      [string_of_list_byte].
    - A [Buffer] is a [list byte].
    - JavaScript numbers that hold job ids, ledger states and lengths are [Z].
    - [console.log] output is not modelled; [console.error] is recorded in the
      trace of effects, since it is what a caught error leaves behind.
    - The connector and the manager are modelled after [initialize()] has
      completed, so the guards [if (!this.initialized)] do nothing. *)

From Stdlib Require Import Lists.List Strings.String Strings.Ascii Strings.Byte.
From Stdlib Require Import Bool.Bool Arith.Arith NArith.NArith ZArith.ZArith micromega.Lia.
Import ListNotations.
Local Open Scope string_scope.
Local Open Scope list_scope.

Set Implicit Arguments.

(** ** JavaScript errors *)

Inductive Exn : Type :=
| Error (message : string)
| TypeError (message : string)
| RangeError (message : string).

Definition message (e : Exn) : string :=
  match e with Error m | TypeError m | RangeError m => m end.

Definition Result (A : Type) : Type := (Exn + A)%type.

(** ** Strings the way the source uses them *)

Module JsString.

(** [s.startsWith(p)] *)
Definition startsWith (s p : string) : bool := String.prefix p s.

(** [s.slice(a)] and [s.slice(a, b)] for [0 <= a <= b]. *)
Definition slice_from (a : nat) (s : string) : string :=
  String.substring a (String.length s - a) s.

Definition slice (a b : nat) (s : string) : string :=
  String.substring a (Nat.min b (String.length s) - a) s.

Definition lower_ascii (c : ascii) : ascii :=
  let n := nat_of_ascii c in
  if (65 <=? n)%nat && (n <=? 90)%nat then ascii_of_nat (n + 32) else c.

(** [s.toLowerCase()] on the ASCII letters; other bytes are kept. *)
Fixpoint toLowerCase (s : string) : string :=
  match s with
  | EmptyString => EmptyString
  | String c r => String (lower_ascii c) (toLowerCase r)
  end.

(** [s.includes(t)] *)
Fixpoint includes (s t : string) : bool :=
  String.prefix t s ||
  match s with
  | EmptyString => false
  | String _ r => includes r t
  end.

(** Decimal rendering of a number inside a template literal. *)
Fixpoint digits_of_pos (fuel : nat) (n : N) (acc : string) : string :=
  match fuel with
  | O => acc
  | S f =>
      let acc' := String (ascii_of_N (48 + n mod 10)) acc in
      if (n / 10 =? 0)%N then acc' else digits_of_pos f (n / 10) acc'
  end.

Definition of_Z (z : Z) : string :=
  match z with
  | Z0 => "0"
  | Zpos p => digits_of_pos (S (N.size_nat (Npos p))) (Npos p) ""
  | Zneg p => String "-"%char (digits_of_pos (S (N.size_nat (Npos p))) (Npos p) "")
  end.

End JsString.

(** ** Buffers *)

Module Buffer.

Definition byte_of_N (n : N) : byte :=
  match Byte.of_N n with Some b => b | None => x00 end.

Definition hex_digit (n : N) : ascii :=
  if (n <? 10)%N then ascii_of_N (48 + n) else ascii_of_N (87 + n).

(** [buf.toString('hex')] *)
Fixpoint to_hex (bs : list byte) : string :=
  match bs with
  | [] => EmptyString
  | b :: r =>
      String (hex_digit (Byte.to_N b / 16))
        (String (hex_digit (Byte.to_N b mod 16)) (to_hex r))
  end.

Definition hex_value (c : ascii) : option N :=
  let n := N_of_ascii c in
  if (48 <=? n)%N && (n <=? 57)%N then Some (n - 48)%N
  else if (97 <=? n)%N && (n <=? 102)%N then Some (n - 87)%N
  else if (65 <=? n)%N && (n <=? 70)%N then Some (n - 55)%N
  else None.

(** [Buffer.from(s, 'hex')]: pairs of hex digits, cut at the first pair
    that is not one. *)
Fixpoint from_hex (s : string) : list byte :=
  match s with
  | String a (String b r) =>
      match hex_value a, hex_value b with
      | Some h, Some l => byte_of_N (16 * h + l) :: from_hex r
      | _, _ => []
      end
  | _ => []
  end.

(** [buf.slice(a, b)] and [buf.slice(a)] for [0 <= a <= b]. *)
Definition slice (a b : nat) (bs : list byte) : list byte :=
  firstn (b - a) (skipn a bs).

Definition slice_from (a : nat) (bs : list byte) : list byte := skipn a bs.

Definition xor_bits (a b : bool * (bool * (bool * (bool * (bool * (bool * (bool * bool)))))))
  : bool * (bool * (bool * (bool * (bool * (bool * (bool * bool)))))) :=
  let '(a0, (a1, (a2, (a3, (a4, (a5, (a6, a7))))))) := a in
  let '(b0, (b1, (b2, (b3, (b4, (b5, (b6, b7))))))) := b in
  (xorb a0 b0, (xorb a1 b1, (xorb a2 b2, (xorb a3 b3,
   (xorb a4 b4, (xorb a5 b5, (xorb a6 b6, xorb a7 b7))))))).

Definition xor_byte (a b : byte) : byte :=
  Byte.of_bits (xor_bits (Byte.to_bits a) (Byte.to_bits b)).

(** The byte with only bit [j] set. *)
Definition bit (j : nat) : byte := byte_of_N (2 ^ N.of_nat j).

(** The buffer with bit [i] flipped: bit [i mod 8] of byte [i / 8]. *)
Fixpoint flip_bit (i : nat) (bs : list byte) : list byte :=
  match bs with
  | [] => []
  | b :: r =>
      if (i <? 8)%nat then xor_byte b (bit i) :: r else b :: flip_bit (i - 8) r
  end.

(** The big-endian number a buffer spells. *)
Definition to_N (bs : list byte) : N :=
  fold_left (fun acc b => (acc * 256 + Byte.to_N b)%N) bs 0%N.

End Buffer.

(** ** The [bs58] and [multihashes] packages *)

Module bs58.

Definition ALPHABET : string :=
  "123456789ABCDEFGHJKLMNPQRSTUVWXYZabcdefghijkmnopqrstuvwxyz".

Definition charAt (d : N) : ascii :=
  match String.get (N.to_nat d) ALPHABET with
  | Some c => c
  | None => "1"%char
  end.

(** Base-58 digits of [n], least significant first. *)
Fixpoint digits (fuel : nat) (n : N) : list N :=
  match fuel with
  | O => []
  | S f => if (n =? 0)%N then [] else (n mod 58)%N :: digits f (n / 58)%N
  end.

Fixpoint zeroes (bs : list byte) : nat :=
  match bs with
  | x00 :: r => S (zeroes r)
  | _ => O
  end.

Definition string_of_chars (cs : list ascii) : string :=
  fold_right String EmptyString cs.

(** [bs58.encode(buf)]: one ['1'] per leading zero byte, then the digits of
    the number, most significant first.  Two base-58 digits hold more than
    a byte, so [2 * length] digits are always enough. *)
Definition encode (bs : list byte) : string :=
  string_of_chars
    (repeat "1"%char (zeroes bs) ++
     map charAt (rev (digits (2 * List.length bs) (Buffer.to_N bs)))).

End bs58.

Module multihash.

(** Unsigned LEB128, as the [varint] package writes it. *)
Fixpoint varint (fuel : nat) (n : N) : list byte :=
  match fuel with
  | O => []
  | S f =>
      if (n <? 128)%N then [Buffer.byte_of_N n]
      else Buffer.byte_of_N (n mod 128 + 128) :: varint f (n / 128)%N
  end.

Definition sha2_256 : N := 18. (* 0x12 *)

(** [multihash.encode(digest, code)]: code, length, digest. *)
Definition encode (digest : list byte) (code : N) : list byte :=
  let len := N.of_nat (List.length digest) in
  varint (S (N.size_nat code)) code ++ varint (S (N.size_nat len)) len ++ digest.

End multihash.

(** ** [ethers.keccak256]

    Keccak-f[1600] with rate 136 bytes and the original Keccak padding
    (0x01 ... 0x80), 32 bytes of output. *)

Module keccak.

Definition mask64 : N := 18446744073709551615.

Definition rotl (a n : N) : N :=
  N.land (N.lor (N.shiftl a n) (N.shiftr a (64 - n))) mask64.

(** The 25 lanes are kept in a list, lane [(x, y)] at index [x + 5 * y]. *)
Definition lane (st : list N) (x y : nat) : N :=
  nth ((x mod 5) + 5 * (y mod 5)) st 0%N.

Definition tabulate (f : nat -> nat -> N) : list N :=
  map (fun i => f (i mod 5) (i / 5)) (seq 0 25).

Definition rho_offsets : list N :=
  [ 0;  1; 62; 28; 27;
   36; 44;  6; 55; 20;
    3; 10; 43; 25; 39;
   41; 45; 15; 21;  8;
   18;  2; 61; 56; 14]%N.

Definition round_constants : list N :=
  [0x0000000000000001; 0x0000000000008082; 0x800000000000808A;
   0x8000000080008000; 0x000000000000808B; 0x0000000080000001;
   0x8000000080008081; 0x8000000000008009; 0x000000000000008A;
   0x0000000000000088; 0x0000000080008009; 0x000000008000000A;
   0x000000008000808B; 0x800000000000008B; 0x8000000000008089;
   0x8000000000008003; 0x8000000000008002; 0x8000000000000080;
   0x000000000000800A; 0x800000008000000A; 0x8000000080008081;
   0x8000000000008080; 0x0000000080000001; 0x8000000080008008]%N.

Definition theta (st : list N) : list N :=
  let C x :=
    N.lxor (lane st x 0) (N.lxor (lane st x 1) (N.lxor (lane st x 2)
      (N.lxor (lane st x 3) (lane st x 4)))) in
  let D x := N.lxor (C (x + 4)) (rotl (C (x + 1)) 1) in
  tabulate (fun x y => N.lxor (lane st x y) (D x)).

(** Lane [(x, y)] moves to [(y, 2x + 3y)], rotated; read backwards, the
    lane at [(X, Y)] comes from [(X + 3Y, X)]. *)
Definition rho_pi (st : list N) : list N :=
  tabulate (fun X Y =>
    let x := (X + 3 * Y) mod 5 in
    rotl (lane st x X) (nth (x + 5 * X) rho_offsets 0%N)).

Definition chi (st : list N) : list N :=
  tabulate (fun x y =>
    N.lxor (lane st x y)
      (N.land (N.lxor (lane st (x + 1) y) mask64) (lane st (x + 2) y))).

Definition iota (rc : N) (st : list N) : list N :=
  match st with
  | a :: r => N.lxor a rc :: r
  | [] => []
  end.

Definition round (st : list N) (rc : N) : list N :=
  iota rc (chi (rho_pi (theta st))).

Definition keccak_f (st : list N) : list N :=
  fold_left round round_constants st.

Definition rate : nat := 136.

Fixpoint xor_at (i : nat) (v : N) (st : list N) : list N :=
  match st, i with
  | [], _ => []
  | a :: r, O => N.lxor a v :: r
  | a :: r, S j => a :: xor_at j v r
  end.

(** Absorb one byte at byte position [pos] of the current block; permute
    when the block is full. *)
Definition absorb (acc : list N * nat) (b : byte) : list N * nat :=
  let '(st, pos) := acc in
  let st' :=
    xor_at (pos / 8) (N.shiftl (Byte.to_N b) (8 * N.of_nat (pos mod 8))) st in
  if (S pos =? rate)%nat then (keccak_f st', O) else (st', S pos).

Definition pad (len : nat) : list byte :=
  let q := rate - len mod rate in
  if (q =? 1)%nat then [x81]
  else x01 :: repeat x00 (q - 2) ++ [x80].

Definition lane_bytes (a : N) : list byte :=
  map (fun i => Buffer.byte_of_N (N.shiftr a (8 * N.of_nat i) mod 256)) (seq 0 8).

Definition keccak256 (msg : list byte) : list byte :=
  let '(st, _) :=
    fold_left absorb (msg ++ pad (List.length msg)) (repeat 0%N 25, O) in
  firstn 32 (flat_map lane_bytes st).

End keccak.

(** ** Collaborators taken as parameters

    Node's [crypto] (AES-256-GCM) and the base64 codec of [Buffer] are not
    part of the repository.  GCM is kept in its two halves: the counter-mode
    keystream, which [update] applies in both directions, and the tag over
    the ciphertext, which [getAuthTag] returns and [final] checks. *)

Class Platform : Type := {
  gcm_ctr : list byte -> list byte -> list byte -> list byte;
  gcm_tag : list byte -> list byte -> list byte -> list byte;
  base64_encode : list byte -> string;
  base64_decode : string -> list byte
}.

(** An [ethers.Wallet]: its address and [signMessage], which returns the
    signature as a hex string ["0x" ++ r ++ s ++ v]. *)
Record Wallet : Type := {
  address : string;
  signMessage : list byte -> Result string
}.

(** ** Data model *)

Record Roles : Type := {
  creator : string;
  arbitrator : string;
  worker : string
}.

(** The tuple [marketplace.getJob] returns. *)
Record LedgerJob : Type := {
  l_state : Z;
  l_whitelistWorkers : bool;
  l_roles : option Roles;
  l_title : string;
  l_tags : list string;
  l_contentHash : string;
  l_multipleApplicants : bool;
  l_amount : Z;
  l_token : string;
  l_timestamp : Z;
  l_maxTime : Z;
  l_deliveryMethod : string;
  l_collateralOwed : Z;
  l_escrowId : Z;
  l_resultHash : string;
  l_rating : Z;
  l_disputed : bool
}.

(** The job object [getJobs] builds and [processJob] receives. *)
Record Job : Type := {
  id : Z;
  title : string;
  state : Z;
  roles : Roles;
  multipleApplicants : bool;
  tags : list string;
  contentHash : option string;
  amount : Z;
  token : string
}.

Inductive Status : Type := started | executing | delivered | delivery_failed.

Definition Status_eqb (a b : Status) : bool :=
  match a, b with
  | started, started | executing, executing
  | delivered, delivered | delivery_failed, delivery_failed => true
  | _, _ => false
  end.

(** An entry of [agent.activeJobs]. *)
Record ActiveJobInfo : Type := {
  aj_job : Job;
  aj_content : string;
  aj_startTime : Z;
  aj_status : Status;
  aj_data : option string
}.

(** A JavaScript [Map] with number keys: entries in insertion order. *)
Module JsMap.
Section Ops.
Variable V : Type.
Definition t : Type := list (Z * V).

Fixpoint get (k : Z) (m : t) : option V :=
  match m with
  | [] => None
  | (k', v) :: r => if (k' =? k)%Z then Some v else get k r
  end.

Definition has (k : Z) (m : t) : bool :=
  match get k m with Some _ => true | None => false end.

(** [set] keeps the position of a key that is present and appends a
    new one. *)
Fixpoint set (k : Z) (v : V) (m : t) : t :=
  match m with
  | [] => [(k, v)]
  | (k', v') :: r =>
      if (k' =? k)%Z then (k, v) :: r else (k', v') :: set k v r
  end.

Definition delete (k : Z) (m : t) : t :=
  filter (fun e => negb (fst e =? k)%Z) m.

Definition size (m : t) : nat := List.length m.
End Ops.
End JsMap.

(** A JavaScript [Set] of numbers. *)
Module JsSet.
Definition t : Type := list Z.
Definition has (k : Z) (s : t) : bool := existsb (Z.eqb k) s.
Definition add (k : Z) (s : t) : t := if has k s then s else s ++ [k].
End JsSet.

(** What the process keeps in memory: [connector.processedJobs] and, for each
    loaded agent in the order of [agentManager.agents], its [activeJobs]. *)
Record Local : Type := {
  processedJobs : JsSet.t;
  agents : list (string * JsMap.t ActiveJobInfo)
}.

(** The fields of the configuration singleton that the modelled code reads. *)
Record Config : Type := {
  ipfsApiUrl : string;
  ipfsApiKey : string;
  ipfsApiSecret : string;
  ipfsGatewayUrl : string;
  ipfsGateways : list string;
  relevantTags : list string;
  wallet : Wallet
}.

(** [loadConfig]: the configured gateway followed by the four alternatives. *)
Definition loadConfig_ipfsGateways (gatewayUrl : string) : list string :=
  [gatewayUrl;
   "https://gateway.pinata.cloud/ipfs/";
   "https://cloudflare-ipfs.com/ipfs/";
   "https://dweb.link/ipfs/";
   "https://ipfs.io/ipfs/"].

(** ** Effects

    Every call that leaves the process is a [Call]; its answer is either a
    value or the error it throws.  [Sys] are the synchronous services that
    cannot fail. *)

Record PinataMetadata : Type := {
  pm_name : string;
  pm_encrypted : string;
  pm_timestamp : string
}.

Record PinResponse : Type := {
  IpfsHash : string;
  PinSize : Z
}.

Definition Tx : Type := Z.

Inductive Call : Type -> Type :=
| AxiosGet (url : string) (timeout : Z) : Call string
| PinFileToIPFS (url : string) (file : list byte) (metadata : PinataMetadata)
    (api_key api_secret : string) : Call PinResponse
| JobsLength : Call Z
| MarketplaceGetJob (jobId : Z) : Call LedgerJob
| PublicKeys (addr : string) : Call string
| EventsLength (jobId : Z) : Call Z
| PostThreadMessage (jobId : Z) (contentHash_ : string) (recipient : string) : Call Tx
| TakeJob (jobId : Z) (signature : string) : Call Tx
| DeliverResult (jobId : Z) (resultHash : string) : Call Tx
| TxWait (tx : Tx) : Call unit
| AgentIsJobMatch (name : string) (job : Job) (content : string) : Call bool
| AgentCreateApplicationMessage (name : string) (job : Job) (content : string) : Call string
| AgentExecuteJob (name : string) (job : Job) (content : string) : Call string
| AgentPackageResult (name : string) (job : Job) (content result : string) : Call string.

Inductive Sys : Type -> Type :=
| DateNow : Sys Z
| RandomByte : Sys byte
| ConsoleError (context : string) (e : Exn) : Sys unit.

(** The plug-in methods that are plain functions answer at once; every other
    call is awaited and lets other ticks run in the meantime. *)
Definition suspends {R} (c : Call R) : bool :=
  match c with
  | AgentIsJobMatch _ _ _
  | AgentCreateApplicationMessage _ _ _
  | AgentPackageResult _ _ _ _ => false
  | _ => true
  end.

Inductive Event : Type :=
| ECall {R} (c : Call R)
| ESys {R} (s : Sys R).

(** The outside world answers from the history of calls made so far. *)
Record World : Type := {
  answer : forall R, list Event -> Call R -> Result R;
  sys : forall R, list Event -> Sys R -> R
}.

Inductive Prog (A : Type) : Type :=
| Ret (a : A)
| Throw (e : Exn)
| Await {R} (c : Call R) (k : Result R -> Prog A)
| Sync {R} (s : Sys R) (k : R -> Prog A)
| GetLocal (k : Local -> Prog A)
| PutLocal (l : Local) (k : Prog A).

Arguments Ret {A} a.
Arguments Throw {A} e.
Arguments GetLocal {A} k.
Arguments PutLocal {A} l k.

Fixpoint bind {A B} (p : Prog A) (f : A -> Prog B) : Prog B :=
  match p with
  | Ret a => f a
  | Throw e => Throw e
  | Await c k => Await c (fun r => bind (k r) f)
  | Sync s k => Sync s (fun r => bind (k r) f)
  | GetLocal k => GetLocal (fun l => bind (k l) f)
  | PutLocal l k => PutLocal l (bind k f)
  end.

(** [try { p } catch (e) { h e }] *)
Fixpoint try_catch {A} (p : Prog A) (h : Exn -> Prog A) : Prog A :=
  match p with
  | Ret a => Ret a
  | Throw e => h e
  | Await c k => Await c (fun r => try_catch (k r) h)
  | Sync s k => Sync s (fun r => try_catch (k r) h)
  | GetLocal k => GetLocal (fun l => try_catch (k l) h)
  | PutLocal l k => PutLocal l (try_catch k h)
  end.

Declare Scope prog_scope.
Delimit Scope prog_scope with prog.
Notation "x <- p ;; q" := (bind p (fun x => q))
  (at level 61, p at next level, right associativity) : prog_scope.
Notation "p ;;; q" := (bind p (fun _ => q))
  (at level 61, right associativity) : prog_scope.
Local Open Scope prog_scope.

Definition call {R} (c : Call R) : Prog R :=
  Await c (fun r => match r with inl e => Throw e | inr v => Ret v end).

Definition sys_call {R} (s : Sys R) : Prog R := Sync s (fun r => Ret r).

Definition lift {A} (r : Result A) : Prog A :=
  match r with inl e => Throw e | inr a => Ret a end.

Definition get_local : Prog Local := GetLocal (fun l => Ret l).
Definition put_local (l : Local) : Prog unit := PutLocal l (Ret tt).

(** The body of a [try] whose [catch] goes on with the loop: its outcome
    as a value. *)
Definition attempt {A} (p : Prog A) : Prog (Result A) :=
  try_catch (a <- p ;; Ret (inr a)) (fun e => Ret (inl e)).

Definition console_error (context : string) (e : Exn) : Prog unit :=
  sys_call (ConsoleError context e).

(** [crypto.randomBytes(n)] *)
Fixpoint randomBytes (n : nat) : Prog (list byte) :=
  match n with
  | O => Ret []
  | S m => b <- sys_call RandomByte ;; r <- randomBytes m ;; Ret (b :: r)
  end.

(** *** Running a program to completion, one call after the other *)

Record St : Type := {
  local : Local;
  trace : list Event
}.

Fixpoint run {A} (w : World) (p : Prog A) (st : St) : Result A * St :=
  match p with
  | Ret a => (inr a, st)
  | Throw e => (inl e, st)
  | Await c k =>
      run w (k (answer w (trace st) c))
        {| local := local st; trace := trace st ++ [ECall c] |}
  | Sync s k =>
      run w (k (sys w (trace st) s))
        {| local := local st; trace := trace st ++ [ESys s] |}
  | GetLocal k => run w (k (local st)) st
  | PutLocal l k => run w k {| local := l; trace := trace st |}
  end.

(** ** Node's [crypto] interface over the GCM parameters *)

Module crypto.
Section WithPlatform.
Context {platform : Platform}.

Record Cipher : Type := {
  c_key : list byte;
  c_iv : list byte;
  c_tag : list byte;      (* decipher: the tag set by [setAuthTag] *)
  c_data : list byte      (* the ciphertext seen so far *)
}.

Definition bytes_eqb (a b : list byte) : bool :=
  if list_eq_dec Byte.byte_eq_dec a b then true else false.

(** [createCipheriv('aes-256-gcm', key, iv)] and [createDecipheriv]:
    the key must be 32 bytes and the nonce must not be empty. *)
Definition createCipheriv (key iv : list byte) : Result Cipher :=
  if negb (List.length key =? 32)%nat then inl (RangeError "Invalid key length")
  else if (List.length iv =? 0)%nat then inl (TypeError "Invalid initialization vector")
  else inr {| c_key := key; c_iv := iv; c_tag := []; c_data := [] |}.

Definition createDecipheriv := createCipheriv.

(** [cipher.update(data)]; in GCM [cipher.final()] adds nothing. *)
Definition cipher_update (c : Cipher) (data : list byte) : list byte * Cipher :=
  let out := gcm_ctr (c_key c) (c_iv c) data in
  (out, {| c_key := c_key c; c_iv := c_iv c; c_tag := c_tag c;
           c_data := c_data c ++ out |}).

Definition cipher_final (c : Cipher) : list byte := [].

Definition getAuthTag (c : Cipher) : list byte :=
  gcm_tag (c_key c) (c_iv c) (c_data c).

Definition valid_tag_length (n : nat) : bool :=
  (n =? 4)%nat || (n =? 8)%nat || ((12 <=? n)%nat && (n <=? 16)%nat).

(** [decipher.setAuthTag(tag)] *)
Definition setAuthTag (c : Cipher) (tag : list byte) : Result Cipher :=
  if valid_tag_length (List.length tag)
  then inr {| c_key := c_key c; c_iv := c_iv c; c_tag := tag; c_data := c_data c |}
  else inl (TypeError ("Invalid authentication tag length: " ++
                       JsString.of_Z (Z.of_nat (List.length tag)))%string).

(** [decipher.update(data)] hands out bytes before the tag is checked. *)
Definition decipher_update (c : Cipher) (data : list byte) : list byte * Cipher :=
  let out := gcm_ctr (c_key c) (c_iv c) data in
  (out, {| c_key := c_key c; c_iv := c_iv c; c_tag := c_tag c;
           c_data := c_data c ++ data |}).

Definition authentication_error : Exn :=
  Error "Unsupported state or unable to authenticate data".

(** [decipher.final()] compares the tag that was set with the tag of the
    ciphertext, over the length of the tag that was set. *)
Definition decipher_final (c : Cipher) : Result (list byte) :=
  if bytes_eqb (c_tag c)
       (firstn (List.length (c_tag c)) (gcm_tag (c_key c) (c_iv c) (c_data c)))
  then inr []
  else inl authentication_error.

End WithPlatform.
End crypto.

(** ** [src/encryption/index.js] *)

Record Published : Type := {
  hash : string;
  size : Z;
  url : string;
  encrypted : bool
}.

Module Encryption.
Section WithPlatform.
Context {platform : Platform}.

(** [getSessionKey(wallet, otherPublicKey, jobId)] *)
Definition getSessionKey (wallet : Wallet) (otherPublicKey : string) (jobId : Z)
  : Prog string :=
  try_catch
    (let messageToSign :=
       ("session-key-" ++ JsString.of_Z jobId ++ "-" ++ otherPublicKey)%string in
     signature <- lift (signMessage wallet (list_byte_of_string messageToSign)) ;;
     (* Use first 32 bytes of signature as the session key *)
     let sessionKey := JsString.slice 2 66 signature in
     Ret sessionKey)
    (fun error =>
       console_error "Error deriving session key:" error ;;; Throw error).

(** [encryptUtf8Data(data, key)] once [randomBytes(16)] has given [iv]. *)
Definition encryptUtf8Data_with (iv : list byte) (data key : string)
  : Result (list byte) :=
  let keyBuffer := Buffer.from_hex (JsString.slice 0 64 key) in
  match crypto.createCipheriv keyBuffer iv with
  | inl e => inl e
  | inr cipher =>
      let '(out, cipher) := crypto.cipher_update cipher (list_byte_of_string data) in
      let encrypted := out ++ crypto.cipher_final cipher in
      let authTag := crypto.getAuthTag cipher in
      (* Format: IV (16 bytes) + AuthTag (16 bytes) + EncryptedData *)
      inr (iv ++ authTag ++ encrypted)
  end.

Definition encryptUtf8Data (data key : string) : Prog (list byte) :=
  iv <- randomBytes 16 ;;
  lift (encryptUtf8Data_with iv data key).

(** [decryptToUtf8(encryptedData, key)] *)
Definition decryptToUtf8 (encryptedData : list byte) (key : string)
  : Result string :=
  let keyBuffer := Buffer.from_hex (JsString.slice 0 64 key) in
  let iv := Buffer.slice 0 16 encryptedData in
  let authTag := Buffer.slice 16 32 encryptedData in
  let encrypted := Buffer.slice_from 32 encryptedData in
  match crypto.createDecipheriv keyBuffer iv with
  | inl e => inl e
  | inr decipher =>
      match crypto.setAuthTag decipher authTag with
      | inl e => inl e
      | inr decipher =>
          let '(out, decipher) := crypto.decipher_update decipher encrypted in
          match crypto.decipher_final decipher with
          | inl e => inl e
          | inr fin => inr (string_of_list_byte (out ++ fin))
          end
      end
  end.

Definition truthy (s : string) : bool :=
  match s with EmptyString => false | _ => true end.

Definition truthy_opt (s : option string) : bool :=
  match s with Some s => truthy s | None => false end.

(** [publishToIpfs(content, encryptionKey = null)] *)
Definition publishToIpfs (config : Config) (content : string)
    (encryptionKey : option string) : Prog Published :=
  dataToUpload <-
    match encryptionKey with
    | Some key =>
        if truthy key
        then (e <- encryptUtf8Data content key ;; Ret (base64_encode e))
        else Ret content
    | None => Ret content
    end ;;
  try_catch
    (let url := (ipfsApiUrl config ++ "/pinning/pinFileToIPFS")%string in
     now1 <- sys_call DateNow ;;
     now2 <- sys_call DateNow ;;
     let metadata :=
       {| pm_name := ("eacc-data-" ++ JsString.of_Z now1)%string;
          pm_encrypted := if truthy_opt encryptionKey then "true" else "false";
          pm_timestamp := JsString.of_Z now2 |} in
     response <- call (PinFileToIPFS url (list_byte_of_string dataToUpload)
                         metadata (ipfsApiKey config) (ipfsApiSecret config)) ;;
     Ret {| hash := IpfsHash response;
            size := PinSize response;
            url := (ipfsGatewayUrl config ++ IpfsHash response)%string;
            encrypted := truthy_opt encryptionKey |})
    (fun error =>
       console_error "Error publishing to IPFS via Pinata:" error ;;;
       Throw (Error ("Failed to publish to IPFS: " ++ message error)%string)).

(** The [for (const gateway of config.ipfsGateways)] loop of
    [getFromIpfs], with [lastError] as it stands on entry. *)
Fixpoint getFromIpfs_loop (gateways : list string) (cid : string)
    (decryptionKey : option string) (lastError : option Exn) : Prog string :=
  match gateways with
  | [] =>
      (* If we've exhausted all gateways, throw an error *)
      match lastError with
      | Some e =>
          Throw (Error ("Failed to retrieve from all IPFS gateways: " ++ message e)%string)
      | None =>
          Throw (TypeError "Cannot read properties of null (reading 'message')")
      end
  | gateway :: rest =>
      r <- attempt
             (let url := (gateway ++ cid)%string in
              content <- call (AxiosGet url 10000) ;;
              (* Decrypt if decryptionKey is provided *)
              if truthy_opt decryptionKey
              then
                let encryptedData := base64_decode content in
                lift (decryptToUtf8 encryptedData
                        (match decryptionKey with Some k => k | None => "" end))
              else Ret content) ;;
      match r with
      | inr content => Ret content
      | inl error => getFromIpfs_loop rest cid decryptionKey (Some error)
      end
  end.

(** [getFromIpfs(cid, decryptionKey = null)] *)
Definition getFromIpfs (config : Config) (cid : string)
    (decryptionKey : option string) : Prog string :=
  getFromIpfs_loop (ipfsGateways config) cid decryptionKey None.

(** [hashToCid(hash)] *)
Definition hashToCid (hash_ : string) : Result string :=
  let body : Result string :=
    (* Remove 0x prefix if present *)
    let cleanHash :=
      if JsString.startsWith hash_ "0x" then JsString.slice_from 2 hash_ else hash_ in
    (* If it's already a CID (starts with Qm), return it *)
    if JsString.startsWith cleanHash "Qm" then inr cleanHash
    else
      let hashBytes := Buffer.from_hex cleanHash in
      let multihashBytes := multihash.encode hashBytes multihash.sha2_256 in
      inr (bs58.encode multihashBytes) in
  match body with
  | inr cid => inr cid
  | inl error => inl (Error ("Failed to convert hash to CID: " ++ message error)%string)
  end.

End WithPlatform.
End Encryption.

(** ** [ethers] helpers used by the connector *)

Module ethers.

Definition ZeroAddress : string := "0x0000000000000000000000000000000000000000".

(** [ethers.keccak256(bytes)]: the digest as a ["0x"] hex string. *)
Definition keccak256 (data : list byte) : string :=
  String "0"%char (String "x"%char (Buffer.to_hex (keccak.keccak256 data))).

(** [ethers.toUtf8Bytes(s)] *)
Definition toUtf8Bytes (s : string) : list byte := list_byte_of_string s.

(** [ethers.getBytes(hex)] *)
Definition getBytes (hex : string) : list byte :=
  Buffer.from_hex (JsString.slice_from 2 hex).

Fixpoint be_bytes (n : nat) (v : N) : list byte :=
  match n with
  | O => []
  | S m => be_bytes m (v / 256)%N ++ [Buffer.byte_of_N (v mod 256)%N]
  end.

(** One [uint256] word of [AbiCoder.encode]; values outside the type are
    refused. *)
Definition abi_uint256 (v : Z) : Result (list byte) :=
  if ((0 <=? v) && (v <? 2 ^ 256))%Z then inr (be_bytes 32 (Z.to_N v))
  else inl (RangeError "value out-of-bounds").

End ethers.

(** ** [src/connector/index.js] *)

(** What [connector.getJob] returns: the ledger tuple with the id added. *)
Record FetchedJob : Type := {
  fetched : LedgerJob;
  fetched_id : Z
}.

Definition zero_hash : string :=
  "0x0000000000000000000000000000000000000000000000000000000000000000".

Definition or_else (s d : string) : string :=
  if Encryption.truthy s then s else d.

Definition with_processedJobs (l : Local) (p : JsSet.t) : Local :=
  {| processedJobs := p; agents := agents l |}.

Module Connector.
Section WithPlatform.
Context {platform : Platform}.
Variable config : Config.

Definition job_of_tuple (i : Z) (jobData : LedgerJob) : Job :=
  {| id := i;
     title := or_else (l_title jobData) ("Job #" ++ JsString.of_Z i)%string;
     state := l_state jobData;
     roles :=
       {| creator :=
            or_else (match l_roles jobData with Some r => creator r | None => "" end)
                    (address (wallet config));
          arbitrator :=
            or_else (match l_roles jobData with Some r => arbitrator r | None => "" end)
                    ethers.ZeroAddress;
          worker :=
            or_else (match l_roles jobData with Some r => worker r | None => "" end)
                    ethers.ZeroAddress |};
     multipleApplicants := l_multipleApplicants jobData;
     tags := l_tags jobData;
     contentHash := Some (or_else (l_contentHash jobData) zero_hash);
     amount := l_amount jobData;
     token := or_else (l_token jobData) ethers.ZeroAddress |}.

(** The [for (let i = startIdx; i < endIdx; i++)] loop of [getJobs], with
    [n] iterations to go. *)
Fixpoint getJobs_loop (n : nat) (i : Z) (jobs : list Job) : Prog (list Job) :=
  match n with
  | O => Ret jobs
  | S m =>
      r <- attempt (jobData <- call (MarketplaceGetJob i) ;;
                    Ret (job_of_tuple i jobData)) ;;
      match r with
      | inr job => getJobs_loop m (i + 1)%Z (jobs ++ [job])
      | inl error =>
          console_error ("Error fetching job " ++ JsString.of_Z i ++ ":")%string error ;;;
          getJobs_loop m (i + 1)%Z jobs
      end
  end.

(** [getJobs(startIdx = 0, count = 0)] *)
Definition getJobs (startIdx count : Z) : Prog (list Job) :=
  try_catch
    (jobCount <- call JobsLength ;;
     let totalJobs := jobCount in
     let endIdx :=
       if (count =? 0)%Z then totalJobs else Z.min (startIdx + count) totalJobs in
     getJobs_loop (Z.to_nat (endIdx - startIdx)) startIdx [])
    (fun error => console_error "Error getting jobs:" error ;;; Throw error).

(** [getJob(jobId)] *)
Definition getJob (jobId : Z) : Prog FetchedJob :=
  try_catch
    (job <- call (MarketplaceGetJob jobId) ;;
     Ret {| fetched := job; fetched_id := jobId |})
    (fun error =>
       console_error ("Error fetching job " ++ JsString.of_Z jobId ++ ":")%string error ;;;
       Throw error).

(** [getJobContent(job)] *)
Definition getJobContent (job : Job) : Prog string :=
  match contentHash job with
  | None => Ret ""
  | Some h =>
      if negb (Encryption.truthy h) || String.eqb h zero_hash then Ret ""
      else
        try_catch
          (contentCid <- lift (Encryption.hashToCid h) ;;
           content <- Encryption.getFromIpfs config contentCid None ;;
           Ret content)
          (fun error =>
             console_error
               ("Error getting content for job " ++ JsString.of_Z (id job) ++ ":")%string
               error ;;;
             (* Return empty content on error *)
             Ret "")
  end.

Definition matches_keyword (text : string) : bool :=
  existsb
    (fun tag =>
       JsString.includes (JsString.toLowerCase text) (JsString.toLowerCase tag))
    (relevantTags config).

(** [isRelevantJob(job, content)], reading [this.processedJobs]. *)
Definition isRelevantJob (this_processedJobs : JsSet.t) (job : Job)
    (content : string) : bool :=
  (* only open jobs (state === 0) are relevant *)
  if negb (state job =? 0)%Z then false
  else if JsSet.has (id job) this_processedJobs then false
  else if Encryption.truthy (title job) && matches_keyword (title job) then true
  else if negb (List.length (tags job) =? 0)%nat && existsb matches_keyword (tags job)
  then true
  else if Encryption.truthy content && matches_keyword content then true
  else false.

Definition creator_of (job : FetchedJob) : Prog string :=
  match l_roles (fetched job) with
  | Some r => Ret (creator r)
  | None => Throw (TypeError "Cannot read properties of undefined (reading 'creator')")
  end.

Definition mark_processed (jobId : Z) : Prog unit :=
  l <- get_local ;;
  put_local (with_processedJobs l (JsSet.add jobId (processedJobs l))).

(** [applyForJob(jobId, applicationMessage)] *)
Definition applyForJob (jobId : Z) (applicationMessage : string) : Prog bool :=
  try_catch
    (job <- getJob jobId ;;
     owner <- creator_of job ;;
     (* Get owner's public key for encryption *)
     ownerPublicKey <- call (PublicKeys owner) ;;
     if negb (Encryption.truthy ownerPublicKey) || String.eqb ownerPublicKey "0x"
     then Throw (Error ("Owner public key not available for job " ++
                        JsString.of_Z jobId)%string)
     else
       sessionKey <- Encryption.getSessionKey (wallet config) ownerPublicKey jobId ;;
       published <- Encryption.publishToIpfs config applicationMessage (Some sessionKey) ;;
       (* Convert hash to bytes32 format *)
       let contentHashBytes := ethers.keccak256 (ethers.toUtf8Bytes (hash published)) in
       tx <- call (PostThreadMessage jobId contentHashBytes owner) ;;
       call (TxWait tx) ;;;
       (* Mark job as processed *)
       mark_processed jobId ;;;
       Ret true)
    (fun error =>
       console_error ("Error applying for job " ++ JsString.of_Z jobId ++ ":")%string error ;;;
       Ret false).

(** [takeJob(jobId)] *)
Definition takeJob (jobId : Z) : Prog bool :=
  try_catch
    (revision <- call (EventsLength jobId) ;;
     w1 <- lift (ethers.abi_uint256 revision) ;;
     w2 <- lift (ethers.abi_uint256 jobId) ;;
     let messageHash := ethers.keccak256 (w1 ++ w2) in
     let messageBytes := ethers.getBytes messageHash in
     signature <- lift (signMessage (wallet config) messageBytes) ;;
     tx <- call (TakeJob jobId signature) ;;
     call (TxWait tx) ;;;
     mark_processed jobId ;;;
     Ret true)
    (fun error =>
       console_error ("Error taking job " ++ JsString.of_Z jobId ++ ":")%string error ;;;
       Ret false).

(** [deliverResult(jobId, resultContent)] *)
Definition deliverResult (jobId : Z) (resultContent : string) : Prog bool :=
  try_catch
    (job <- getJob jobId ;;
     owner <- creator_of job ;;
     ownerPublicKey <- call (PublicKeys owner) ;;
     sessionKey <- Encryption.getSessionKey (wallet config) ownerPublicKey jobId ;;
     published <- Encryption.publishToIpfs config resultContent (Some sessionKey) ;;
     let resultHashBytes := ethers.keccak256 (ethers.toUtf8Bytes (hash published)) in
     tx <- call (DeliverResult jobId resultHashBytes) ;;
     call (TxWait tx) ;;;
     Ret true)
    (fun error =>
       console_error
         ("Error delivering result for job " ++ JsString.of_Z jobId ++ ":")%string error ;;;
       Ret false).

End WithPlatform.
End Connector.

(** ** [src/base-agent/index.js]

    The methods a specialised agent implements ([isJobMatch],
    [createApplicationMessage], [executeJob], [packageResult]) are calls to
    the outside; the bookkeeping of [activeJobs] is modelled here, for the
    agent registered under [name]. *)

Module BaseAgent.

Fixpoint activeJobs (name : string) (ags : list (string * JsMap.t ActiveJobInfo))
  : JsMap.t ActiveJobInfo :=
  match ags with
  | [] => []
  | (n, m) :: r => if String.eqb n name then m else activeJobs name r
  end.

Fixpoint set_activeJobs (name : string) (m : JsMap.t ActiveJobInfo)
    (ags : list (string * JsMap.t ActiveJobInfo))
  : list (string * JsMap.t ActiveJobInfo) :=
  match ags with
  | [] => []
  | (n, m') :: r =>
      if String.eqb n name then (n, m) :: r else (n, m') :: set_activeJobs name m r
  end.

Definition with_activeJobs (l : Local) (name : string) (m : JsMap.t ActiveJobInfo)
  : Local :=
  {| processedJobs := processedJobs l; agents := set_activeJobs name m (agents l) |}.

(** [addActiveJob(job, content)] *)
Definition addActiveJob (name : string) (job : Job) (content : string) : Prog unit :=
  now <- sys_call DateNow ;;
  l <- get_local ;;
  put_local
    (with_activeJobs l name
       (JsMap.set (id job)
          {| aj_job := job; aj_content := content; aj_startTime := now;
             aj_status := started; aj_data := None |}
          (activeJobs name (agents l)))).

(** [updateActiveJob(jobId, status, data = null)] *)
Definition updateActiveJob (name : string) (jobId : Z) (status : Status)
    (data : option string) : Prog unit :=
  l <- get_local ;;
  match JsMap.get jobId (activeJobs name (agents l)) with
  | None => Throw (Error ("Job " ++ JsString.of_Z jobId ++ " is not active")%string)
  | Some jobInfo =>
      let jobInfo' :=
        {| aj_job := aj_job jobInfo; aj_content := aj_content jobInfo;
           aj_startTime := aj_startTime jobInfo;
           aj_status := status;
           aj_data := match data with Some d => Some d | None => aj_data jobInfo end |} in
      put_local
        (with_activeJobs l name (JsMap.set jobId jobInfo' (activeJobs name (agents l))))
  end.

(** [getActiveJob(jobId)] *)
Definition getActiveJob (name : string) (jobId : Z) (l : Local) : option ActiveJobInfo :=
  JsMap.get jobId (activeJobs name (agents l)).

(** [removeActiveJob(jobId)] *)
Definition removeActiveJob (name : string) (jobId : Z) : Prog unit :=
  l <- get_local ;;
  put_local (with_activeJobs l name (JsMap.delete jobId (activeJobs name (agents l)))).

End BaseAgent.

(** ** [src/agent-manager/index.js] *)

Fixpoint for_each {X} (xs : list X) (body : X -> Prog unit) : Prog unit :=
  match xs with
  | [] => Ret tt
  | x :: r => body x ;;; for_each r body
  end.

Module AgentManager.
Section WithPlatform.
Context {platform : Platform}.
Variable config : Config.

(** [findMatchingAgents(job, content)]: the names of the agents whose
    [isJobMatch] accepts the job, in the order of [this.agents]. *)
Fixpoint findMatchingAgents_loop (names : list string) (job : Job) (content : string)
    (matchingAgents : list string) : Prog (list string) :=
  match names with
  | [] => Ret matchingAgents
  | name :: r =>
      m <- call (AgentIsJobMatch name job content) ;;
      findMatchingAgents_loop r job content
        (if m then matchingAgents ++ [name] else matchingAgents)
  end.

Definition findMatchingAgents (job : Job) (content : string) : Prog (list string) :=
  l <- get_local ;;
  findMatchingAgents_loop (map fst (agents l)) job content [].

(** [processJob(job)] *)
Definition processJob (job : Job) : Prog unit :=
  try_catch
    ((* Get job content *)
     content <- Connector.getJobContent config job ;;
     (* Check if job is relevant *)
     l <- get_local ;;
     let isRelevant := Connector.isRelevantJob config (processedJobs l) job content in
     if negb isRelevant then Ret tt
     else
       (* Find matching agents *)
       matchingAgents <- findMatchingAgents job content ;;
       match matchingAgents with
       | [] => Ret tt
       | name :: _ =>
           (* Use the first matching agent *)
           applicationMessage <- call (AgentCreateApplicationMessage name job content) ;;
           (* Apply for the job *)
           applicationSuccess <- Connector.applyForJob config (id job) applicationMessage ;;
           if negb applicationSuccess then Ret tt
           else
             (* If this is a non-multipleApplicants job, attempt to take it *)
             (if negb (multipleApplicants job)
              then (_ <- Connector.takeJob config (id job) ;; Ret tt)
              else Ret tt) ;;;
             (* Add to active jobs *)
             BaseAgent.addActiveJob name job content
       end)
    (fun error =>
       console_error ("Error processing job " ++ JsString.of_Z (id job) ++ ":")%string error).

Definition worker_of (job : FetchedJob) : Prog string :=
  match l_roles (fetched job) with
  | Some r => Ret (worker r)
  | None => Throw (TypeError "Cannot read properties of undefined (reading 'worker')")
  end.

(** The body of the loop over [agent.activeJobs.entries()].  [jobInfo] is
    the object the map holds: its status is read when the code reads
    it. *)
Definition processActiveJob (name : string) (entry : Z * ActiveJobInfo) : Prog unit :=
  let '(jobId, jobInfo0) := entry in
  try_catch
    ((* Get latest job state *)
     currentJob <- Connector.getJob jobId ;;
     (* Check if we are the worker *)
     currentWorker <- worker_of currentJob ;;
     if negb (String.eqb (JsString.toLowerCase currentWorker)
                         (JsString.toLowerCase (address (wallet config))))
     then BaseAgent.removeActiveJob name jobId
     else
       l <- get_local ;;
       let jobInfo :=
         match BaseAgent.getActiveJob name jobId l with
         | Some i => i
         | None => jobInfo0
         end in
       (* Check if job status is "Taken" (state === 1) *)
       if (l_state (fetched currentJob) =? 1)%Z
          && Status_eqb (aj_status jobInfo) started
          && negb (Encryption.truthy (l_resultHash (fetched currentJob)))
       then
         (* Update status *)
         BaseAgent.updateActiveJob name jobId executing None ;;;
         (* Execute job *)
         result <- call (AgentExecuteJob name (aj_job jobInfo) (aj_content jobInfo)) ;;
         (* Package result *)
         packagedResult <-
           call (AgentPackageResult name (aj_job jobInfo) (aj_content jobInfo) result) ;;
         (* Deliver result *)
         deliverySuccess <- Connector.deliverResult config jobId packagedResult ;;
         if deliverySuccess
         then BaseAgent.updateActiveJob name jobId delivered (Some result)
         else BaseAgent.updateActiveJob name jobId delivery_failed None
       (* Check if job is completed or disputed *)
       else if (l_state (fetched currentJob) >? 1)%Z
       then BaseAgent.removeActiveJob name jobId
       else Ret tt)
    (fun error =>
       console_error
         ("Error processing active job " ++ JsString.of_Z jobId ++ ":")%string error).

(** [processActiveJobs()] *)
Definition processActiveJobs : Prog unit :=
  l <- get_local ;;
  for_each (map fst (agents l))
    (fun name =>
       l <- get_local ;;
       let active := BaseAgent.activeJobs name (agents l) in
       (* Skip if agent has no active jobs *)
       if (JsMap.size active =? 0)%nat then Ret tt
       else for_each active (processActiveJob name)).

(** [monitorNewJobs()] *)
Definition monitorNewJobs : Prog unit :=
  try_catch
    (jobCount <- call JobsLength ;;
     (* Get the latest few jobs *)
     let latestJobCount := 10%Z in
     let startIdx := Z.max 0 (jobCount - latestJobCount) in
     jobs <- Connector.getJobs config startIdx 0 ;;
     (* Process each job *)
     for_each jobs processJob)
    (fun error => console_error "Error monitoring new jobs:" error ;;; Throw error).

End WithPlatform.
End AgentManager.

(** ** The event loop and the two polling timers

    JavaScript runs one callback at a time.  A tick runs until it awaits a
    call to the outside; it is resumed when that call is answered, and the
    answer is given on the history at that moment.  Real time is left out:
    an interval may fire whenever no callback is running. *)

Module EventLoop.

Inductive Suspended : Type :=
| Waiting {R} (c : Call R) (k : Result R -> Prog unit).

(** Run [p] until it finishes ([None]) or awaits a call. *)
Fixpoint advance (w : World) (p : Prog unit) (st : St) : option Suspended * St :=
  match p with
  | Ret _ => (None, st)
  | Throw _ => (None, st)
  | Await c k =>
      if suspends c then (Some (Waiting c k), st)
      else advance w (k (answer w (trace st) c))
             {| local := local st; trace := trace st ++ [ECall c] |}
  | Sync s k =>
      advance w (k (sys w (trace st) s))
        {| local := local st; trace := trace st ++ [ESys s] |}
  | GetLocal k => advance w (k (local st)) st
  | PutLocal l k => advance w k {| local := l; trace := trace st |}
  end.

(** The awaited call is answered and the tick goes on. *)
Definition resume (w : World) (s : Suspended) (st : St) : option Suspended * St :=
  match s with
  | Waiting c k =>
      advance w (k (answer w (trace st) c))
        {| local := local st; trace := trace st ++ [ECall c] |}
  end.

End EventLoop.

Inductive Timer : Type := jobMonitoringInterval | activeJobsMonitoringInterval.

Definition Timer_eqb (a b : Timer) : bool :=
  match a, b with
  | jobMonitoringInterval, jobMonitoringInterval
  | activeJobsMonitoringInterval, activeJobsMonitoringInterval => true
  | _, _ => false
  end.

(** A tick that was started: the timer it belongs to and, while it is in
    flight, what it awaits. *)
Record Tick : Type := {
  tick_timer : Timer;
  tick_awaits : option EventLoop.Suspended
}.

Record System : Type := {
  memory : St;
  ticks : list Tick;
  intervals_set : bool
}.

Inductive Happening : Type :=
| Fires (t : Timer)          (* the interval of [t] is due *)
| Answered (i : nat)         (* the call tick [i] awaits is answered *)
| Stopped.                   (* [stopJobMonitoring] *)

Module Monitoring.
Section WithPlatform.
Context {platform : Platform}.
Variable config : Config.
Variable w : World.

(** The callbacks given to [setInterval]. *)
Definition interval_callback (t : Timer) : Prog unit :=
  match t with
  | jobMonitoringInterval =>
      try_catch (AgentManager.monitorNewJobs config)
        (fun error => console_error "Error monitoring new jobs:" error)
  | activeJobsMonitoringInterval =>
      try_catch (AgentManager.processActiveJobs config)
        (fun error => console_error "Error processing active jobs:" error)
  end.


Definition spawn (t : Timer) (p : Prog unit) (s : System) : System :=
  let '(a, st) := EventLoop.advance w p (memory s) in
  {| memory := st;
     ticks := ticks s ++ [{| tick_timer := t; tick_awaits := a |}];
     intervals_set := intervals_set s |}.


(** [stopJobMonitoring()] clears the intervals. *)
Definition stopJobMonitoring (s : System) : System :=
  {| memory := memory s; ticks := ticks s; intervals_set := false |}.

Fixpoint set_nth {X} (i : nat) (x : X) (l : list X) : list X :=
  match l, i with
  | [], _ => []
  | _ :: r, O => x :: r
  | y :: r, S j => y :: set_nth j x r
  end.

Definition step (s : System) (h : Happening) : System :=
  match h with
  | Fires t =>
      (* the callback is called whatever the earlier ticks are doing *)
      if intervals_set s then spawn t (interval_callback t) s else s
  | Answered i =>
      match nth_error (ticks s) i with
      | Some {| tick_timer := t; tick_awaits := Some a |} =>
          let '(a', st) := EventLoop.resume w a (memory s) in
          {| memory := st;
             ticks := set_nth i {| tick_timer := t; tick_awaits := a' |} (ticks s);
             intervals_set := intervals_set s |}
      | _ => s
      end
  | Stopped => stopJobMonitoring s
  end.

Definition exec (s : System) (hs : list Happening) : System :=
  fold_left step hs s.

(** The ticks of timer [t] that are in flight. *)
Definition in_flight (t : Timer) (s : System) : nat :=
  List.length
    (filter (fun k =>
               Timer_eqb (tick_timer k) t &&
               match tick_awaits k with Some _ => true | None => false end)
            (ticks s)).

End WithPlatform.
End Monitoring.

(** ** Observations on the trace *)


Definition is_ledger_write (e : Event) : bool :=
  match e with
  | ECall (PostThreadMessage _ _ _) | ECall (TakeJob _ _) | ECall (DeliverResult _ _) => true
  | _ => false
  end.


Definition is_gateway_fetch (e : Event) : option string :=
  match e with
  | ECall (AxiosGet url _) => Some url
  | _ => None
  end.








(** What one gateway gives when it is asked on the history [history]: the
    outcome of the body of the [try] in [getFromIpfs]. *)
Definition gateway_fetch (cid gateway : string) : Event :=
  ECall (AxiosGet (gateway ++ cid)%string 10000).

Definition gateway_attempt {platform : Platform} (w : World) (cid : string)
    (decryptionKey : option string) (history : list Event) (gateway : string)
  : Result string :=
  match answer w history (AxiosGet (gateway ++ cid)%string 10000) with
  | inl e => inl e
  | inr content =>
      if Encryption.truthy_opt decryptionKey
      then Encryption.decryptToUtf8 (base64_decode content)
             (match decryptionKey with Some k => k | None => "" end)
      else inr content
  end.

(** The terminal error of [getFromIpfs], carrying the last error. *)
Definition all_gateways_failed (lastError : Exn) : Exn :=
  Error ("Failed to retrieve from all IPFS gateways: " ++ message lastError)%string.

(** *** Vocabulary of the properties *)

(** The state after the calls [evs] were made and the memory was left
    alone. *)
Definition extend (st : St) (evs : list Event) : St :=
  {| local := local st; trace := trace st ++ evs |}.

Definition harmless (e : Event) : Prop := is_ledger_write e = false.


Definition anything {A} (r : Result A) : Prop := True.

Definition returns {A} (r : Result A) : Prop := exists v, r = inr v.

(** [quiet ok w p Post]: from any state, [p] keeps the memory, makes only
    calls that satisfy [ok], and ends with an outcome in [Post]. *)
Definition quiet {A} (ok : Event -> Prop) (w : World) (p : Prog A)
    (Post : Result A -> Prop) : Prop :=
  forall st, exists evs,
    snd (run w p st) = extend st evs /\ Forall ok evs /\ Post (fst (run w p st)).

(** [keeps w Pre p Post]: from a state in [Pre], [p] ends in a state in
    [Post], whether it returns or raises. *)
Definition keeps {A} (w : World) (Pre : St -> Prop) (p : Prog A) (Post : St -> Prop)
  : Prop :=
  forall st, Pre st -> Post (snd (run w p st)).

(** The state after the gateways [gs] were asked for [cid], and the outcome
    of the attempt at [g] once the gateways [pre] have been asked. *)
Definition contacted (cid : string) (st : St) (gs : list string) : St :=
  extend st (map (gateway_fetch cid) gs).

Definition gateway_outcome {platform : Platform} (w : World) (cid : string)
    (key : option string) (st : St) (pre : list string) (g : string) : Result string :=
  gateway_attempt w cid key (trace st ++ map (gateway_fetch cid) pre) g.

Definition earlier_failed {platform : Platform} (w : World) (cid : string)
    (key : option string) (st : St) (pre : list string) : Prop :=
  forall pre' g' post', pre = pre' ++ g' :: post' ->
                        exists e, gateway_outcome w cid key st pre' g' = inl e.






(** The text [getSessionKey] signs. *)
Definition messageToSign (jobId : Z) (otherPublicKey : string) : list byte :=
  list_byte_of_string ("session-key-" ++ JsString.of_Z jobId ++ "-" ++ otherPublicKey)%string.

(** ** Test doubles

    Stand-ins for the collaborators, used to run the model on concrete
    inputs: a cipher with the shape of GCM (an involutive keystream and a
    16-byte tag over key, nonce and ciphertext), a hex transport encoding in
    place of base64, and wallets whose signatures are a keyed digest of the
    message. *)

Module Double.

Definition xor_all (bs : list byte) : byte := fold_right Buffer.xor_byte x00 bs.

#[export] Instance platform : Platform := {|
  gcm_ctr := fun key iv data => map (Buffer.xor_byte (xor_all (key ++ iv))) data;
  gcm_tag := fun key iv ct => xor_all (key ++ iv ++ ct) :: repeat x5a 15;
  base64_encode := Buffer.to_hex;
  base64_decode := Buffer.from_hex
|}.

(** A deterministic signer: 65 bytes derived from the secret and the
    message. *)
Definition sign (secret : string) (msg : list byte) : Result string :=
  inr (String "0"%char (String "x"%char
         (Buffer.to_hex (keccak.keccak256 (list_byte_of_string secret ++ msg)) ++
          Buffer.to_hex (keccak.keccak256 (msg ++ list_byte_of_string secret)) ++
          "1b")%string)).

Definition wallet_A : Wallet :=
  {| address := "0xAAAAaaaaAAAAaaaaAAAAaaaaAAAAaaaaAAAAaaaa";
     signMessage := sign "secret of A" |}.

Definition wallet_B : Wallet :=
  {| address := "0xBBBBbbbbBBBBbbbbBBBBbbbbBBBBbbbbBBBBbbbb";
     signMessage := sign "secret of B" |}.

Definition publicKey_A : string :=
  "0x02aaaaaaaaaaaaaaaaaaaaaaaaaaaaaaaaaaaaaaaaaaaaaaaaaaaaaaaaaaaaaaaa".

Definition publicKey_B : string :=
  "0x03bbbbbbbbbbbbbbbbbbbbbbbbbbbbbbbbbbbbbbbbbbbbbbbbbbbbbbbbbbbbbbbb".

Definition config : Config :=
  {| ipfsApiUrl := "https://api.pinata.cloud";
     ipfsApiKey := "key";
     ipfsApiSecret := "secret";
     ipfsGatewayUrl := "https://gateway.pinata.cloud/ipfs/";
     ipfsGateways := loadConfig_ipfsGateways "https://gateway.pinata.cloud/ipfs/";
     relevantTags := ["bot"; "automation"];
     wallet := wallet_A |}.

(** A content identifier that occurs in the repository's diagnostic
    scripts. *)
Definition sample_cid : string := "QmcbgeooPAVwQWkqKAf3vEi53vFyFgFi38iWNYMX9Z7DDV".

(** The ledger holds one open job, number 0, created by B, who has
    published a key; every gateway is down; the pinning service stores what
    it is given under [sample_cid]; every transaction is accepted. *)
Definition open_job : LedgerJob :=
  {| l_state := 0; l_whitelistWorkers := false;
     l_roles := Some {| creator := address wallet_B;
                        arbitrator := ethers.ZeroAddress;
                        worker := ethers.ZeroAddress |};
     l_title := "Need a Discord bot"; l_tags := ["discord"];
     l_contentHash := zero_hash; l_multipleApplicants := true;
     l_amount := 100; l_token := ethers.ZeroAddress; l_timestamp := 0;
     l_maxTime := 0; l_deliveryMethod := "ipfs"; l_collateralOwed := 0;
     l_escrowId := 0; l_resultHash := ""; l_rating := 0; l_disputed := false |}.

Definition market (creator_key : string) : World :=
  {| answer := fun R tr (c : Call R) =>
       match c in Call R return Result R with
       | AxiosGet _ _ => inl (Error "timeout of 10000ms exceeded")
       | PinFileToIPFS _ _ _ _ _ => inr {| IpfsHash := sample_cid; PinSize := 1 |}
       | JobsLength => inr 1%Z
       | MarketplaceGetJob j =>
           if (j =? 0)%Z then inr open_job else inl (Error "call revert exception")
       | PublicKeys a =>
           inr (if String.eqb a (address wallet_B) then creator_key else "0x")
       | EventsLength _ => inr 1%Z
       | PostThreadMessage _ _ _ => inr (Z.of_nat (List.length tr))
       | TakeJob _ _ => inr (Z.of_nat (List.length tr))
       | DeliverResult _ _ => inr (Z.of_nat (List.length tr))
       | TxWait _ => inr tt
       | AgentIsJobMatch _ _ _ => inr true
       | AgentCreateApplicationMessage _ _ _ => inr "I can build this bot."
       | AgentExecuteJob _ _ _ => inr "bot.js"
       | AgentPackageResult _ _ _ r => inr r
       end;
     sys := fun R tr (s : Sys R) =>
       match s in Sys R return R with
       | DateNow => Z.of_nat (List.length tr)
       | RandomByte => Buffer.byte_of_N (N.of_nat (List.length tr) mod 256)
       | ConsoleError _ _ => tt
       end |}.



Definition the_job : Job := Connector.job_of_tuple config 0 open_job.


Definition fresh : St :=
  {| local := {| processedJobs := []; agents := [("discord-bot", [])] |};
     trace := [] |}.

(** *** Scenarios *)

Definition sample_key : list byte := repeat x07 32.

(** The envelope sealed from ["bot"] under [sample_key]. *)
Definition sample_envelope : list byte :=
  Eval vm_compute in
    match fst (run (market "0x")
                 (Encryption.encryptUtf8Data "bot" (Buffer.to_hex sample_key)) fresh) with
    | inr e => e
    | inl _ => []
    end.

(** The signature A makes of the text for job 0 and B's key. *)
Definition signature_A : string :=
  "0x324aa95f17b3c086ee966ae55dddfd897c84de576a226243efb3ec14a41aefe42b91dc8674d8b63f68333254f2312eab1546ddafe65900f88f4d073bfd2248cb1b".





End Double.

From Stdlib Require Import Sorting.Sorted.

(** ** Reading the codecs backwards

    What is needed to state that the encodings lose nothing: the position of
    a character in the base-58 alphabet and the number a list of base-58
    digits spells. *)

Fixpoint index_in (c : ascii) (s : string) : N :=
  match s with
  | EmptyString => 0%N
  | String a r => if Ascii.eqb a c then 0%N else N.succ (index_in c r)
  end.

Definition bs58_indexOf (c : ascii) : N := index_in c bs58.ALPHABET.

(** Least significant digit first, as [bs58.digits] produces them. *)
Definition bs58_value (ds : list N) : N :=
  fold_right (fun d acc => (d + 58 * acc)%N) 0%N ds.

(** ** Further test doubles *)

Module Example.







End Example.

(** ** Further observations on the trace *)

(** The job numbers that were read from the ledger, in order. *)
Definition ledger_reads (tr : list Event) : list Z :=
  flat_map
    (fun e =>
       match e with
       | ECall (MarketplaceGetJob j) => [j]
       | _ => []
       end) tr.

(** The numbers [i], [i + 1], ..., [i + n - 1]. *)
Definition job_range (i : Z) (n : nat) : list Z :=
  map (fun k => (i + Z.of_nat k)%Z) (seq 0 n).

(** A job of a listing: the ledger's answer for its number, with the
    defaults of [getJobs] filled in. *)
Definition listed (w : World) (config : Config) (job : Job) : Prop :=
  exists history jobData,
    answer w history (MarketplaceGetJob (id job)) = inr jobData /\
    job = Connector.job_of_tuple config (id job) jobData.

(** The text [t] occurs in [s] as a run of consecutive characters. *)
Definition occurs (t s : string) : Prop :=
  exists a b, s = (a ++ t ++ b)%string.

(** The calls made since the history [tr0] all satisfy [ok]. *)
Definition since (tr0 : list Event) (ok : Event -> Prop) (st : St) : Prop :=
  exists evs, trace st = tr0 ++ evs /\ Forall ok evs.

(** What may be written to the ledger while job [jobId] is applied for: an
    application or a take for this job, and no delivery. *)
Definition applies_only_for (jobId : Z) (e : Event) : Prop :=
  match e with
  | ECall (PostThreadMessage j _ _) => j = jobId
  | ECall (TakeJob j _) => j = jobId
  | ECall (DeliverResult _ _) => False
  | _ => True
  end.

(** What may be written to the ledger while the active jobs are worked on:
    deliveries only. *)
Definition delivers_only (e : Event) : Prop :=
  match e with
  | ECall (PostThreadMessage _ _ _) | ECall (TakeJob _ _) => False
  | _ => True
  end.

(** The memory [l] differs from [l0] at most in the bookkeeping of job
    [jobId]: its number in [processedJobs] and the records kept under it. *)
Definition differs_only_at (jobId : Z) (l0 l : Local) : Prop :=
  (forall k, In k (processedJobs l) -> k = jobId \/ In k (processedJobs l0)) /\
  (forall name j, j <> jobId ->
     BaseAgent.getActiveJob name j l = BaseAgent.getActiveJob name j l0).

(** What handling job [jobId] keeps true since the state with history [tr0]
    and memory [l0]. *)
Definition footprint (jobId : Z) (tr0 : list Event) (l0 : Local) (st : St) : Prop :=
  since tr0 (applies_only_for jobId) st /\ differs_only_at jobId l0 (local st).

(** What working on the active jobs keeps true since the state with history
    [tr0] and memory [l0]: only deliveries are written, [processedJobs] is
    as it was, and no record appears that was not there. *)
Definition active_footprint (tr0 : list Event) (l0 : Local) (st : St) : Prop :=
  since tr0 delivers_only st /\
  processedJobs (local st) = processedJobs l0 /\
  (forall name j,
     BaseAgent.getActiveJob name j (local st) <> None ->
     BaseAgent.getActiveJob name j l0 <> None).

(** ** What a program can ever call

    [makes_only ok p]: whatever the world answers, every call and every use
    of a system service that [p] makes satisfies [ok]. *)

Fixpoint makes_only {A} (ok : Event -> Prop) (p : Prog A) : Prop :=
  match p with
  | Ret _ => True
  | Throw _ => True
  | Await c k => ok (ECall c) /\ forall r, makes_only ok (k r)
  | Sync s k => ok (ESys s) /\ forall r, makes_only ok (k r)
  | GetLocal k => forall l, makes_only ok (k l)
  | PutLocal _ k => makes_only ok k
  end.

(** An event that is not the reading of a job from the ledger, or reads a
    job numbered [lo] or more. *)
Definition reads_from (lo : Z) (e : Event) : Prop :=
  match e with
  | ECall (MarketplaceGetJob j) => (lo <= j)%Z
  | _ => True
  end.

(** ** [src/config.js]

    The configuration singleton is built from [process.env], a map from
    names to strings.  [Date.now()] at the time of loading is a parameter. *)

Module Js.

(** [s.split(',')]: the pieces between the commas; one piece, the empty
    one, for the empty string. *)
Fixpoint split_commas (s : string) : list string :=
  match s with
  | EmptyString => [EmptyString]
  | String c r =>
      if Ascii.eqb c ","%char then EmptyString :: split_commas r
      else
        match split_commas r with
        | piece :: pieces => String c piece :: pieces
        | [] => [String c EmptyString]
        end
  end.

(** [pieces.join(sep)] *)
Fixpoint join (sep : string) (pieces : list string) : string :=
  match pieces with
  | [] => EmptyString
  | [piece] => piece
  | piece :: rest => (piece ++ sep ++ join sep rest)%string
  end.

Definition byte_in (lo hi : nat) (c : ascii) : bool :=
  (lo <=? nat_of_ascii c)%nat && (nat_of_ascii c <=? hi)%nat.

Definition is_byte (n : nat) (c : ascii) : bool := (nat_of_ascii c =? n)%nat.

(** The white space and line terminators of ECMAScript in UTF-8: TAB, LF,
    VT, FF, CR, SP; U+00A0; U+1680; U+2000 to U+200A, U+2028, U+2029,
    U+202F; U+205F; U+3000; U+FEFF.  [white_head s] is what follows one
    such character at the head of [s]. *)
Definition white_head (s : string) : option string :=
  match s with
  | String a r1 =>
      if byte_in 9 13 a || is_byte 32 a then Some r1
      else
        match r1 with
        | String b r2 =>
            if is_byte 194 a && is_byte 160 b then Some r2
            else
              match r2 with
              | String c r3 =>
                  if is_byte 225 a && is_byte 154 b && is_byte 128 c then Some r3
                  else if is_byte 226 a && is_byte 128 b &&
                          (byte_in 128 138 c || byte_in 168 169 c || is_byte 175 c)
                  then Some r3
                  else if is_byte 226 a && is_byte 129 b && is_byte 159 c then Some r3
                  else if is_byte 227 a && is_byte 128 b && is_byte 128 c then Some r3
                  else if is_byte 239 a && is_byte 187 b && is_byte 191 c then Some r3
                  else None
              | EmptyString => None
              end
        | EmptyString => None
        end
  | EmptyString => None
  end.

Fixpoint trimStart_loop (fuel : nat) (s : string) : string :=
  match fuel with
  | O => s
  | S f =>
      match white_head s with
      | Some r => trimStart_loop f r
      | None => s
      end
  end.

(** [s.trimStart()] *)
Definition trimStart (s : string) : string := trimStart_loop (String.length s) s.

Fixpoint reverse_onto (s acc : string) : string :=
  match s with
  | EmptyString => acc
  | String c r => reverse_onto r (String c acc)
  end.

Definition reverse (s : string) : string := reverse_onto s EmptyString.

(** The same characters read from the end: [white_last s] is what follows
    one white-space character at the head of the reversed string [s]. *)
Definition white_last (s : string) : option string :=
  match s with
  | String c r1 =>
      if byte_in 9 13 c || is_byte 32 c then Some r1
      else
        match r1 with
        | String b r2 =>
            if is_byte 194 b && is_byte 160 c then Some r2
            else
              match r2 with
              | String a r3 =>
                  if is_byte 225 a && is_byte 154 b && is_byte 128 c then Some r3
                  else if is_byte 226 a && is_byte 128 b &&
                          (byte_in 128 138 c || byte_in 168 169 c || is_byte 175 c)
                  then Some r3
                  else if is_byte 226 a && is_byte 129 b && is_byte 159 c then Some r3
                  else if is_byte 227 a && is_byte 128 b && is_byte 128 c then Some r3
                  else if is_byte 239 a && is_byte 187 b && is_byte 191 c then Some r3
                  else None
              | EmptyString => None
              end
        | EmptyString => None
        end
  | EmptyString => None
  end.

Fixpoint trimEnd_loop (fuel : nat) (s : string) : string :=
  match fuel with
  | O => s
  | S f =>
      match white_last s with
      | Some r => trimEnd_loop f r
      | None => s
      end
  end.

(** [s.trimEnd()] *)
Definition trimEnd (s : string) : string :=
  reverse (trimEnd_loop (String.length s) (reverse s)).

(** [s.trim()] *)
Definition trim (s : string) : string := trimEnd (trimStart s).

Definition digit_value (c : ascii) : option Z :=
  if byte_in 48 57 c then Some (Z.of_nat (nat_of_ascii c) - 48)%Z else None.

(** The digits at the head of [s], read in base 10 after the value [acc];
    [None] when there is none. *)
Fixpoint leading_digits (s : string) (acc : option Z) : option Z :=
  match s with
  | String c r =>
      match digit_value c with
      | Some d =>
          leading_digits r
            (Some (10 * match acc with Some v => v | None => 0 end + d)%Z)
      | None => acc
      end
  | EmptyString => acc
  end.

(** [parseInt(s, 10)]: leading white space, an optional sign, then the
    digits up to the first character that is not one; [None] is [NaN].
    The value is the integer the digits spell (a JavaScript number holds
    it exactly up to 2^53). *)
Definition parseInt (s : string) : option Z :=
  match trimStart s with
  | String c r =>
      if is_byte 45 c then option_map Z.opp (leading_digits r None)
      else if is_byte 43 c then leading_digits r None
      else leading_digits (String c r) None
  | EmptyString => None
  end.

End Js.

Definition Env : Type := string -> option string.

(** [process.env.NAME || fallback] *)
Definition env_or (env : Env) (name fallback : string) : string :=
  match env name with
  | Some v => if Encryption.truthy v then v else fallback
  | None => fallback
  end.

Record DiscordConfig : Type := {
  discord_token : option string;
  discord_clientId : option string
}.

Record TelegramConfig : Type := {
  telegram_token : option string
}.

Record TwitterConfig : Type := {
  twitter_apiKey : option string;
  twitter_apiSecret : option string;
  twitter_accessToken : option string;
  twitter_accessSecret : option string
}.

(** The object [this.agentConfig]: the own properties it can have. *)
Record AgentConfigs : Type := {
  discord_bot : option DiscordConfig;
  telegram_bot : option TelegramConfig;
  twitter_bot : option TwitterConfig
}.

Record PinataMetadataTemplate : Type := {
  template_name : string;
  template_service : string;
  template_type : string
}.

(** The fields of the configuration singleton. *)
Record Settings : Type := {
  rpcUrl : option string;
  privateKey : option string;
  marketplaceAddress : option string;
  marketplaceDataAddress : option string;
  s_ipfsApiUrl : string;
  s_ipfsApiKey : option string;
  s_ipfsApiSecret : option string;
  s_ipfsGatewayUrl : string;
  pinataMetadataTemplate : PinataMetadataTemplate;
  s_ipfsGateways : list string;
  agentName : string;
  agentBio : string;
  agentAvatar : string;
  enabledAgents : list string;
  jobPollInterval : option Z;
  activeJobsPollInterval : option Z;
  s_relevantTags : list string;
  agentConfig : AgentConfigs;
  logLevel : string
}.

Definition nonempty (s : string) : bool := Encryption.truthy s.

(** [(text).split(',').map(x => x.trim()).filter(Boolean)] *)
Definition comma_list (text : string) : list string :=
  filter nonempty (map Js.trim (Js.split_commas text)).

(** [list.includes(name)] *)
Definition includes_name (names : list string) (name : string) : bool :=
  existsb (String.eqb name) names.

(** [loadConfig()] *)
Definition loadConfig (env : Env) (now : Z) : Settings :=
  let gatewayUrl := env_or env "IPFS_GATEWAY_URL" "https://gateway.pinata.cloud/ipfs/" in
  let enabled := comma_list (env_or env "ENABLED_AGENTS" "") in
  {| rpcUrl := env "RPC_URL";
     privateKey := env "PRIVATE_KEY";
     marketplaceAddress := env "MARKETPLACE_ADDRESS";
     marketplaceDataAddress := env "MARKETPLACE_DATA_ADDRESS";
     s_ipfsApiUrl := env_or env "IPFS_API_URL" "https://api.pinata.cloud";
     s_ipfsApiKey := env "IPFS_API_KEY";
     s_ipfsApiSecret := env "IPFS_API_SECRET";
     s_ipfsGatewayUrl := gatewayUrl;
     pinataMetadataTemplate :=
       {| template_name := ("eacc-agent-" ++ JsString.of_Z now)%string;
          template_service := "eacc-agent";
          template_type := "job-communication" |};
     s_ipfsGateways := loadConfig_ipfsGateways gatewayUrl;
     agentName := env_or env "AGENT_NAME" "EACC Agent";
     agentBio := env_or env "AGENT_BIO" "AI agent for the EACC marketplace";
     agentAvatar := env_or env "AGENT_AVATAR" "";
     enabledAgents := enabled;
     jobPollInterval := Js.parseInt (env_or env "JOB_POLL_INTERVAL" "60000");
     activeJobsPollInterval := Js.parseInt (env_or env "ACTIVE_JOBS_POLL_INTERVAL" "120000");
     s_relevantTags := comma_list (env_or env "RELEVANT_TAGS" "bot,automation");
     agentConfig :=
       {| discord_bot :=
            if includes_name enabled "discord-bot"
            then Some {| discord_token := env "DISCORD_TOKEN";
                         discord_clientId := env "DISCORD_CLIENT_ID" |}
            else None;
          telegram_bot :=
            if includes_name enabled "telegram-bot"
            then Some {| telegram_token := env "TELEGRAM_BOT_TOKEN" |}
            else None;
          twitter_bot :=
            if includes_name enabled "twitter-bot"
            then Some {| twitter_apiKey := env "TWITTER_API_KEY";
                         twitter_apiSecret := env "TWITTER_API_SECRET";
                         twitter_accessToken := env "TWITTER_ACCESS_TOKEN";
                         twitter_accessSecret := env "TWITTER_ACCESS_SECRET" |}
            else None |};
     logLevel := env_or env "LOG_LEVEL" "info" |}.

(** The names every plain object answers to through [Object.prototype]:
    [this.agentConfig[name]] is not [undefined] for them. *)
Definition object_prototype_names : list string :=
  ["constructor"; "__defineGetter__"; "__defineSetter__"; "hasOwnProperty";
   "__lookupGetter__"; "__lookupSetter__"; "isPrototypeOf"; "propertyIsEnumerable";
   "toString"; "valueOf"; "__proto__"; "toLocaleString"].

(** Whether [this.agentConfig[agent]] is truthy. *)
Definition has_agentConfig (configs : AgentConfigs) (agent : string) : bool :=
  if String.eqb agent "discord-bot"
  then match discord_bot configs with Some _ => true | None => false end
  else if String.eqb agent "telegram-bot"
  then match telegram_bot configs with Some _ => true | None => false end
  else if String.eqb agent "twitter-bot"
  then match twitter_bot configs with Some _ => true | None => false end
  else includes_name object_prototype_names agent.

(** [!value] for a value that is a string or [undefined]. *)
Definition missing (value : option string) : bool :=
  negb (Encryption.truthy_opt value).

Definition missing_names (fields : list (string * option string)) : list string :=
  map fst (filter (fun field => missing (snd field)) fields).

(** The callback of [this.enabledAgents.forEach] in [validateConfig]. *)
Definition validate_agent (configs : AgentConfigs) (agent : string) : Result unit :=
  if negb (has_agentConfig configs agent)
  then inl (Error ("Missing configuration for enabled agent: " ++ agent)%string)
  else
    let discord_check : Result unit :=
      if String.eqb agent "discord-bot"
      then
        if missing (match discord_bot configs with
                    | Some c => discord_token c
                    | None => None
                    end)
        then inl (Error "Missing DISCORD_TOKEN for discord-bot agent")
        else inr tt
      else inr tt in
    match discord_check with
    | inl e => inl e
    | inr _ =>
        let telegram_check : Result unit :=
          if String.eqb agent "telegram-bot"
          then
            if missing (match telegram_bot configs with
                        | Some c => telegram_token c
                        | None => None
                        end)
            then inl (Error "Missing TELEGRAM_BOT_TOKEN for telegram-bot agent")
            else inr tt
          else inr tt in
        match telegram_check with
        | inl e => inl e
        | inr _ =>
            if String.eqb agent "twitter-bot"
            then
              let c := twitter_bot configs in
              let absent :=
                missing_names
                  [("apiKey", match c with Some c => twitter_apiKey c | None => None end);
                   ("apiSecret", match c with Some c => twitter_apiSecret c | None => None end);
                   ("accessToken",
                    match c with Some c => twitter_accessToken c | None => None end);
                   ("accessSecret",
                    match c with Some c => twitter_accessSecret c | None => None end)] in
              if negb (List.length absent =? 0)%nat
              then inl (Error ("Missing Twitter configuration for twitter-bot agent: " ++
                               Js.join ", " absent)%string)
              else inr tt
            else inr tt
        end
    end.

Fixpoint validate_agents (configs : AgentConfigs) (agents : list string) : Result unit :=
  match agents with
  | [] => inr tt
  | agent :: rest =>
      match validate_agent configs agent with
      | inl e => inl e
      | inr _ => validate_agents configs rest
      end
  end.

(** [validateConfig()] *)
Definition validateConfig (this : Settings) : Result unit :=
  let missingBlockchainConfig :=
    missing_names
      [("rpcUrl", rpcUrl this); ("privateKey", privateKey this);
       ("marketplaceAddress", marketplaceAddress this);
       ("marketplaceDataAddress", marketplaceDataAddress this)] in
  if negb (List.length missingBlockchainConfig =? 0)%nat
  then inl (Error ("Missing required blockchain configuration: " ++
                   Js.join ", " missingBlockchainConfig)%string)
  else if (List.length (enabledAgents this) =? 0)%nat
  then inl (Error "No agents enabled. Set ENABLED_AGENTS in .env file.")
  else validate_agents (agentConfig this) (enabledAgents this).

(** [new Config()] *)
Definition new_Config (env : Env) (now : Z) : Result Settings :=
  let this := loadConfig env now in
  match validateConfig this with
  | inl e => inl e
  | inr _ => inr this
  end.

(** The process environment given as a list of bindings. *)
Fixpoint env_of (bindings : list (string * string)) : Env :=
  fun name =>
    match bindings with
    | [] => None
    | (n, v) :: rest => if String.eqb n name then Some v else env_of rest name
    end.

(** A variable of the environment is set to a string that is not empty. *)
Definition is_set (env : Env) (name : string) : Prop :=
  Encryption.truthy_opt (env name) = true.

(** What [validateConfig] asks of an enabled agent. *)
Definition agent_ready (env : Env) (agent : string) : Prop :=
  (agent = "discord-bot" /\ is_set env "DISCORD_TOKEN") \/
  (agent = "telegram-bot" /\ is_set env "TELEGRAM_BOT_TOKEN") \/
  (agent = "twitter-bot" /\
   is_set env "TWITTER_API_KEY" /\ is_set env "TWITTER_API_SECRET" /\
   is_set env "TWITTER_ACCESS_TOKEN" /\ is_set env "TWITTER_ACCESS_SECRET") \/
  In agent object_prototype_names.

(** An entry of a list read from the environment as it should be: not
    empty, without a comma, without white space at either end. *)
Definition clean_entry (entry : string) : Prop :=
  entry <> "" /\ ~ occurs "," entry /\ Js.trim entry = entry.

(** An environment that enables the Discord agent, and one that enables an
    agent of one's own. *)
Definition discord_env : Env :=
  env_of [("RPC_URL", "http://localhost:8545"); ("PRIVATE_KEY", "0x01");
          ("MARKETPLACE_ADDRESS", "0x02"); ("MARKETPLACE_DATA_ADDRESS", "0x03");
          ("ENABLED_AGENTS", " discord-bot , toString"); ("DISCORD_TOKEN", "token");
          ("JOB_POLL_INTERVAL", "soon")].

Definition custom_env : Env :=
  env_of [("RPC_URL", "http://localhost:8545"); ("PRIVATE_KEY", "0x01");
          ("MARKETPLACE_ADDRESS", "0x02"); ("MARKETPLACE_DATA_ADDRESS", "0x03");
          ("ENABLED_AGENTS", "my-agent")].

(** Every character of the text is a decimal digit. *)
Fixpoint all_digits (s : string) : Prop :=
  match s with
  | EmptyString => True
  | String c r => Js.digit_value c <> None /\ all_digits r
  end.

Definition value_or_zero (v : option Z) : Z :=
  match v with Some z => z | None => 0%Z end.

(** * Properties *)

Local Open Scope nat_scope.
Unset Implicit Arguments.

(** ** Strings and buffers *)

Lemma substring_all (s : string) : String.substring 0 (String.length s) s = s.
Proof. induction s as [|c s IH]; simpl; [reflexivity | now rewrite IH]. Qed.

Lemma slice_from_0x (s : string) :
  JsString.slice_from 2 (String "0" (String "x" s)) = s.
Proof.
  unfold JsString.slice_from. simpl. rewrite Nat.sub_0_r. apply substring_all.
Qed.

Lemma hex_pair (b : byte) (r : string) :
  Buffer.from_hex
    (String (Buffer.hex_digit (Byte.to_N b / 16))
       (String (Buffer.hex_digit (Byte.to_N b mod 16)) r))
  = b :: Buffer.from_hex r.
Proof. destruct b; reflexivity. Qed.

Lemma from_hex_to_hex (bs : list byte) : Buffer.from_hex (Buffer.to_hex bs) = bs.
Proof.
  induction bs as [|b r IH]; [reflexivity|].
  cbn [Buffer.to_hex]. rewrite hex_pair, IH. reflexivity.
Qed.

Lemma to_hex_length (bs : list byte) :
  String.length (Buffer.to_hex bs) = 2 * List.length bs.
Proof. induction bs as [|b r IH]; simpl; [reflexivity | rewrite IH; lia]. Qed.

Lemma hex_not_prefixed (b : byte) (r : list byte) (p : string) :
  p = "Qm" \/ p = "0x" ->
  JsString.startsWith (Buffer.to_hex (b :: r)) p = false.
Proof.
  intros [-> | ->]; destruct b; reflexivity.
Qed.

Lemma to_N_fold (b : list byte) (v : N) :
  fold_left (fun acc x => (acc * 256 + Byte.to_N x)%N) b v
  = (v * 256 ^ N.of_nat (List.length b) + Buffer.to_N b)%N.
Proof.
  unfold Buffer.to_N. revert v. induction b as [|x b IH]; intro v.
  - simpl. lia.
  - cbn [fold_left]. rewrite IH, (IH (0 * 256 + Byte.to_N x)%N).
    replace (N.of_nat (List.length (x :: b))) with (N.succ (N.of_nat (List.length b)))
      by (simpl List.length; lia).
    rewrite N.pow_succ_r'. lia.
Qed.

Lemma to_N_app (a b : list byte) :
  Buffer.to_N (a ++ b)
  = (Buffer.to_N a * 256 ^ N.of_nat (List.length b) + Buffer.to_N b)%N.
Proof.
  unfold Buffer.to_N at 1. rewrite fold_left_app, to_N_fold. reflexivity.
Qed.

Lemma to_N_bound (bs : list byte) :
  (Buffer.to_N bs < 256 ^ N.of_nat (List.length bs))%N.
Proof.
  induction bs as [|b r IH] using rev_ind.
  - vm_compute. reflexivity.
  - rewrite to_N_app, length_app. cbn [List.length].
    replace (N.of_nat (List.length r + 1)) with (N.succ (N.of_nat (List.length r))) by lia.
    rewrite N.pow_succ_r'.
    assert (Hb : (Buffer.to_N [b] < 256)%N).
    { pose proof (Byte.to_N_bounded b). unfold Buffer.to_N. cbn [fold_left]. lia. }
    change (256 ^ N.of_nat 1)%N with 256%N.
    set (P := (256 ^ N.of_nat (List.length r))%N) in *.
    set (x := Buffer.to_N r) in *. set (y := Buffer.to_N [b]) in *.
    clearbody P x y. lia.
Qed.

(** ** Base 58 *)

Lemma digits_zero (fuel : nat) : bs58.digits fuel 0 = [].
Proof. destruct fuel; reflexivity. Qed.

(** The low [k] digits of a number that has more than [k] digits come
    first; what follows are the digits of the quotient. *)
Lemma digits_split (k fuel : nat) (n : N) :
  (58 ^ N.of_nat k <= n)%N ->
  exists low, List.length low = k /\
    bs58.digits (k + fuel) n = low ++ bs58.digits fuel (n / 58 ^ N.of_nat k)%N.
Proof.
  revert n. induction k as [|k IH]; intros n Hn.
  - exists []. split; [reflexivity|]. simpl. now rewrite N.div_1_r.
  - replace (N.of_nat (S k)) with (N.succ (N.of_nat k)) in * by lia.
    rewrite N.pow_succ_r' in *.
    assert (Hpos : (0 < 58 ^ N.of_nat k)%N) by (apply N.neq_0_lt_0, N.pow_nonzero; lia).
    assert (Hn0 : (n =? 0)%N = false) by (apply N.eqb_neq; lia).
    destruct (IH (n / 58)%N) as [low [Hlen Hlow]].
    { apply N.div_le_lower_bound; lia. }
    exists ((n mod 58)%N :: low). split; [simpl; now rewrite Hlen|].
    cbn [Nat.add bs58.digits]. rewrite Hn0, Hlow, N.Div0.div_div. reflexivity.
Qed.

(** A sha2-256 multihash is the two bytes 0x12 0x20 followed by the
    digest. *)
Lemma multihash_sha256 (d : list byte) :
  List.length d = 32 ->
  multihash.encode d multihash.sha2_256 = x12 :: x20 :: d.
Proof. intro H. unfold multihash.encode. rewrite H. reflexivity. Qed.


Lemma multihash_to_N (d : list byte) :
  List.length d = 32 ->
  Buffer.to_N (x12 :: x20 :: d) = (4640 * 256 ^ 32 + Buffer.to_N d)%N.
Proof.
  intro Hlen. change (x12 :: x20 :: d) with ([x12; x20] ++ d). rewrite to_N_app, Hlen.
  reflexivity.
Qed.

Lemma multihash_quotient (n x : N) :
  (x < 256 ^ 32)%N -> n = (4640 * 256 ^ 32 + x)%N ->
  (58 ^ N.of_nat 44 <= n)%N /\ (n / 58 ^ N.of_nat 44 = 1378)%N.
Proof.
  intros Hb Hn.
  assert (E58 : (58 ^ N.of_nat 44 = 389790918707373377135528568990913592653094657612049369038476873218241589149696)%N)
    by (vm_compute; reflexivity).
  assert (E256 : (256 ^ 32 = 115792089237316195423570985008687907853269984665640564039457584007913129639936)%N)
    by (vm_compute; reflexivity).
  rewrite E58. rewrite E256 in *. split.
  - lia.
  - symmetry. apply N.div_unique with (r := (n - 1378 * 389790918707373377135528568990913592653094657612049369038476873218241589149696)%N); lia.
Qed.

(** Every 34-byte buffer that starts with 0x12 0x20 is spelled ["Qm..."]. *)
Lemma bs58_multihash_prefix (d : list byte) :
  List.length d = 32 ->
  exists rest, bs58.encode (x12 :: x20 :: d) = String "Q" (String "m" rest).
Proof.
  intro Hlen.
  pose proof (to_N_bound d) as Hb. rewrite Hlen in Hb.
  destruct (multihash_quotient _ _ Hb (multihash_to_N d Hlen)) as [H44 Hq].
  destruct (digits_split 44 24 _ H44) as [low [Hl Hd]].
  rewrite Hq in Hd.
  unfold bs58.encode.
  replace (2 * List.length (x12 :: x20 :: d)) with (44 + 24)
    by (cbn [List.length]; rewrite Hlen; reflexivity).
  rewrite Hd. exists (bs58.string_of_chars (map bs58.charAt (rev low))).
  cbn [bs58.zeroes repeat app]. rewrite rev_app_distr. reflexivity.
Qed.

(** ** The content address resolver *)

Lemma startsWith_Qm (s : string) :
  JsString.startsWith s "Qm" = true -> exists r, s = String "Q" (String "m" r).
Proof.
  unfold JsString.startsWith. destruct s as [|a [|b r]]; cbn [String.prefix].
  - discriminate.
  - destruct (ascii_dec "Q" a); discriminate.
  - destruct (ascii_dec "Q" a) as [<-|]; [|discriminate].
    destruct (ascii_dec "m" b) as [<-|]; [|discriminate].
    intros _. now exists r.
Qed.

Lemma hashToCid_Qm (r : string) :
  Encryption.hashToCid (String "Q" (String "m" r)) = inr (String "Q" (String "m" r)).
Proof. destruct r; reflexivity. Qed.

Lemma hashToCid_digest (d : list byte) :
  List.length d = 32 ->
  Encryption.hashToCid (Buffer.to_hex d) = inr (bs58.encode (x12 :: x20 :: d)) /\
  Encryption.hashToCid (String "0" (String "x" (Buffer.to_hex d)))
  = inr (bs58.encode (x12 :: x20 :: d)).
Proof.
  intro Hlen. destruct d as [|b d]; [discriminate|].
  assert (H0x : JsString.startsWith (Buffer.to_hex (b :: d)) "0x" = false)
    by (apply hex_not_prefixed; now right).
  assert (HQm : JsString.startsWith (Buffer.to_hex (b :: d)) "Qm" = false)
    by (apply hex_not_prefixed; now left).
  split; unfold Encryption.hashToCid.
  - rewrite H0x, HQm, from_hex_to_hex, multihash_sha256 by assumption. reflexivity.
  - change (JsString.startsWith (String "0" (String "x" (Buffer.to_hex (b :: d)))) "0x")
      with true.
    cbv iota. rewrite slice_from_0x, HQm, from_hex_to_hex, multihash_sha256 by assumption.
    reflexivity.
Qed.

(** C9. [hashToCid] returns unchanged every input that starts with ["Qm"];
    and the locator it computes for a 32-byte digest, given in hex with or
    without the ["0x"] prefix, starts with ["Qm"], so that applying
    [hashToCid] to it again gives the same locator. *)
Theorem hashToCid_idempotent :
  (forall cid : string,
      JsString.startsWith cid "Qm" = true -> Encryption.hashToCid cid = inr cid) /\
  (forall (d : list byte) (h : string),
      List.length d = 32 ->
      h = Buffer.to_hex d \/ h = String "0" (String "x" (Buffer.to_hex d)) ->
      exists cid : string,
        Encryption.hashToCid h = inr cid /\
        JsString.startsWith cid "Qm" = true /\
        Encryption.hashToCid cid = inr cid).
Proof.
  split.
  - intros cid H. destruct (startsWith_Qm cid H) as [r ->]. apply hashToCid_Qm.
  - intros d h Hlen Hh.
    destruct (bs58_multihash_prefix d Hlen) as [rest Hrest].
    destruct (hashToCid_digest d Hlen) as [H1 H2].
    exists (String "Q" (String "m" rest)). rewrite <- Hrest at 1.
    split; [destruct Hh as [-> | ->]; assumption|].
    split; [destruct rest; reflexivity | apply hashToCid_Qm].
Qed.

Lemma hashToCid_idempotent_witness :
  Encryption.hashToCid Double.sample_cid = inr Double.sample_cid /\
  exists cid : string,
    Encryption.hashToCid zero_hash = inr cid /\
    JsString.startsWith cid "Qm" = true /\
    Encryption.hashToCid cid = inr cid.
Proof.
  split.
  - apply (proj1 hashToCid_idempotent). reflexivity.
  - apply (proj2 hashToCid_idempotent (repeat x00 32)); [reflexivity|].
    right. reflexivity.
Defined.

(** ** Running programs *)

Lemma run_bind {A B} (w : World) (p : Prog A) (f : A -> Prog B) (st : St) :
  run w (bind p f) st
  = match run w p st with
    | (inr a, st') => run w (f a) st'
    | (inl e, st') => (inl e, st')
    end.
Proof.
  revert st. induction p as [a|e|R c k IH|R s k IH|k IH|l k IH]; intro st; cbn [bind run].
  - reflexivity.
  - reflexivity.
  - apply IH.
  - apply IH.
  - apply IH.
  - apply IH.
Qed.

Lemma run_try_catch {A} (w : World) (p : Prog A) (h : Exn -> Prog A) (st : St) :
  run w (try_catch p h) st
  = match run w p st with
    | (inr a, st') => (inr a, st')
    | (inl e, st') => run w (h e) st'
    end.
Proof.
  revert st. induction p as [a|e|R c k IH|R s k IH|k IH|l k IH]; intro st;
    cbn [try_catch run]; auto.
Qed.

Lemma run_attempt {A} (w : World) (p : Prog A) (st : St) :
  run w (attempt p) st = (inr (fst (run w p st)), snd (run w p st)).
Proof.
  unfold attempt. rewrite run_try_catch, run_bind.
  destruct (run w p st) as [[e|a] st']; reflexivity.
Qed.

Lemma run_call {R} (w : World) (c : Call R) (st : St) :
  run w (call c) st
  = (answer w (trace st) c, {| local := local st; trace := trace st ++ [ECall c] |}).
Proof. unfold call. cbn [run]. destruct (answer w (trace st) c); reflexivity. Qed.

Lemma run_lift {A} (w : World) (r : Result A) (st : St) : run w (lift r) st = (r, st).
Proof. destruct r; reflexivity. Qed.

(** [randomBytes(n)] gives [n] bytes, reads nothing but the random source
    and leaves the memory alone. *)
Lemma run_randomBytes (w : World) (n : nat) (st : St) :
  exists bs evs,
    run w (randomBytes n) st
    = (inr bs, {| local := local st; trace := trace st ++ evs |}) /\
    List.length bs = n /\
    Forall (fun e => e = ESys RandomByte) evs.
Proof.
  revert st. induction n as [|n IH]; intro st.
  - exists [], []. cbn. rewrite app_nil_r. destruct st; auto.
  - cbn [randomBytes]. unfold sys_call. cbn [bind run].
    destruct (IH {| local := local st; trace := trace st ++ [ESys RandomByte] |})
      as [bs [evs [Hrun [Hlen Hevs]]]].
    rewrite run_bind, Hrun. cbn [run local trace].
    exists (sys w (trace st) RandomByte :: bs), (ESys RandomByte :: evs).
    rewrite <- app_assoc. repeat split; cbn; auto.
Qed.

(** ** The authenticated envelope *)

Lemma slice_prefix (b : nat) (s : string) :
  String.length s <= b -> JsString.slice 0 b s = s.
Proof.
  intro H. unfold JsString.slice. rewrite Nat.min_r, Nat.sub_0_r by assumption.
  apply substring_all.
Qed.

Lemma key_of_hex (K : list byte) :
  List.length K = 32 ->
  Buffer.from_hex (JsString.slice 0 64 (Buffer.to_hex K)) = K.
Proof.
  intro H. rewrite slice_prefix, from_hex_to_hex; [reflexivity|].
  rewrite to_hex_length. lia.
Qed.

Lemma firstn_exact {X} (n : nat) (l1 l2 : list X) :
  List.length l1 = n -> firstn n (l1 ++ l2) = l1.
Proof.
  intros <-. rewrite firstn_app, Nat.sub_diag, firstn_all. cbn [firstn]. apply app_nil_r.
Qed.

Lemma skipn_exact {X} (n : nat) (l1 l2 : list X) :
  List.length l1 = n -> skipn n (l1 ++ l2) = l2.
Proof.
  intros <-. rewrite skipn_app, Nat.sub_diag, skipn_all. reflexivity.
Qed.

(** The three fields of an envelope, as [decryptToUtf8] cuts them out. *)
Lemma envelope_fields (iv tag ct : list byte) :
  List.length iv = 16 -> List.length tag = 16 ->
  Buffer.slice 0 16 (iv ++ tag ++ ct) = iv /\
  Buffer.slice 16 32 (iv ++ tag ++ ct) = tag /\
  Buffer.slice_from 32 (iv ++ tag ++ ct) = ct.
Proof.
  intros Hiv Htag. unfold Buffer.slice, Buffer.slice_from.
  repeat split.
  - change (16 - 0) with 16. cbn [skipn]. now apply firstn_exact.
  - rewrite (skipn_exact _ _ _ Hiv). change (32 - 16) with 16. now apply firstn_exact.
  - rewrite app_assoc. apply skipn_exact. rewrite length_app. lia.
Qed.


Lemma bytes_eqb_neq `{Platform} (a b : list byte) : a <> b -> crypto.bytes_eqb a b = false.
Proof. unfold crypto.bytes_eqb. destruct (list_eq_dec Byte.byte_eq_dec a b); congruence. Qed.

Lemma flip_bit_length (i : nat) (bs : list byte) :
  List.length (Buffer.flip_bit i bs) = List.length bs.
Proof.
  revert i. induction bs as [|b r IH]; intro i; cbn [Buffer.flip_bit]; [reflexivity|].
  destruct (i <? 8); cbn [List.length]; [reflexivity | now rewrite IH].
Qed.

Lemma flip_changes_byte (j : nat) (b : byte) :
  j < 8 -> Buffer.xor_byte b (Buffer.bit j) <> b.
Proof.
  intro H.
  do 8 (destruct j as [|j]; [destruct b; discriminate|]). lia.
Qed.

Lemma flip_bit_changes (i : nat) (bs : list byte) :
  i < 8 * List.length bs -> Buffer.flip_bit i bs <> bs.
Proof.
  revert i. induction bs as [|b r IH]; intros i H; cbn [List.length] in H; [lia|].
  cbn [Buffer.flip_bit]. destruct (i <? 8) eqn:E.
  - apply Nat.ltb_lt in E. intro C. injection C as C. now apply (flip_changes_byte _ _ E) in C.
  - apply Nat.ltb_ge in E. intro C. injection C as C. apply (IH (i - 8)); [lia | assumption].
Qed.

Lemma flip_bit_app (i : nat) (a b : list byte) :
  Buffer.flip_bit i (a ++ b)
  = if i <? 8 * List.length a then Buffer.flip_bit i a ++ b
    else a ++ Buffer.flip_bit (i - 8 * List.length a) b.
Proof.
  revert i. induction a as [|x a IH]; intro i.
  - cbn. now rewrite Nat.sub_0_r.
  - cbn [app Buffer.flip_bit List.length]. destruct (i <? 8) eqn:E.
    + apply Nat.ltb_lt in E.
      replace (i <? 8 * S (List.length a)) with true by (symmetry; apply Nat.ltb_lt; lia).
      reflexivity.
    + apply Nat.ltb_ge in E. rewrite IH.
      replace (i - 8 <? 8 * List.length a) with (i <? 8 * S (List.length a)).
      * replace (i - 8 - 8 * List.length a) with (i - 8 * S (List.length a)) by lia.
        destruct (i <? 8 * S (List.length a)); reflexivity.
      * destruct (i <? 8 * S (List.length a)) eqn:E1; symmetry.
        -- apply Nat.ltb_lt in E1. apply Nat.ltb_lt. lia.
        -- apply Nat.ltb_ge in E1. apply Nat.ltb_ge. lia.
Qed.

Section Envelope.
Context {platform : Platform}.

(** What Node's AES-256-GCM guarantees: the keystream undoes itself and
    the tag is 16 bytes. *)
Hypothesis ctr_involutive :
  forall key iv data, gcm_ctr key iv (gcm_ctr key iv data) = data.
Hypothesis tag_length :
  forall key iv ct, List.length (gcm_tag key iv ct) = 16.

(** The envelope [encryptUtf8Data] builds: nonce, tag, ciphertext. *)
Lemma encryptUtf8Data_layout (w : World) (st : St) (P : string) (K : list byte) :
  List.length K = 32 ->
  exists iv st',
    let ct := gcm_ctr K iv (list_byte_of_string P) in
    let tag := gcm_tag K iv ct in
    run w (Encryption.encryptUtf8Data P (Buffer.to_hex K)) st
    = (inr (iv ++ tag ++ ct), st') /\
    List.length iv = 16 /\ local st' = local st.
Proof.
  intro HK. unfold Encryption.encryptUtf8Data.
  destruct (run_randomBytes w 16 st) as [iv [evs [Hrun [Hlen _]]]].
  exists iv. eexists. cbn zeta. rewrite run_bind, Hrun, run_lift.
  unfold Encryption.encryptUtf8Data_with. rewrite key_of_hex by assumption.
  unfold crypto.createCipheriv. rewrite HK, Hlen. cbn.
  rewrite app_nil_r. auto.
Qed.

Lemma decryptToUtf8_envelope (K iv tag ct : list byte) :
  List.length K = 32 -> List.length iv = 16 -> List.length tag = 16 ->
  Encryption.decryptToUtf8 (iv ++ tag ++ ct) (Buffer.to_hex K)
  = if crypto.bytes_eqb tag (gcm_tag K iv ct)
    then inr (string_of_list_byte (gcm_ctr K iv ct))
    else inl crypto.authentication_error.
Proof.
  intros HK Hiv Htag. unfold Encryption.decryptToUtf8.
  destruct (envelope_fields iv tag ct Hiv Htag) as [-> [-> ->]].
  rewrite key_of_hex by assumption.
  unfold crypto.createDecipheriv, crypto.createCipheriv. rewrite HK, Hiv.
  cbn [Nat.eqb negb]. unfold crypto.setAuthTag. cbn [List.length crypto.c_key crypto.c_iv crypto.c_data].
  rewrite Htag. cbn [crypto.valid_tag_length Nat.eqb Nat.leb orb andb].
  unfold crypto.decipher_update, crypto.decipher_final.
  cbn [crypto.c_key crypto.c_iv crypto.c_data crypto.c_tag app].
  rewrite Htag, <- (tag_length K iv ct), firstn_all.
  destruct (crypto.bytes_eqb tag (gcm_tag K iv ct)); [|reflexivity].
  now rewrite app_nil_r.
Qed.


(** C4. In the envelope sealed from a plaintext under a 32-byte key, flip
    one bit of the tag or of the ciphertext (bit [i] of the envelope, past
    the 128 bits of the nonce).  Provided the GCM tag of the mutated
    ciphertext is not the tag of the original one, opening the mutated
    envelope raises the authentication error of [decipher.final()] and
    returns no plaintext; and [decryptToUtf8] raises that error only when
    the tag check fails. *)
Theorem open_rejects_bit_flip (w : World) (st st' : St) (P : string)
    (K envelope : list byte) (i : nat) :
  List.length K = 32 ->
  run w (Encryption.encryptUtf8Data P (Buffer.to_hex K)) st = (inr envelope, st') ->
  128 <= i < 8 * List.length envelope ->
  (256 <= i ->
   gcm_tag K (Buffer.slice 0 16 envelope)
     (Buffer.flip_bit (i - 256) (Buffer.slice_from 32 envelope))
   <> gcm_tag K (Buffer.slice 0 16 envelope) (Buffer.slice_from 32 envelope)) ->
  Encryption.decryptToUtf8 (Buffer.flip_bit i envelope) (Buffer.to_hex K)
  = inl crypto.authentication_error /\
  (forall (data : list byte) (key : string),
      Encryption.decryptToUtf8 data key = inl crypto.authentication_error ->
      let keyBuffer := Buffer.from_hex (JsString.slice 0 64 key) in
      Buffer.slice 16 32 data
      <> firstn (List.length (Buffer.slice 16 32 data))
           (gcm_tag keyBuffer (Buffer.slice 0 16 data) (Buffer.slice_from 32 data))).
Proof.
  intros HK Hrun Hi Hsep. split.
  - destruct (encryptUtf8Data_layout w st P K HK) as [iv [st1 [Hrun1 [Hiv _]]]].
    cbn zeta in Hrun1. rewrite Hrun in Hrun1. injection Hrun1 as -> _.
    set (ct := gcm_ctr K iv (list_byte_of_string P)) in *.
    set (tag := gcm_tag K iv ct) in *.
    assert (Htag : List.length tag = 16) by apply tag_length.
    destruct (envelope_fields iv tag ct Hiv Htag) as [E1 [_ E3]].
    rewrite E1, E3 in Hsep.
    rewrite flip_bit_app, Hiv.
    replace (i <? 8 * 16) with false by (symmetry; apply Nat.ltb_ge; lia).
    rewrite flip_bit_app, Htag.
    rewrite !length_app, Hiv, Htag in Hi.
    destruct (i - 8 * 16 <? 8 * 16) eqn:E.
    + apply Nat.ltb_lt in E.
      rewrite decryptToUtf8_envelope
        by (assumption || (rewrite flip_bit_length; assumption)).
      rewrite bytes_eqb_neq; [reflexivity|].
      apply flip_bit_changes. fold tag. lia.
    + apply Nat.ltb_ge in E.
      rewrite decryptToUtf8_envelope by assumption.
      replace (i - 8 * 16 - 8 * 16) with (i - 256) by lia.
      rewrite bytes_eqb_neq; [reflexivity|].
      intro C. apply Hsep; [lia|]. now rewrite <- C.
  - intros data key. unfold Encryption.decryptToUtf8.
    destruct (crypto.createDecipheriv _ _) as [e|d] eqn:Ed.
    { unfold crypto.createDecipheriv, crypto.createCipheriv in Ed.
      destruct (negb _); [injection Ed as <-; discriminate|].
      destruct (_ =? 0); [injection Ed as <-; discriminate | discriminate]. }
    unfold crypto.createDecipheriv, crypto.createCipheriv in Ed.
    destruct (negb _); [discriminate|]. destruct (_ =? 0); [discriminate|].
    injection Ed as <-.
    unfold crypto.setAuthTag.
    destruct (crypto.valid_tag_length _); [|discriminate].
    unfold crypto.decipher_update, crypto.decipher_final.
    cbn [crypto.c_key crypto.c_iv crypto.c_data crypto.c_tag app].
    unfold crypto.bytes_eqb.
    destruct (list_eq_dec Byte.byte_eq_dec _ _) as [|Hne]; [discriminate|]. intros _. exact Hne.
Qed.

End Envelope.

(** ** The gateway fetcher *)

Section Gateways.
Context {platform : Platform}.
Variable w : World.
Variables (cid : string) (key : option string).

(** One turn of the loop: one request, whatever its outcome. *)
Lemma run_loop_cons (g : string) (rest : list string) (le : option Exn) (st : St) :
  run w (Encryption.getFromIpfs_loop (g :: rest) cid key le) st
  = match gateway_outcome w cid key st [] g with
    | inr content => (inr content, contacted cid st [g])
    | inl e => run w (Encryption.getFromIpfs_loop rest cid key (Some e)) (contacted cid st [g])
    end.
Proof.
  unfold gateway_outcome, contacted, extend, gateway_attempt, gateway_fetch.
  cbn [Encryption.getFromIpfs_loop map]. rewrite app_nil_r.
  rewrite run_bind, run_attempt, run_bind, run_call.
  destruct (answer w (trace st) (AxiosGet (g ++ cid) 10000)) as [e|content];
    cbn [fst snd]; [reflexivity|].
  destruct (Encryption.truthy_opt key).
  - rewrite run_lift. cbn [fst snd].
    destruct (Encryption.decryptToUtf8 _ _); reflexivity.
  - reflexivity.
Qed.

Lemma contacted_cons (st : St) (g : string) (gs : list string) :
  contacted cid (contacted cid st [g]) gs = contacted cid st (g :: gs).
Proof. unfold contacted, extend. cbn [local trace map]. now rewrite <- app_assoc. Qed.

Lemma outcome_cons (st : St) (g0 : string) (pre : list string) (g : string) :
  gateway_outcome w cid key (contacted cid st [g0]) pre g = gateway_outcome w cid key st (g0 :: pre) g.
Proof. unfold gateway_outcome, contacted, extend. cbn [trace map]. now rewrite <- app_assoc. Qed.

Lemma earlier_failed_cons (st : St) (g0 : string) (e0 : Exn) (pre : list string) :
  gateway_outcome w cid key st [] g0 = inl e0 ->
  earlier_failed w cid key (contacted cid st [g0]) pre -> earlier_failed w cid key st (g0 :: pre).
Proof.
  intros H0 H pre' g' post' E. destruct pre' as [|x pre'].
  - injection E as <- _. now exists e0.
  - injection E as <- E. rewrite <- outcome_cons. now apply (H pre' g' post').
Qed.

Lemma loop_success (gs : list string) (le : option Exn) (st st' : St) (content : string) :
  run w (Encryption.getFromIpfs_loop gs cid key le) st = (inr content, st') ->
  exists pre g post,
    gs = pre ++ g :: post /\ st' = contacted cid st (pre ++ [g]) /\
    gateway_outcome w cid key st pre g = inr content /\ earlier_failed w cid key st pre.
Proof.
  revert le st. induction gs as [|g0 rest IH]; intros le st H.
  - cbn in H. destruct le; discriminate.
  - rewrite run_loop_cons in H. destruct (gateway_outcome w cid key st [] g0) as [e0|c] eqn:E0.
    + destruct (IH _ _ H) as [pre [g [post [-> [-> [Hout Hfail]]]]]].
      exists (g0 :: pre), g, post. rewrite contacted_cons, <- outcome_cons.
      repeat split; auto. now apply earlier_failed_cons with e0.
    + injection H as <- <-. exists [], g0, rest. repeat split; auto.
      intros [|? ?] ? ? E; discriminate.
Qed.

Lemma loop_failure (gs : list string) (le : option Exn) (st st' : St) (e : Exn) :
  run w (Encryption.getFromIpfs_loop gs cid key le) st = (inl e, st') ->
  st' = contacted cid st gs /\ earlier_failed w cid key st gs /\
  (forall pre g, gs = pre ++ [g] ->
                 exists e', gateway_outcome w cid key st pre g = inl e' /\ e = all_gateways_failed e').
Proof.
  revert le st. induction gs as [|g0 rest IH]; intros le st H.
  - split; [|split].
    + cbn in H. unfold contacted, extend. cbn. rewrite app_nil_r.
      destruct st. destruct le; now injection H as _ <-.
    + intros [|? ?] ? ? E; discriminate.
    + intros [|? ?] ? E; discriminate.
  - rewrite run_loop_cons in H. destruct (gateway_outcome w cid key st [] g0) as [e0|c] eqn:E0;
      [|discriminate].
    destruct (IH _ _ H) as [-> [Hfail Hlast]].
    rewrite contacted_cons. split; [reflexivity|]. split.
    + now apply earlier_failed_cons with e0.
    + intros pre g E. destruct pre as [|x pre].
      * injection E as E1 E2. subst g rest. exists e0. split; [assumption|].
        cbn in H. now injection H as <- _.
      * injection E as E1 E2. subst x rest. rewrite <- outcome_cons. now apply Hlast.
Qed.

Lemma loop_exhausted (gs : list string) (le : option Exn) (st : St) :
  earlier_failed w cid key st gs -> exists e, fst (run w (Encryption.getFromIpfs_loop gs cid key le) st) = inl e.
Proof.
  revert le st. induction gs as [|g0 rest IH]; intros le st H.
  - cbn. destruct le; eexists; reflexivity.
  - rewrite run_loop_cons. destruct (H [] g0 rest eq_refl) as [e0 E0]. rewrite E0.
    apply IH. intros pre' g' post' E. rewrite outcome_cons.
    apply (H (g0 :: pre') g' post'). now rewrite E.
Qed.

Lemma getFromIpfs_local (config : Config) (st : St) :
  local (snd (run w (Encryption.getFromIpfs config cid key) st)) = local st.
Proof.
  unfold Encryption.getFromIpfs. fold (Encryption.getFromIpfs_loop (ipfsGateways config) cid key None).
  destruct (run w (Encryption.getFromIpfs_loop (ipfsGateways config) cid key None) st) as [[e|c] st'] eqn:Hrun.
  - now destruct (loop_failure _ _ _ _ _ Hrun) as [-> _].
  - now destruct (loop_success _ _ _ _ _ Hrun) as [pre [g [post [_ [-> _]]]]].
Qed.

(** C5. [getFromIpfs] asks the gateways of [config.ipfsGateways] in list
    order, one request each, and only a prefix of the list.  When it
    returns, the content is the outcome of the first gateway whose attempt
    succeeded: every gateway before it failed and none after it was
    contacted.  It raises if and only if the attempt at every gateway
    fails; all of them were then contacted and the error carries the
    message of the last gateway's error.  The memory is not touched. *)
Theorem getFromIpfs_first_success (config : Config) (st : St) :
  let gs := ipfsGateways config in
  let r := fst (run w (Encryption.getFromIpfs config cid key) st) in
  let st' := snd (run w (Encryption.getFromIpfs config cid key) st) in
  local st' = local st /\
  (exists n, trace st' = trace st ++ map (gateway_fetch cid) (firstn n gs)) /\
  (forall content, r = inr content ->
     exists pre g post,
       gs = pre ++ g :: post /\
       trace st' = trace st ++ map (gateway_fetch cid) (pre ++ [g]) /\
       gateway_attempt w cid key (trace st ++ map (gateway_fetch cid) pre) g
       = inr content /\
       (forall pre' g' post', pre = pre' ++ g' :: post' ->
          exists e,
            gateway_attempt w cid key (trace st ++ map (gateway_fetch cid) pre') g'
            = inl e)) /\
  ((exists e, r = inl e) <->
   (forall pre g post, gs = pre ++ g :: post ->
      exists e,
        gateway_attempt w cid key (trace st ++ map (gateway_fetch cid) pre) g = inl e)) /\
  (forall e, r = inl e ->
     trace st' = trace st ++ map (gateway_fetch cid) gs /\
     (forall pre g, gs = pre ++ [g] ->
        exists e',
          gateway_attempt w cid key (trace st ++ map (gateway_fetch cid) pre) g = inl e' /\
          e = all_gateways_failed e')).
Proof.
  cbv zeta. unfold Encryption.getFromIpfs.
  fold (Encryption.getFromIpfs_loop (ipfsGateways config) cid key None).
  destruct (run w (Encryption.getFromIpfs_loop (ipfsGateways config) cid key None) st) as [[e|c] st'] eqn:Hrun;
    cbn [fst snd].
  - destruct (loop_failure _ _ _ _ _ Hrun) as [-> [Hfail Hlast]].
    split; [reflexivity|]. split.
    { exists (List.length (ipfsGateways config)). now rewrite firstn_all. }
    split; [discriminate|]. split.
    { split; [intros _; exact Hfail | intros _; now exists e]. }
    intros e1 E. injection E as <-. split; [reflexivity | exact Hlast].
  - destruct (loop_success _ _ _ _ _ Hrun) as [pre [g [post [Hgs [-> [Hout Hfail]]]]]].
    split; [reflexivity|]. split.
    { exists (List.length (pre ++ [g])). rewrite Hgs.
      replace (pre ++ g :: post) with ((pre ++ [g]) ++ post)
        by (rewrite <- app_assoc; reflexivity).
      now rewrite firstn_exact. }
    split.
    { intros content E. injection E as <-. exists pre, g, post. auto. }
    split.
    { split; [intros [e E]; discriminate|].
      intro Hall. destruct (Hall pre g post Hgs) as [e E].
      unfold gateway_outcome in Hout. rewrite Hout in E. discriminate. }
    intros e E. discriminate.
Qed.

End Gateways.

(** ** Job content and relevance *)

Lemma hashToCid_total (h : string) : exists cid, Encryption.hashToCid h = inr cid.
Proof.
  unfold Encryption.hashToCid.
  destruct (JsString.startsWith _ "Qm"); eexists; reflexivity.
Qed.

Lemma run_console_error (w : World) (context : string) (e : Exn) (st : St) :
  run w (console_error context e) st
  = (inr tt, {| local := local st; trace := trace st ++ [ESys (ConsoleError context e)] |}).
Proof. unfold console_error, sys_call. cbn [run]. now destruct (sys w _ _). Qed.

Section JobContent.
Context {platform : Platform}.
Variable w : World.
Variable config : Config.

(** What [getJobContent] does for a digest that is present and not zero:
    the content of the fetch, or the empty string when the fetch raises. *)
Lemma getJobContent_fetch (job : Job) (h cid : string) (st : St) :
  contentHash job = Some h ->
  Encryption.truthy h = true -> String.eqb h zero_hash = false ->
  Encryption.hashToCid h = inr cid ->
  exists st',
    run w (Connector.getJobContent config job) st
    = (inr match fst (run w (Encryption.getFromIpfs config cid None) st) with
           | inr content => content
           | inl _ => ""
           end, st') /\
    local st' = local st.
Proof.
  intros Hh Ht Hz Hcid. unfold Connector.getJobContent. rewrite Hh, Ht, Hz.
  cbn [negb orb]. rewrite run_try_catch, run_bind, Hcid, run_lift, run_bind.
  pose proof (getFromIpfs_local w cid None config st) as Hloc.
  destruct (run w (Encryption.getFromIpfs config cid None) st) as [[e|c] st1];
    cbn [fst snd] in *.
  - rewrite run_bind, run_console_error. cbn [run]. eexists. split; [reflexivity|].
    exact Hloc.
  - cbn [run]. eexists. split; [reflexivity | exact Hloc].
Qed.

(** C10. [getJobContent] always returns and never raises.  It returns the
    empty string, without any request, when the digest of the job is
    absent, empty or all-zero, and it returns the empty string when the
    fetch from the gateways raises, that is (C5) when every gateway fails.
    With empty content the relevance test is the test on the title and the
    tags alone, so [processJob] goes on with it. *)
Theorem getJobContent_never_raises (job : Job) (st : St) :
  exists (content : string) (st' : St),
    run w (Connector.getJobContent config job) st = (inr content, st') /\
    local st' = local st /\
    (contentHash job = None \/ contentHash job = Some "" \/
     contentHash job = Some zero_hash -> content = "" /\ st' = st) /\
    (forall h cid e,
        contentHash job = Some h -> Encryption.hashToCid h = inr cid ->
        fst (run w (Encryption.getFromIpfs config cid None) st) = inl e ->
        content = "") /\
    (forall processed,
        Connector.isRelevantJob config processed job ""
        = (state job =? 0)%Z && negb (JsSet.has (id job) processed) &&
          ((Encryption.truthy (title job) && Connector.matches_keyword config (title job))
           || existsb (Connector.matches_keyword config) (tags job))).
Proof.
  assert (Hrel : forall processed,
        Connector.isRelevantJob config processed job ""
        = (state job =? 0)%Z && negb (JsSet.has (id job) processed) &&
          ((Encryption.truthy (title job) && Connector.matches_keyword config (title job))
           || existsb (Connector.matches_keyword config) (tags job))).
  { intro processed. unfold Connector.isRelevantJob.
    destruct (state job =? 0)%Z; [|reflexivity].
    destruct (JsSet.has (id job) processed); [reflexivity|].
    destruct (Encryption.truthy (title job) && _); [reflexivity|].
    destruct (tags job) as [|t ts]; [reflexivity|].
    cbn [List.length Nat.eqb negb andb Encryption.truthy orb].
    destruct (existsb _ (t :: ts)); reflexivity. }
  destruct (contentHash job) as [h|] eqn:Hh.
  - destruct (Encryption.truthy h) eqn:Ht.
    + destruct (String.eqb h zero_hash) eqn:Hz.
      * exists "", st. unfold Connector.getJobContent. rewrite Hh, Ht, Hz.
        repeat split; auto.
      * destruct (hashToCid_total h) as [cid Hcid].
        destruct (getJobContent_fetch job h cid st Hh Ht Hz Hcid) as [st' [Hrun Hloc]].
        eexists. exists st'. split; [exact Hrun|]. split; [exact Hloc|].
        split; [|split; [|exact Hrel]].
        -- intros [C | [C | C]]; [discriminate C| |].
           ++ injection C as ->. discriminate Ht.
           ++ injection C as ->. rewrite String.eqb_refl in Hz. discriminate Hz.
        -- intros h' cid' e E Hcid' He. injection E as <-.
           rewrite Hcid in Hcid'. injection Hcid' as <-. rewrite He. reflexivity.
    + exists "", st. unfold Connector.getJobContent. rewrite Hh, Ht.
      repeat split; auto.
  - exists "", st. unfold Connector.getJobContent. rewrite Hh. repeat split; auto.
Qed.

End JobContent.

(** ** Programs that leave the memory and the ledger alone *)

Lemma extend_extend (st : St) (evs1 evs2 : list Event) :
  extend (extend st evs1) evs2 = extend st (evs1 ++ evs2).
Proof. unfold extend. cbn. now rewrite app_assoc. Qed.

Lemma extend_nil (st : St) : st = extend st [].
Proof. unfold extend. rewrite app_nil_r. now destruct st. Qed.


Section Quiet.
Variable ok : Event -> Prop.
Variable w : World.


Lemma quiet_ret {A} (a : A) (Post : Result A -> Prop) :
  Post (inr a) -> quiet ok w (Ret a) Post.
Proof. intros H st. exists []. cbn. split; [apply extend_nil | auto]. Qed.

Lemma quiet_throw {A} (e : Exn) (Post : Result A -> Prop) :
  Post (inl e) -> quiet ok w (Throw e) Post.
Proof. intros H st. exists []. cbn. split; [apply extend_nil | auto]. Qed.

Lemma quiet_bind {A B} (p : Prog A) (f : A -> Prog B)
    (Post1 : Result A -> Prop) (Post2 : Result B -> Prop) :
  quiet ok w p Post1 ->
  (forall a, Post1 (inr a) -> quiet ok w (f a) Post2) ->
  (forall e, Post1 (inl e) -> Post2 (inl e)) ->
  quiet ok w (bind p f) Post2.
Proof.
  intros Hp Hf He st. rewrite run_bind.
  destruct (Hp st) as [evs1 [E1 [F1 P1]]].
  destruct (run w p st) as [[e|a] st1]; cbn [fst snd] in *; subst st1.
  - exists evs1. auto.
  - destruct (Hf a P1 (extend st evs1)) as [evs2 [E2 [F2 P2]]].
    exists (evs1 ++ evs2). rewrite E2, extend_extend.
    split; [reflexivity|]. split; [now apply Forall_app | assumption].
Qed.

Lemma quiet_try_catch {A} (p : Prog A) (h : Exn -> Prog A)
    (Post1 Post2 : Result A -> Prop) :
  quiet ok w p Post1 ->
  (forall a, Post1 (inr a) -> Post2 (inr a)) ->
  (forall e, Post1 (inl e) -> quiet ok w (h e) Post2) ->
  quiet ok w (try_catch p h) Post2.
Proof.
  intros Hp Ha Hh st. rewrite run_try_catch.
  destruct (Hp st) as [evs1 [E1 [F1 P1]]].
  destruct (run w p st) as [[e|a] st1]; cbn [fst snd] in *; subst st1.
  - destruct (Hh e P1 (extend st evs1)) as [evs2 [E2 [F2 P2]]].
    exists (evs1 ++ evs2). rewrite E2, extend_extend.
    split; [reflexivity|]. split; [now apply Forall_app | assumption].
  - exists evs1. auto.
Qed.

Lemma quiet_call {R} (c : Call R) :
  ok (ECall c) -> quiet ok w (call c) anything.
Proof.
  intros H st. rewrite run_call. exists [ECall c]. cbn [fst snd].
  split; [reflexivity|]. split; [|exact I]. now constructor.
Qed.

Lemma quiet_sys {R} (s : Sys R) : ok (ESys s) -> quiet ok w (sys_call s) returns.
Proof.
  intros H st. exists [ESys s]. cbn. split; [reflexivity|]. split; [now constructor|].
  now eexists.
Qed.

Hypothesis ok_sys : forall R (s : Sys R), ok (ESys s).

Lemma quiet_console_error (context : string) (e : Exn) :
  quiet ok w (console_error context e) returns.
Proof. apply quiet_sys, ok_sys. Qed.

Lemma quiet_lift {A} (r : Result A) : quiet ok w (lift r) anything.
Proof. destruct r; [apply quiet_throw | apply quiet_ret]; exact I. Qed.


Lemma quiet_attempt {A} (p : Prog A) :
  quiet ok w p anything -> quiet ok w (attempt p) returns.
Proof.
  intros H st. rewrite run_attempt. destruct (H st) as [evs [E [F _]]].
  exists evs. cbn [fst snd]. split; [assumption|]. split; [assumption|].
  now eexists.
Qed.

(** [catch (error) { console.error(..., error); k }] *)
Lemma quiet_logged {A} (p : Prog A) (context : string) (k : Exn -> Prog A)
    (Post1 Post2 : Result A -> Prop) :
  quiet ok w p Post1 ->
  (forall a, Post1 (inr a) -> Post2 (inr a)) ->
  (forall e, Post1 (inl e) -> quiet ok w (k e) Post2) ->
  quiet ok w (try_catch p (fun error => console_error context error ;;; k error)) Post2.
Proof.
  intros Hp Ha Hk. apply quiet_try_catch with Post1; [assumption | assumption |].
  intros e He. apply quiet_bind with returns.
  - apply quiet_console_error.
  - intros _ _. now apply Hk.
  - intros e' [v C]. discriminate.
Qed.

End Quiet.

(** ** Applying without the creator's key *)

Section Quietness.
Context {platform : Platform}.
Variable ok : Event -> Prop.
Hypothesis ok_harmless : forall e, is_ledger_write e = false -> ok e.
Variable w : World.
Variable config : Config.

Lemma ok_sys : forall R (s : Sys R), ok (ESys s).
Proof. intros R s. now apply ok_harmless. Qed.

Lemma quiet_call_post {R} (c : Call R) (Post : Result R -> Prop) :
  ok (ECall c) ->
  (forall h, Post (answer w h c)) -> quiet ok w (call c) Post.
Proof.
  intros H HP st. rewrite run_call. exists [ECall c]. cbn [fst snd].
  split; [reflexivity|]. split; [now constructor | apply HP].
Qed.

Lemma quiet_getFromIpfs_loop (gs : list string) (cid : string) (key : option string)
    (le : option Exn) :
  quiet ok w (Encryption.getFromIpfs_loop gs cid key le) anything.
Proof.
  revert le. induction gs as [|g rest IH]; intro le; cbn [Encryption.getFromIpfs_loop].
  - destruct le; apply quiet_throw; exact I.
  - apply quiet_bind with returns.
    + apply quiet_attempt. apply quiet_bind with anything.
      * now apply quiet_call, ok_harmless.
      * intros content _. destruct (Encryption.truthy_opt key);
          [apply quiet_lift | apply quiet_ret; exact I].
      * intros; exact I.
    + intros [e|content] _; [apply IH | apply quiet_ret; exact I].
    + intros e [v C]. discriminate.
Qed.

Lemma quiet_getJobContent (job : Job) :
  quiet ok w (Connector.getJobContent config job) returns.
Proof.
  unfold Connector.getJobContent.
  destruct (contentHash job) as [h|]; [|apply quiet_ret; now eexists].
  destruct (negb _ || _); [apply quiet_ret; now eexists|].
  apply quiet_logged with (Post1 := anything); [exact ok_sys| | |].
  - apply quiet_bind with anything; [apply quiet_lift | | intros; exact I].
    intros cid _. apply quiet_bind with anything; [| |intros; exact I].
    + apply quiet_getFromIpfs_loop.
    + intros content _. apply quiet_ret. exact I.
  - intros a _. now eexists.
  - intros e _. apply quiet_ret. now eexists.
Qed.

(** [getJob] returns what the ledger answered. *)
Lemma quiet_getJob (jobId : Z) :
  quiet ok w (Connector.getJob jobId)
    (fun r => forall fj, r = inr fj ->
              exists h, answer w h (MarketplaceGetJob jobId) = inr (fetched fj)).
Proof.
  unfold Connector.getJob.
  apply quiet_logged
    with (Post1 := fun r => forall fj, r = inr fj ->
              exists h, answer w h (MarketplaceGetJob jobId) = inr (fetched fj));
    [exact ok_sys| | |].
  - apply quiet_bind
      with (Post1 := fun r => exists h, answer w h (MarketplaceGetJob jobId) = r).
    + apply quiet_call_post; [now apply ok_harmless|]. intro h. now exists h.
    + intros lj [h Hh]. apply quiet_ret. intros fj E. injection E as <-.
      now exists h.
    + intros e _ fj E. discriminate.
  - auto.
  - intros e _. apply quiet_throw. intros fj E. discriminate.
Qed.

Lemma quiet_findMatchingAgents_loop (names : list string) (job : Job) (content : string)
    (acc : list string) :
  quiet ok w (AgentManager.findMatchingAgents_loop names job content acc) anything.
Proof.
  revert acc. induction names as [|n r IH]; intro acc;
    cbn [AgentManager.findMatchingAgents_loop].
  - apply quiet_ret. exact I.
  - apply quiet_bind with anything;
      [now apply quiet_call, ok_harmless | | intros; exact I].
    intros m _. apply IH.
Qed.

Lemma quiet_randomBytes (n : nat) : quiet ok w (randomBytes n) anything.
Proof.
  induction n as [|n IH]; cbn [randomBytes]; [apply quiet_ret; exact I|].
  apply quiet_bind with returns; [apply quiet_sys, ok_sys | | intros e [v C]; discriminate].
  intros b _. apply quiet_bind with anything; [exact IH | | intros; exact I].
  intros r _. apply quiet_ret. exact I.
Qed.

Lemma quiet_getSessionKey (wl : Wallet) (otherPublicKey : string) (jobId : Z) :
  quiet ok w (Encryption.getSessionKey wl otherPublicKey jobId) anything.
Proof.
  unfold Encryption.getSessionKey.
  apply quiet_logged with (Post1 := anything); [exact ok_sys| | |].
  - apply quiet_bind with anything; [apply quiet_lift | | intros; exact I].
    intros sg _. apply quiet_ret. exact I.
  - intros; exact I.
  - intros e _. apply quiet_throw. exact I.
Qed.

Lemma quiet_publishToIpfs (content : string) (encryptionKey : option string) :
  quiet ok w (Encryption.publishToIpfs config content encryptionKey) anything.
Proof.
  unfold Encryption.publishToIpfs.
  apply quiet_bind with anything; [| |intros; exact I].
  - destruct encryptionKey as [k|]; [|apply quiet_ret; exact I].
    destruct (Encryption.truthy k); [|apply quiet_ret; exact I].
    apply quiet_bind with anything; [| |intros; exact I].
    + unfold Encryption.encryptUtf8Data.
      apply quiet_bind with anything; [apply quiet_randomBytes | | intros; exact I].
      intros iv _. apply quiet_lift.
    + intros e _. apply quiet_ret. exact I.
  - intros dataToUpload _.
    apply quiet_logged with (Post1 := anything); [exact ok_sys| | |].
    + apply quiet_bind with returns;
        [apply quiet_sys, ok_sys | | intros e [v C]; discriminate].
      intros now1 _. apply quiet_bind with returns;
        [apply quiet_sys, ok_sys | | intros e [v C]; discriminate].
      intros now2 _. apply quiet_bind with anything;
        [now apply quiet_call, ok_harmless | | intros; exact I].
      intros response _. apply quiet_ret. exact I.
    + intros; exact I.
    + intros e _. apply quiet_throw. exact I.
Qed.

(** [deliverResult] keeps the memory; its only write is the delivery. *)
Lemma quiet_deliverResult (jobId : Z) (resultContent : string) :
  (forall h, ok (ECall (DeliverResult jobId h))) ->
  quiet ok w (Connector.deliverResult config jobId resultContent) returns.
Proof.
  intro Hok. unfold Connector.deliverResult.
  apply quiet_logged with (Post1 := anything); [exact ok_sys| | |].
  - eapply quiet_bind; [apply quiet_getJob | | intros; exact I].
    intros job _. apply quiet_bind with anything; [| |intros; exact I].
    { unfold Connector.creator_of. destruct (l_roles _);
        [apply quiet_ret | apply quiet_throw]; exact I. }
    intros owner _. apply quiet_bind with anything;
      [now apply quiet_call, ok_harmless | | intros; exact I].
    intros ownerPublicKey _.
    apply quiet_bind with anything; [apply quiet_getSessionKey | | intros; exact I].
    intros sessionKey _.
    apply quiet_bind with anything; [apply quiet_publishToIpfs | | intros; exact I].
    intros published _.
    apply quiet_bind with anything; [apply quiet_call, Hok | | intros; exact I].
    intros tx _.
    apply quiet_bind with anything;
      [now apply quiet_call, ok_harmless | | intros; exact I].
    intros _ _. apply quiet_ret. exact I.
  - intros a _. now eexists.
  - intros e _. apply quiet_ret. now eexists.
Qed.




End Quietness.


(** ** Active jobs *)


Lemma JsMap_get_set {V} (k : Z) (v : V) (m : JsMap.t V) :
  JsMap.get k (JsMap.set k v m) = Some v.
Proof.
  induction m as [|[k' v'] m IH]; cbn [JsMap.set JsMap.get].
  - now rewrite Z.eqb_refl.
  - destruct (k' =? k)%Z eqn:E; cbn [JsMap.get]; [now rewrite Z.eqb_refl|].
    now rewrite E.
Qed.



(** The active jobs of [name'] after those of [name] were replaced by [m]:
    either [m] or what they were. *)
Lemma activeJobs_set (name name' : string) (m : JsMap.t ActiveJobInfo)
    (ags : list (string * JsMap.t ActiveJobInfo)) :
  BaseAgent.activeJobs name' (BaseAgent.set_activeJobs name m ags) = m \/
  BaseAgent.activeJobs name' (BaseAgent.set_activeJobs name m ags)
  = BaseAgent.activeJobs name' ags.
Proof.
  induction ags as [|[n m0] ags IH]; cbn [BaseAgent.set_activeJobs BaseAgent.activeJobs].
  - now right.
  - destruct (String.eqb n name) eqn:E; cbn [BaseAgent.activeJobs].
    + destruct (String.eqb n name'); [now left | now right].
    + destruct (String.eqb n name'); [now right | exact IH].
Qed.




(** *** A small program logic for what a tick keeps true *)

Section Keeps.
Variable w : World.

Lemma keeps_weaken {A} (Pre Pre' Post Post' : St -> Prop) (p : Prog A) :
  keeps w Pre' p Post' -> (forall st, Pre st -> Pre' st) ->
  (forall st, Post' st -> Post st) -> keeps w Pre p Post.
Proof. intros H H1 H2 st Hst. apply H2, H, H1, Hst. Qed.

Lemma keeps_ret {A} (a : A) (I : St -> Prop) : keeps w I (Ret a) I.
Proof. intros st H. exact H. Qed.

Lemma keeps_throw {A} (e : Exn) (I : St -> Prop) : keeps w I (@Throw A e) I.
Proof. intros st H. exact H. Qed.

Lemma keeps_bind {A B} (Pre Mid Post : St -> Prop) (p : Prog A) (f : A -> Prog B) :
  keeps w Pre p Mid -> (forall a, keeps w Mid (f a) Post) ->
  (forall st, Mid st -> Post st) -> keeps w Pre (bind p f) Post.
Proof.
  intros Hp Hf Hm st Hst. rewrite run_bind. specialize (Hp st Hst).
  destruct (run w p st) as [[e|a] st1]; cbn [snd] in *; [now apply Hm | now apply Hf].
Qed.

Lemma keeps_try_catch {A} (Pre Mid Post : St -> Prop) (p : Prog A) (h : Exn -> Prog A) :
  keeps w Pre p Mid -> (forall e, keeps w Mid (h e) Post) ->
  (forall st, Mid st -> Post st) -> keeps w Pre (try_catch p h) Post.
Proof.
  intros Hp Hh Hm st Hst. rewrite run_try_catch. specialize (Hp st Hst).
  destruct (run w p st) as [[e|a] st1]; cbn [snd] in *; [now apply Hh | now apply Hm].
Qed.

Lemma keeps_get {A} (Pre Post : St -> Prop) (k : Local -> Prog A) :
  (forall l, keeps w (fun st => Pre st /\ local st = l) (k l) Post) ->
  keeps w Pre (GetLocal k) Post.
Proof. intros H st Hst. cbn [run]. now apply (H (local st)). Qed.

Lemma keeps_put {A} (Pre Post : St -> Prop) (l : Local) (k : Prog A) :
  keeps w (fun st => exists st0, Pre st0 /\ st = {| local := l; trace := trace st0 |})
    k Post ->
  keeps w Pre (PutLocal l k) Post.
Proof. intros H st Hst. cbn [run]. apply H. now exists st. Qed.

Lemma keeps_for_each {X} (I : St -> Prop) (xs : list X) (body : X -> Prog unit) :
  (forall x, In x xs -> keeps w I (body x) I) -> keeps w I (for_each xs body) I.
Proof.
  induction xs as [|x xs IH]; intro H; cbn [for_each]; [apply keeps_ret|].
  apply keeps_bind with I; [apply H; now left | | auto].
  intros _. apply IH. intros y Hy. apply H. now right.
Qed.

(** A quiet program keeps whatever does not depend on the calls it may
    make. *)
Lemma keeps_quiet {A} (ok : Event -> Prop) (I : St -> Prop) (p : Prog A)
    (Post : Result A -> Prop) :
  quiet ok w p Post ->
  (forall st evs, I st -> Forall ok evs -> I (extend st evs)) ->
  keeps w I p I.
Proof.
  intros Hq Hstable st Hst. destruct (Hq st) as [evs [E [F _]]].
  rewrite E. now apply Hstable.
Qed.

End Keeps.

Section ActiveJobs.
Context {platform : Platform}.
Variable w : World.
Variable config : Config.
Variable jobId : Z.








End ActiveJobs.

Section FailedDelivery.
Context {platform : Platform}.
Variable w : World.
Variable config : Config.




End FailedDelivery.


(** ** The polling timers *)



Section Processed.
Context {platform : Platform}.
Variable w : World.
Variable config : Config.




End Processed.


(** ** The session key *)

Lemma run_getSessionKey (w : World) (st : St) (wl : Wallet) (otherPublicKey : string)
    (jobId : Z) (signature : string) :
  signMessage wl (messageToSign jobId otherPublicKey) = inr signature ->
  run w (Encryption.getSessionKey wl otherPublicKey jobId) st
  = (inr (JsString.slice 2 66 signature), st).
Proof.
  unfold messageToSign. intro H. unfold Encryption.getSessionKey.
  rewrite run_try_catch, run_bind, H. reflexivity.
Qed.

(** C1, as the code has it.  [getSessionKey] returns characters 2 to 66 of
    the hex signature, its first 32 bytes, that the given wallet makes of
    the text [session-key-<jobId>-<otherPublicKey>], and changes nothing.
    The key is therefore a function of the signer and of that text.  The
    keys that two parties derive for the same job from each other's
    verification key are equal exactly when the first 32 bytes of two
    signatures are equal that are made by the two signers of two texts. *)
Theorem session_key_is_signature_prefix (w : World) (st : St) (jobId : Z) :
  (forall (wl : Wallet) (otherPublicKey signature : string),
      signMessage wl (messageToSign jobId otherPublicKey) = inr signature ->
      run w (Encryption.getSessionKey wl otherPublicKey jobId) st
      = (inr (JsString.slice 2 66 signature), st)) /\
  (forall (A B : Wallet) (publicKey_A publicKey_B signature_A signature_B : string),
      signMessage A (messageToSign jobId publicKey_B) = inr signature_A ->
      signMessage B (messageToSign jobId publicKey_A) = inr signature_B ->
      (fst (run w (Encryption.getSessionKey A publicKey_B jobId) st)
       = fst (run w (Encryption.getSessionKey B publicKey_A jobId) st)
       <-> JsString.slice 2 66 signature_A = JsString.slice 2 66 signature_B)).
Proof.
  split.
  - intros. now apply run_getSessionKey.
  - intros A B pkA pkB sA sB HA HB.
    rewrite (run_getSessionKey w st A pkB jobId sA HA).
    rewrite (run_getSessionKey w st B pkA jobId sB HB). cbn [fst].
    split; [intro H; now injection H | intros ->; reflexivity].
Qed.

(** * The properties on concrete inputs *)

(** ** The test doubles have the shape the theorems ask for *)




Lemma double_tag_length (key iv ct : list byte) :
  List.length (@gcm_tag Double.platform key iv ct) = 16.
Proof. reflexivity. Qed.


(** ** C3 and C4 on a concrete plaintext and key *)


Lemma open_rejects_bit_flip_witness :
  @Encryption.decryptToUtf8 Double.platform (Buffer.flip_bit 260 Double.sample_envelope)
    (Buffer.to_hex Double.sample_key)
  = inl crypto.authentication_error /\
  @Encryption.decryptToUtf8 Double.platform (Buffer.flip_bit 130 Double.sample_envelope)
    (Buffer.to_hex Double.sample_key)
  = inl crypto.authentication_error.
Proof.
  split.
  - refine (proj1 (@open_rejects_bit_flip Double.platform double_tag_length
                     (Double.market "0x") Double.fresh _ "bot" Double.sample_key Double.sample_envelope 260
                     eq_refl _ _ _)).
    + vm_compute. reflexivity.
    + unfold Double.sample_envelope. cbn [List.length]. lia.
    + intros _. vm_compute. discriminate.
  - refine (proj1 (@open_rejects_bit_flip Double.platform double_tag_length
                     (Double.market "0x") Double.fresh _ "bot" Double.sample_key Double.sample_envelope 130
                     eq_refl _ _ _)).
    + vm_compute. reflexivity.
    + unfold Double.sample_envelope. cbn [List.length]. lia.
    + intro H. exfalso. lia.
Defined.

(** ** C1: two parties, each with the other's key *)

Lemma session_key_is_signature_prefix_witness :
  run (Double.market "0x")
    (Encryption.getSessionKey Double.wallet_A Double.publicKey_B 0) Double.fresh
  = (inr (JsString.slice 2 66 Double.signature_A), Double.fresh).
Proof.
  apply (proj1 (session_key_is_signature_prefix (Double.market "0x") Double.fresh 0)).
  vm_compute. reflexivity.
Defined.

(** A and B are distinct wallets; each derives the key for job 0 from the
    other's verification key; the two keys differ. *)
Lemma session_keys_differ :
  address Double.wallet_A <> address Double.wallet_B /\
  fst (run (Double.market "0x")
         (Encryption.getSessionKey Double.wallet_A Double.publicKey_B 0) Double.fresh)
  = inr "324aa95f17b3c086ee966ae55dddfd897c84de576a226243efb3ec14a41aefe4" /\
  fst (run (Double.market "0x")
         (Encryption.getSessionKey Double.wallet_B Double.publicKey_A 0) Double.fresh)
  = inr "834b29b7e81a1a85aca15123fb6a6bff74f24e5a07a8707f2193bcf6be84a72d" /\
  fst (run (Double.market "0x")
         (Encryption.getSessionKey Double.wallet_A Double.publicKey_B 0) Double.fresh)
  <> fst (run (Double.market "0x")
            (Encryption.getSessionKey Double.wallet_B Double.publicKey_A 0) Double.fresh).
Proof.
  split; [discriminate|]. split; [vm_compute; reflexivity|].
  split; [vm_compute; reflexivity|]. vm_compute. discriminate.
Qed.

(** ** C2: the digest an application records *)


(** ** C7 on a concrete job *)


(** ** C6: a delivery that fails once *)



(** ** C8: two discovery ticks in flight *)


(** * Further properties *)

(** ** The codecs *)

Lemma to_N_snoc (l : list byte) (b : byte) :
  Buffer.to_N (l ++ [b]) = (Buffer.to_N l * 256 + Byte.to_N b)%N.
Proof. unfold Buffer.to_N. rewrite fold_left_app. reflexivity. Qed.

Lemma byte_of_N_to_N (b : byte) : Buffer.byte_of_N (Byte.to_N b) = b.
Proof. unfold Buffer.byte_of_N. now rewrite Byte.of_to_N. Qed.

Lemma to_N_byte_bound (b : byte) : (Byte.to_N b < 256)%N.
Proof. pose proof (Byte.to_N_bounded b). lia. Qed.

(** Big-endian bytes and the number they spell. *)
Lemma be_bytes_to_N (l : list byte) :
  ethers.be_bytes (List.length l) (Buffer.to_N l) = l.
Proof.
  induction l as [|b l IH] using rev_ind; [reflexivity|].
  rewrite length_app, Nat.add_comm. cbn [List.length Nat.add ethers.be_bytes].
  rewrite to_N_snoc. pose proof (to_N_byte_bound b) as Hb.
  replace ((Buffer.to_N l * 256 + Byte.to_N b) / 256)%N with (Buffer.to_N l)
    by (apply N.div_unique with (r := Byte.to_N b); lia).
  replace ((Buffer.to_N l * 256 + Byte.to_N b) mod 256)%N with (Byte.to_N b)
    by (apply N.mod_unique with (q := Buffer.to_N l); lia).
  now rewrite IH, byte_of_N_to_N.
Qed.

Lemma to_N_injective (a b : list byte) :
  List.length a = List.length b -> Buffer.to_N a = Buffer.to_N b -> a = b.
Proof.
  intros Hl Hn. rewrite <- (be_bytes_to_N a), <- (be_bytes_to_N b). now rewrite Hl, Hn.
Qed.

Lemma be_bytes_length (n : nat) (v : N) : List.length (ethers.be_bytes n v) = n.
Proof.
  revert v. induction n as [|n IH]; intro v; [reflexivity|].
  cbn [ethers.be_bytes]. rewrite length_app, IH. cbn. lia.
Qed.

Lemma to_N_byte_of_N (v : N) : (v < 256)%N -> Byte.to_N (Buffer.byte_of_N v) = v.
Proof.
  intro H. unfold Buffer.byte_of_N. destruct (Byte.of_N v) as [b|] eqn:E.
  - now apply Byte.to_of_N.
  - apply Byte.of_N_None_iff in E. lia.
Qed.

Lemma to_N_be_bytes (n : nat) (v : N) :
  (v < 256 ^ N.of_nat n)%N -> Buffer.to_N (ethers.be_bytes n v) = v.
Proof.
  revert v. induction n as [|n IH]; intros v Hv.
  - cbn in *. lia.
  - cbn [ethers.be_bytes]. rewrite to_N_snoc.
    rewrite Nat2N.inj_succ, N.pow_succ_r' in Hv.
    rewrite IH by (apply N.Div0.div_lt_upper_bound; lia).
    rewrite to_N_byte_of_N by (apply N.mod_lt; lia).
    pose proof (N.div_mod v 256). lia.
Qed.

Lemma bs58_value_digits (fuel : nat) (n : N) :
  (n < 58 ^ N.of_nat fuel)%N -> bs58_value (bs58.digits fuel n) = n.
Proof.
  revert n. induction fuel as [|f IH]; intros n Hn.
  - cbn in *. assert (n = 0%N) by lia. now subst.
  - cbn [bs58.digits]. destruct (n =? 0)%N eqn:E.
    + apply N.eqb_eq in E. now subst.
    + cbn [bs58_value fold_right]. fold (bs58_value (bs58.digits f (n / 58))).
      rewrite Nat2N.inj_succ, N.pow_succ_r' in Hn.
      rewrite IH by (apply N.Div0.div_lt_upper_bound; lia).
      pose proof (N.div_mod n 58). lia.
Qed.

Lemma bs58_digits_small (fuel : nat) (n : N) :
  Forall (fun d => (d < 58)%N) (bs58.digits fuel n).
Proof.
  revert n. induction fuel as [|f IH]; intro n; cbn [bs58.digits]; [constructor|].
  destruct (n =? 0)%N; constructor; [apply N.mod_lt; lia | apply IH].
Qed.

Lemma bs58_indexOf_charAt (d : N) : (d < 58)%N -> bs58_indexOf (bs58.charAt d) = d.
Proof.
  intro H. rewrite <- (N2Nat.id d). assert (Hn : N.to_nat d < 58) by lia.
  generalize dependent (N.to_nat d). clear. intros n Hn.
  do 58 (destruct n as [|n]; [reflexivity|]). lia.
Qed.

Lemma map_charAt_injective (a b : list N) :
  Forall (fun d => (d < 58)%N) a -> Forall (fun d => (d < 58)%N) b ->
  map bs58.charAt a = map bs58.charAt b -> a = b.
Proof.
  intros Ha. revert b. induction Ha as [|x a Hx Ha IH]; intros b Hb E.
  - destruct b; [reflexivity|discriminate].
  - destruct Hb as [|y b Hy Hb]; [discriminate|]. cbn [map] in E.
    injection E as E1 E2. f_equal; [|now apply IH].
    now rewrite <- (bs58_indexOf_charAt x Hx), <- (bs58_indexOf_charAt y Hy), E1.
Qed.

Lemma string_of_chars_injective (a b : list ascii) :
  bs58.string_of_chars a = bs58.string_of_chars b -> a = b.
Proof.
  revert b. induction a as [|x a IH]; intros [|y b] E; try discriminate; [reflexivity|].
  cbn in E. injection E as -> E. f_equal. now apply IH.
Qed.

Lemma string_of_chars_length (a : list ascii) :
  String.length (bs58.string_of_chars a) = List.length a.
Proof. induction a as [|x a IH]; [reflexivity|]. cbn. now rewrite <- IH. Qed.

(** The spelling of a multihash of 32 bytes: no leading ['1'], and the 46
    digits of its number. *)
Lemma bs58_multihash_digits (d : list byte) :
  List.length d = 32 ->
  exists n,
    n = (4640 * 256 ^ 32 + Buffer.to_N d)%N /\
    bs58.encode (x12 :: x20 :: d)
    = bs58.string_of_chars (map bs58.charAt (rev (bs58.digits 68 n))) /\
    List.length (bs58.digits 68 n) = 46.
Proof.
  intro Hlen. pose proof (to_N_bound d) as Hb. rewrite Hlen in Hb.
  exists (Buffer.to_N (x12 :: x20 :: d)).
  pose proof (multihash_to_N d Hlen) as Hn. split; [exact Hn|].
  unfold bs58.encode.
  replace (2 * List.length (x12 :: x20 :: d)) with 68
    by (cbn [List.length]; rewrite Hlen; reflexivity).
  cbn [bs58.zeroes repeat app].
  generalize dependent (Buffer.to_N (x12 :: x20 :: d)). intros n Hn.
  split; [reflexivity|].
  destruct (multihash_quotient _ _ Hb Hn) as [H44 Hq].
  destruct (digits_split 44 24 _ H44) as [low [Hl Hd]].
  change (44 + 24) with 68 in Hd. rewrite Hd, Hq, length_app, Hl. reflexivity.
Qed.
(** X1. The locator of a digest.  For a 32-byte digest given in hex, with or
    without the ["0x"] prefix, [hashToCid] returns a locator of exactly 46
    characters, and two digests that get the same locator are the same
    digest: the conversion loses nothing. *)
Theorem hashToCid_one_to_one (d1 d2 : list byte) (h1 h2 : string) :
  List.length d1 = 32 -> List.length d2 = 32 ->
  h1 = Buffer.to_hex d1 \/ h1 = String "0" (String "x" (Buffer.to_hex d1)) ->
  h2 = Buffer.to_hex d2 \/ h2 = String "0" (String "x" (Buffer.to_hex d2)) ->
  (exists cid, Encryption.hashToCid h1 = inr cid /\ String.length cid = 46) /\
  (Encryption.hashToCid h1 = Encryption.hashToCid h2 -> d1 = d2).
Proof.
  intros L1 L2 H1 H2.
  destruct (hashToCid_digest d1 L1) as [A1 B1].
  destruct (hashToCid_digest d2 L2) as [A2 B2].
  destruct (bs58_multihash_digits d1 L1) as [n1 [V1 [E1 N1]]].
  destruct (bs58_multihash_digits d2 L2) as [n2 [V2 [E2 N2]]].
  assert (C1 : Encryption.hashToCid h1 = inr (bs58.encode (x12 :: x20 :: d1)))
    by (destruct H1 as [-> | ->]; assumption).
  assert (C2 : Encryption.hashToCid h2 = inr (bs58.encode (x12 :: x20 :: d2)))
    by (destruct H2 as [-> | ->]; assumption).
  rewrite C1, C2, E1, E2.
  pose proof (to_N_bound d1) as Hb1. rewrite L1 in Hb1.
  pose proof (to_N_bound d2) as Hb2. rewrite L2 in Hb2.
  assert (E256 : (256 ^ N.of_nat 32 = 115792089237316195423570985008687907853269984665640564039457584007913129639936)%N)
    by (vm_compute; reflexivity).
  assert (E256' : (256 ^ 32 = 115792089237316195423570985008687907853269984665640564039457584007913129639936)%N)
    by (vm_compute; reflexivity).
  assert (E58 : (58 ^ N.of_nat 68 = 818659983307423768631895769287186768096118664656249123135650444757408038940948816018402574608346843785239217057684258816)%N)
    by (vm_compute; reflexivity).
  rewrite E256 in Hb1, Hb2. rewrite E256' in V1, V2.
  clear A1 B1 A2 B2 C1 C2 E1 E2 E256 E256'.
  split.
  - eexists. split; [reflexivity|].
    rewrite string_of_chars_length, length_map, length_rev. exact N1.
  - intro E0.
    pose proof (f_equal (fun r : Result string =>
                           match r with inr x => x | inl _ => EmptyString end) E0) as E.
    cbv beta iota in E. clear E0.
    apply string_of_chars_injective in E.
    apply map_charAt_injective in E;
      [|apply Forall_rev, bs58_digits_small|apply Forall_rev, bs58_digits_small].
    apply (f_equal (@rev N)) in E. rewrite !rev_involutive in E.
    apply (f_equal bs58_value) in E.
    rewrite !bs58_value_digits in E by (rewrite E58; lia).
    apply to_N_injective; [congruence|]. lia.
Qed.

Lemma hashToCid_one_to_one_witness :
  (exists cid, Encryption.hashToCid zero_hash = inr cid /\ String.length cid = 46) /\
  (Encryption.hashToCid zero_hash
   = Encryption.hashToCid "d3dd86b50a0cdc96c5edaf3e20d54b203a9d502841b34e3ef9c45bef7ff506f4" ->
   repeat x00 32
   = Buffer.from_hex "d3dd86b50a0cdc96c5edaf3e20d54b203a9d502841b34e3ef9c45bef7ff506f4").
Proof.
  apply (hashToCid_one_to_one (repeat x00 32)
           (Buffer.from_hex "d3dd86b50a0cdc96c5edaf3e20d54b203a9d502841b34e3ef9c45bef7ff506f4")
           zero_hash "d3dd86b50a0cdc96c5edaf3e20d54b203a9d502841b34e3ef9c45bef7ff506f4").
  - reflexivity.
  - reflexivity.
  - right. reflexivity.
  - left. reflexivity.
Defined.

(** ** The digest *)

Lemma tabulate_length (f : nat -> nat -> N) : List.length (keccak.tabulate f) = 25.
Proof. unfold keccak.tabulate. now rewrite length_map, length_seq. Qed.

Lemma round_length (st : list N) (rc : N) : List.length (keccak.round st rc) = 25.
Proof.
  unfold keccak.round, keccak.chi.
  pose proof (tabulate_length
                (fun x y =>
                   N.lxor (keccak.lane (keccak.rho_pi (keccak.theta st)) x y)
                     (N.land (N.lxor (keccak.lane (keccak.rho_pi (keccak.theta st)) (x + 1) y)
                                keccak.mask64)
                        (keccak.lane (keccak.rho_pi (keccak.theta st)) (x + 2) y)))) as H.
  destruct (keccak.tabulate _) as [|a r]; [discriminate|exact H].
Qed.

Lemma keccak_f_length (st : list N) :
  List.length st = 25 -> List.length (keccak.keccak_f st) = 25.
Proof.
  unfold keccak.keccak_f. generalize keccak.round_constants. intro rcs. revert st.
  induction rcs as [|rc rcs IH]; intros st H; [exact H|].
  cbn [fold_left]. apply IH, round_length.
Qed.

Lemma xor_at_length (i : nat) (v : N) (st : list N) :
  List.length (keccak.xor_at i v st) = List.length st.
Proof.
  revert i. induction st as [|a st IH]; intros [|i]; cbn [keccak.xor_at List.length];
    try reflexivity. now rewrite IH.
Qed.

Lemma absorb_length (acc : list N * nat) (b : byte) :
  List.length (fst acc) = 25 -> List.length (fst (keccak.absorb acc b)) = 25.
Proof.
  destruct acc as [st pos]. cbn [fst]. intro H. unfold keccak.absorb.
  destruct (S pos =? keccak.rate); cbn [fst].
  - apply keccak_f_length. now rewrite xor_at_length.
  - now rewrite xor_at_length.
Qed.

Lemma fold_absorb_length (bs : list byte) (acc : list N * nat) :
  List.length (fst acc) = 25 ->
  List.length (fst (fold_left keccak.absorb bs acc)) = 25.
Proof.
  revert acc. induction bs as [|b bs IH]; intros acc H; [exact H|].
  cbn [fold_left]. apply IH, absorb_length, H.
Qed.

Lemma lanes_length (st : list N) :
  List.length (flat_map keccak.lane_bytes st) = 8 * List.length st.
Proof.
  induction st as [|a st IH]; [reflexivity|].
  cbn [flat_map]. rewrite length_app, IH. unfold keccak.lane_bytes.
  rewrite length_map, length_seq. cbn [List.length]. lia.
Qed.

(** The digest always has 32 bytes. *)
Lemma keccak256_length (msg : list byte) : List.length (keccak.keccak256 msg) = 32.
Proof.
  unfold keccak.keccak256.
  pose proof (fold_absorb_length (msg ++ keccak.pad (List.length msg)) (repeat 0%N 25, 0)
                (repeat_length 0%N 25)) as H.
  destruct (fold_left keccak.absorb _ _) as [st pos]. cbn [fst] in H.
  rewrite length_firstn, lanes_length, H. reflexivity.
Qed.

(** [getBytes(keccak256(data))] is the digest itself. *)
Lemma getBytes_keccak256 (data : list byte) :
  ethers.getBytes (ethers.keccak256 data) = keccak.keccak256 data.
Proof.
  unfold ethers.getBytes, ethers.keccak256. now rewrite slice_from_0x, from_hex_to_hex.
Qed.

(** ** The connector *)

Section ConnectorWrites.
Context {platform : Platform}.
Variable w : World.
Variable config : Config.

(** The body of the [try] in [takeJob]: it either raises with the memory
    as it was, or returns [true] after the transaction was confirmed. *)
Lemma takeJob_body (jobId : Z) (st : St) :
  let body :=
    (revision <- call (EventsLength jobId) ;;
     w1 <- lift (ethers.abi_uint256 revision) ;;
     w2 <- lift (ethers.abi_uint256 jobId) ;;
     let messageHash := ethers.keccak256 (w1 ++ w2) in
     let messageBytes := ethers.getBytes messageHash in
     signature <- lift (signMessage (wallet config) messageBytes) ;;
     tx <- call (TakeJob jobId signature) ;;
     call (TxWait tx) ;;;
     Connector.mark_processed jobId ;;;
     Ret true) in
  match run w body st with
  | (inl e, st1) => local st1 = local st
  | (inr b, st1) =>
      b = true /\
      exists (revision : Z) (signature : string) (tx : Tx),
        answer w (trace st) (EventsLength jobId) = inr revision /\
        (0 <= revision < 2 ^ 256)%Z /\ (0 <= jobId < 2 ^ 256)%Z /\
        signMessage (wallet config)
          (keccak.keccak256
             (ethers.be_bytes 32 (Z.to_N revision) ++ ethers.be_bytes 32 (Z.to_N jobId)))
        = inr signature /\
        trace st1
        = trace st ++ [ECall (EventsLength jobId); ECall (TakeJob jobId signature);
                       ECall (TxWait tx)] /\
        local st1
        = with_processedJobs (local st) (JsSet.add jobId (processedJobs (local st)))
  end.
Proof.
  cbv zeta. rewrite run_bind, run_call.
  destruct (answer w (trace st) (EventsLength jobId)) as [e|revision] eqn:Hrev;
    [reflexivity|].
  rewrite run_bind, run_lift. unfold ethers.abi_uint256.
  destruct ((0 <=? revision) && (revision <? 2 ^ 256))%Z eqn:Hr; [|reflexivity].
  rewrite run_bind, run_lift.
  destruct ((0 <=? jobId) && (jobId <? 2 ^ 256))%Z eqn:Hj; [|reflexivity].
  rewrite getBytes_keccak256, run_bind, run_lift.
  destruct (signMessage (wallet config) _) as [e|signature] eqn:Hsig; [reflexivity|].
  rewrite run_bind, run_call. cbn [trace local].
  destruct (answer w _ (TakeJob jobId signature)) as [e|tx] eqn:Htx; [reflexivity|].
  rewrite run_bind, run_call. cbn [trace local].
  destruct (answer w _ (TxWait tx)) as [e|[]] eqn:Hwait; [reflexivity|].
  cbn [run bind Connector.mark_processed get_local put_local fst snd local trace].
  split; [reflexivity|]. exists revision, signature, tx.
  apply andb_prop in Hr, Hj. destruct Hr as [Hr1 Hr2], Hj as [Hj1 Hj2].
  apply Z.leb_le in Hr1, Hj1. apply Z.ltb_lt in Hr2, Hj2.
  repeat split; try assumption. now rewrite <- !app_assoc.
Qed.

(** X2. Taking a job.  [takeJob] never raises: it returns [true] or
    [false].  It returns [true] only after it has read the revision
    (the number of events of the job), had the wallet sign the 32-byte
    Keccak-256 digest of the two numbers written as 32-byte big-endian
    words (revision, then job number; both fit 256 bits), sent one
    [takeJob] transaction for this job with that signature and waited for
    it; then, and only then, the job number is added to [processedJobs].
    When it returns [false] the memory is as it was and the error was
    written to [console.error]. *)
Theorem takeJob_all_or_nothing (jobId : Z) (st : St) :
  let r := fst (run w (Connector.takeJob config jobId) st) in
  let st' := snd (run w (Connector.takeJob config jobId) st) in
  (r = inr true \/ r = inr false) /\
  (r = inr true ->
   exists (revision : Z) (signature : string) (tx : Tx),
     answer w (trace st) (EventsLength jobId) = inr revision /\
     (0 <= revision < 2 ^ 256)%Z /\ (0 <= jobId < 2 ^ 256)%Z /\
     signMessage (wallet config)
       (keccak.keccak256
          (ethers.be_bytes 32 (Z.to_N revision) ++ ethers.be_bytes 32 (Z.to_N jobId)))
     = inr signature /\
     trace st'
     = trace st ++ [ECall (EventsLength jobId); ECall (TakeJob jobId signature);
                    ECall (TxWait tx)] /\
     local st' = with_processedJobs (local st) (JsSet.add jobId (processedJobs (local st)))) /\
  (r = inr false ->
   local st' = local st /\
   exists pre e,
     trace st'
     = pre ++ [ESys (ConsoleError ("Error taking job " ++ JsString.of_Z jobId ++ ":")%string e)]).
Proof.
  cbv zeta. unfold Connector.takeJob. rewrite run_try_catch.
  pose proof (takeJob_body jobId st) as H. cbv zeta in H.
  match goal with |- context [run w ?body st] =>
    destruct (run w body st) as [[e|b] st1] end.
  - rewrite run_bind, run_console_error. cbn [run fst snd local trace].
    split; [now right|]. split; [discriminate|]. intros _.
    split; [exact H|]. now exists (trace st1), e.
  - destruct H as [-> H]. cbn [fst snd].
    split; [now left|]. split; [intros _; exact H|discriminate].
Qed.

End ConnectorWrites.
Section Publish.
Context {platform : Platform}.
Variable w : World.
Variable config : Config.

Lemma run_publishToIpfs (content key : string) (st : St) :
  Encryption.truthy key = true ->
  exists (iv : list byte) (evs : list Event),
    List.length iv = 16 /\ Forall (fun e => e = ESys RandomByte) evs /\
    run w (Encryption.publishToIpfs config content (Some key)) st
    = match Encryption.encryptUtf8Data_with iv content key with
      | inl e => (inl e, extend st evs)
      | inr envelope =>
          let dated := evs ++ [ESys DateNow; ESys DateNow] in
          let c :=
            PinFileToIPFS (ipfsApiUrl config ++ "/pinning/pinFileToIPFS")%string
              (list_byte_of_string (base64_encode envelope))
              {| pm_name := ("eacc-data-" ++
                             JsString.of_Z (sys w (trace st ++ evs) DateNow))%string;
                 pm_encrypted := "true";
                 pm_timestamp :=
                   JsString.of_Z (sys w (trace st ++ evs ++ [ESys DateNow]) DateNow) |}
              (ipfsApiKey config) (ipfsApiSecret config) in
          match answer w (trace st ++ dated) c with
          | inr response =>
              (inr {| hash := IpfsHash response; size := PinSize response;
                      url := (ipfsGatewayUrl config ++ IpfsHash response)%string;
                      encrypted := true |},
               extend st (dated ++ [ECall c]))
          | inl e =>
              (inl (Error ("Failed to publish to IPFS: " ++ message e)%string),
               extend st
                 (dated ++
                  [ECall c; ESys (ConsoleError "Error publishing to IPFS via Pinata:" e)]))
          end
      end.
Proof.
  intro Hk. unfold Encryption.publishToIpfs. rewrite Hk.
  destruct (run_randomBytes w 16 st) as [iv [evs [Hrun [Hlen Hevs]]]].
  exists iv, evs. split; [exact Hlen|]. split; [exact Hevs|].
  rewrite run_bind, run_bind. unfold Encryption.encryptUtf8Data.
  rewrite run_bind, Hrun, run_lift.
  destruct (Encryption.encryptUtf8Data_with iv content key) as [e|envelope];
    [reflexivity|].
  cbn [run]. rewrite run_try_catch.
  cbn [Encryption.truthy_opt]. rewrite Hk.
  cbn [run bind sys_call call local trace extend].
  rewrite <- !app_assoc. cbn [app].
  match goal with |- context [answer w ?h ?c] => destruct (answer w h c) as [e|response] end.
  - cbn [run bind console_error sys_call local trace]. rewrite <- !app_assoc. reflexivity.
  - cbn [run local trace]. reflexivity.
Qed.
(** X3. A malformed key.  When the first 64 characters of the key do not
    spell exactly 32 bytes in hex, [decryptToUtf8] raises for every
    buffer (and not the authentication failure), and [publishToIpfs]
    fails with the cipher's [RangeError], unwrapped and unlogged, after
    drawing the nonce and before any request is made: nothing is
    uploaded. *)
Theorem malformed_key_is_refused (content key : string) (st : St) :
  Encryption.truthy key = true ->
  List.length (Buffer.from_hex (JsString.slice 0 64 key)) <> 32 ->
  (forall encryptedData, exists e,
      Encryption.decryptToUtf8 encryptedData key = inl e /\
      e <> crypto.authentication_error) /\
  exists evs,
    run w (Encryption.publishToIpfs config content (Some key)) st
    = (inl (RangeError "Invalid key length"), extend st evs) /\
    Forall (fun e => e = ESys RandomByte) evs.
Proof.
  intros Hk Hbad.
  assert (Hlen : (List.length (Buffer.from_hex (JsString.slice 0 64 key)) =? 32) = false)
    by now apply Nat.eqb_neq.
  split.
  - intro data. exists (RangeError "Invalid key length").
    unfold Encryption.decryptToUtf8, crypto.createDecipheriv, crypto.createCipheriv.
    rewrite Hlen. split; [reflexivity|discriminate].
  - destruct (run_publishToIpfs content key st Hk) as [iv [evs [_ [Hevs Hrun]]]].
    exists evs. split; [|exact Hevs]. rewrite Hrun.
    unfold Encryption.encryptUtf8Data_with, crypto.createCipheriv. now rewrite Hlen.
Qed.

End Publish.

Lemma malformed_key_is_refused_witness :
  (forall encryptedData, exists e,
      @Encryption.decryptToUtf8 Double.platform encryptedData "324aa95f17b3c086" = inl e /\
      e <> crypto.authentication_error) /\
  exists evs,
    run (Double.market "0x")
      (@Encryption.publishToIpfs Double.platform Double.config "bot.js"
         (Some "324aa95f17b3c086")) Double.fresh
    = (inl (RangeError "Invalid key length"), extend Double.fresh evs) /\
    Forall (fun e => e = ESys RandomByte) evs.
Proof.
  apply (@malformed_key_is_refused Double.platform (Double.market "0x") Double.config
           "bot.js" "324aa95f17b3c086" Double.fresh).
  - reflexivity.
  - vm_compute. lia.
Defined.

(** X4. A truncated envelope.  [decryptToUtf8] raises for every buffer
    shorter than 20 bytes, whatever the key, and the error is not the
    authentication failure: the buffer cannot hold a nonce and an
    authentication tag of an accepted length, so it is refused before any
    byte is deciphered. *)
Theorem truncated_envelope_is_refused {platform : Platform}
    (encryptedData : list byte) (key : string) :
  List.length encryptedData < 20 ->
  exists e,
    Encryption.decryptToUtf8 encryptedData key = inl e /\
    e <> crypto.authentication_error.
Proof.
  intro Hlen. unfold Encryption.decryptToUtf8, crypto.createDecipheriv, crypto.createCipheriv.
  destruct (negb (List.length (Buffer.from_hex (JsString.slice 0 64 key)) =? 32));
    [eexists; split; [reflexivity|discriminate]|].
  destruct (List.length (Buffer.slice 0 16 encryptedData) =? 0);
    [eexists; split; [reflexivity|discriminate]|].
  unfold crypto.setAuthTag. cbn [crypto.c_key crypto.c_iv crypto.c_tag crypto.c_data].
  assert (Htag : List.length (Buffer.slice 16 32 encryptedData) < 4).
  { unfold Buffer.slice. rewrite length_firstn, length_skipn. lia. }
  assert (Hv : crypto.valid_tag_length (List.length (Buffer.slice 16 32 encryptedData)) = false).
  { unfold crypto.valid_tag_length.
    destruct (List.length (Buffer.slice 16 32 encryptedData)) as [|[|[|[|n]]]];
      try reflexivity. lia. }
  rewrite Hv. eexists. split; [reflexivity|discriminate].
Qed.

Lemma truncated_envelope_is_refused_witness :
  exists e,
    @Encryption.decryptToUtf8 Double.platform (firstn 19 Double.sample_envelope)
      (Buffer.to_hex Double.sample_key) = inl e /\
    e <> crypto.authentication_error.
Proof.
  apply (@truncated_envelope_is_refused Double.platform (firstn 19 Double.sample_envelope)
           (Buffer.to_hex Double.sample_key)).
  vm_compute. lia.
Defined.

Section PublishFetch.
Context {platform : Platform}.
Hypothesis ctr_involutive :
  forall key iv data, gcm_ctr key iv (gcm_ctr key iv data) = data.
Hypothesis tag_length :
  forall key iv ct, List.length (gcm_tag key iv ct) = 16.
Hypothesis base64_roundtrip :
  forall bs, base64_decode (base64_encode bs) = bs.
Variable w : World.
Variable config : Config.

Lemma encryptUtf8Data_with_envelope (iv : list byte) (P : string) (K : list byte) :
  List.length K = 32 -> List.length iv = 16 ->
  Encryption.encryptUtf8Data_with iv P (Buffer.to_hex K)
  = inr (iv ++ gcm_tag K iv (gcm_ctr K iv (list_byte_of_string P))
            ++ gcm_ctr K iv (list_byte_of_string P)).
Proof.
  intros HK Hiv. unfold Encryption.encryptUtf8Data_with, crypto.createCipheriv.
  rewrite key_of_hex, HK, Hiv by exact HK. cbn [Nat.eqb negb].
  unfold crypto.cipher_update, crypto.getAuthTag, crypto.cipher_final.
  cbn [crypto.c_key crypto.c_iv crypto.c_data app]. now rewrite app_nil_r.
Qed.


End PublishFetch.



Section Inversions.
Context {platform : Platform}.
Variable w : World.
Variable config : Config.




End Inversions.

Section Delivery.
Context {platform : Platform}.
Variable w : World.
Variable config : Config.


End Delivery.


Section Application.
Context {platform : Platform}.
Variable w : World.
Variable config : Config.


End Application.


Lemma job_range_cons (i : Z) (n : nat) :
  job_range i (S n) = i :: job_range (i + 1) n.
Proof.
  unfold job_range. cbn [seq map]. rewrite Z.add_0_r. f_equal.
  rewrite <- seq_shift, map_map. apply map_ext. intro k. lia.
Qed.

Lemma ledger_reads_app (a b : list Event) :
  ledger_reads (a ++ b) = ledger_reads a ++ ledger_reads b.
Proof. unfold ledger_reads. apply flat_map_app. Qed.

Section Listing.
Context {platform : Platform}.
Variable w : World.
Variable config : Config.

Lemma getJobs_loop_spec (n : nat) (i : Z) (jobs : list Job) (st : St) :
  exists new evs,
    run w (Connector.getJobs_loop config n i jobs) st = (inr (jobs ++ new), extend st evs) /\
    Forall harmless evs /\
    ledger_reads evs = job_range i n /\
    StronglySorted Z.lt (map id new) /\
    Forall (fun job => (i <= id job < i + Z.of_nat n)%Z) new /\
    Forall (listed w config) new.
Proof.
  revert i jobs st. induction n as [|n IH]; intros i jobs st.
  - exists [], []. cbn [Connector.getJobs_loop run]. rewrite app_nil_r, <- extend_nil.
    repeat split; constructor.
  - cbn [Connector.getJobs_loop]. rewrite run_bind, run_attempt, run_bind, run_call.
    destruct (answer w (trace st) (MarketplaceGetJob i)) as [e|jobData] eqn:Hanswer.
    + cbn [run fst snd]. rewrite run_bind, run_console_error. cbn [local trace].
      destruct (IH (i + 1)%Z jobs
                  {| local := local st;
                     trace := (trace st ++ [ECall (MarketplaceGetJob i)]) ++
                              [ESys (ConsoleError
                                       ("Error fetching job " ++ JsString.of_Z i ++ ":")%string
                                       e)] |})
        as [new [evs [Hrun [Hh [Hreads [Hsorted [Hrange Hlisted]]]]]]].
      exists new, ([ECall (MarketplaceGetJob i);
                    ESys (ConsoleError ("Error fetching job " ++ JsString.of_Z i ++ ":")%string e)]
                   ++ evs).
      split; [rewrite Hrun; unfold extend; cbn [local trace]; now rewrite <- !app_assoc|].
      split; [repeat constructor; exact Hh|].
      split; [rewrite ledger_reads_app, Hreads, job_range_cons; reflexivity|].
      split; [exact Hsorted|]. split; [|exact Hlisted].
      eapply Forall_impl; [|exact Hrange]. cbv beta. intros job Hjob. lia.
    + cbn [run fst snd local trace].
      destruct (IH (i + 1)%Z (jobs ++ [Connector.job_of_tuple config i jobData])
                  {| local := local st; trace := trace st ++ [ECall (MarketplaceGetJob i)] |})
        as [new [evs [Hrun [Hh [Hreads [Hsorted [Hrange Hlisted]]]]]]].
      exists (Connector.job_of_tuple config i jobData :: new),
        ([ECall (MarketplaceGetJob i)] ++ evs).
      split; [rewrite Hrun; unfold extend; cbn [local trace];
              now rewrite <- !app_assoc|].
      split; [repeat constructor; exact Hh|].
      split; [rewrite ledger_reads_app, Hreads, job_range_cons; reflexivity|].
      split; [|split].
      * cbn [map]. constructor; [exact Hsorted|].
        apply Forall_map. eapply Forall_impl; [|exact Hrange].
        cbv beta. intros job Hjob. cbn [Connector.job_of_tuple id]. lia.
      * constructor; [cbn [Connector.job_of_tuple id]; lia|].
        eapply Forall_impl; [|exact Hrange]. cbv beta. intros job Hjob. lia.
      * constructor; [|exact Hlisted]. exists (trace st), jobData.
        split; [exact Hanswer|reflexivity].
Qed.


End Listing.

(** ** Relevance *)




Section Relevance.
Variable config : Config.



End Relevance.

(** ** The records of active jobs *)

Lemma JsMap_get_set_other {V} (k k' : Z) (v : V) (m : JsMap.t V) :
  k' <> k -> JsMap.get k' (JsMap.set k v m) = JsMap.get k' m.
Proof.
  intro Hne. induction m as [|[k0 v0] m IH]; cbn [JsMap.set JsMap.get].
  - destruct (k =? k')%Z eqn:E; [apply Z.eqb_eq in E; congruence|reflexivity].
  - destruct (k0 =? k)%Z eqn:E; cbn [JsMap.get].
    + apply Z.eqb_eq in E. subst k0.
      destruct (k =? k')%Z eqn:E'; [apply Z.eqb_eq in E'; congruence|reflexivity].
    + now rewrite IH.
Qed.

Lemma JsMap_get_delete {V} (k : Z) (m : JsMap.t V) : JsMap.get k (JsMap.delete k m) = None.
Proof.
  induction m as [|[k0 v0] m IH]; [reflexivity|]. unfold JsMap.delete in *.
  cbn [filter fst]. destruct (k0 =? k)%Z eqn:E; cbn [negb]; [exact IH|].
  cbn [JsMap.get]. now rewrite E.
Qed.

Lemma JsMap_get_delete_other {V} (k k' : Z) (m : JsMap.t V) :
  k' <> k -> JsMap.get k' (JsMap.delete k m) = JsMap.get k' m.
Proof.
  intro Hne. induction m as [|[k0 v0] m IH]; [reflexivity|]. unfold JsMap.delete in *.
  cbn [filter fst]. destruct (k0 =? k)%Z eqn:E; cbn [negb JsMap.get].
  - apply Z.eqb_eq in E. subst k0.
    destruct (k =? k')%Z eqn:E'; [apply Z.eqb_eq in E'; congruence|exact IH].
  - now rewrite IH.
Qed.

Lemma JsMap_size_set {V} (k : Z) (v : V) (m : JsMap.t V) :
  JsMap.size (JsMap.set k v m)
  = if JsMap.has k m then JsMap.size m else S (JsMap.size m).
Proof.
  unfold JsMap.has, JsMap.size. induction m as [|[k0 v0] m IH]; [reflexivity|].
  cbn [JsMap.set JsMap.get]. destruct (k0 =? k)%Z; [reflexivity|].
  cbn [List.length]. rewrite IH. now destruct (JsMap.get k m).
Qed.

Lemma activeJobs_set_loaded (name : string) (m : JsMap.t ActiveJobInfo)
    (ags : list (string * JsMap.t ActiveJobInfo)) :
  In name (map fst ags) ->
  BaseAgent.activeJobs name (BaseAgent.set_activeJobs name m ags) = m.
Proof.
  induction ags as [|[n m'] ags IH]; [contradiction|].
  cbn [map fst In BaseAgent.set_activeJobs]. intro H.
  destruct (String.eqb n name) eqn:E; cbn [BaseAgent.activeJobs]; rewrite E; [reflexivity|].
  apply IH. destruct H as [H|H]; [|exact H].
  apply String.eqb_neq in E. congruence.
Qed.

Lemma activeJobs_set_other (name name' : string) (m : JsMap.t ActiveJobInfo)
    (ags : list (string * JsMap.t ActiveJobInfo)) :
  name' <> name ->
  BaseAgent.activeJobs name' (BaseAgent.set_activeJobs name m ags)
  = BaseAgent.activeJobs name' ags.
Proof.
  intro Hne. induction ags as [|[n m'] ags IH]; [reflexivity|].
  cbn [BaseAgent.set_activeJobs]. destruct (String.eqb n name) eqn:E;
    cbn [BaseAgent.activeJobs].
  - apply String.eqb_eq in E. subst n.
    destruct (String.eqb name name') eqn:E'; [|reflexivity].
    apply String.eqb_eq in E'. congruence.
  - now rewrite IH.
Qed.

Lemma activeJobs_set_names (name : string) (m : JsMap.t ActiveJobInfo)
    (ags : list (string * JsMap.t ActiveJobInfo)) :
  map fst (BaseAgent.set_activeJobs name m ags) = map fst ags.
Proof.
  induction ags as [|[n m'] ags IH]; [reflexivity|].
  cbn [BaseAgent.set_activeJobs]. destruct (String.eqb n name); cbn [map fst];
    [reflexivity|now rewrite IH].
Qed.

Lemma set_activeJobs_unloaded (name : string) (m : JsMap.t ActiveJobInfo)
    (ags : list (string * JsMap.t ActiveJobInfo)) :
  ~ In name (map fst ags) ->
  BaseAgent.set_activeJobs name m ags = ags /\ BaseAgent.activeJobs name ags = [].
Proof.
  induction ags as [|[n m'] ags IH]; [now split|].
  cbn [map fst In BaseAgent.set_activeJobs BaseAgent.activeJobs]. intro Hout.
  destruct (String.eqb n name) eqn:E.
  - apply String.eqb_eq in E. exfalso. apply Hout. now left.
  - destruct IH as [IH1 IH2]; [intro H; apply Hout; now right|]. now rewrite IH1.
Qed.

(** The records of an agent once the record of [jobId] is deleted. *)
Lemma getActiveJob_removed (name : string) (jobId : Z) (l : Local) :
  BaseAgent.getActiveJob name jobId
    (BaseAgent.with_activeJobs l name
       (JsMap.delete jobId (BaseAgent.activeJobs name (agents l)))) = None /\
  (forall j, j <> jobId ->
     BaseAgent.getActiveJob name j
       (BaseAgent.with_activeJobs l name
          (JsMap.delete jobId (BaseAgent.activeJobs name (agents l))))
     = BaseAgent.getActiveJob name j l).
Proof.
  unfold BaseAgent.getActiveJob. cbn [BaseAgent.with_activeJobs agents].
  destruct (in_dec string_dec name (map fst (agents l))) as [Hin|Hout].
  - rewrite activeJobs_set_loaded by exact Hin.
    split; [apply JsMap_get_delete|]. intros j Hj. now apply JsMap_get_delete_other.
  - destruct (set_activeJobs_unloaded name
                (JsMap.delete jobId (BaseAgent.activeJobs name (agents l))) (agents l) Hout)
      as [Hsame Hempty].
    rewrite Hsame, Hempty. now split.
Qed.

Section Records.
Variable w : World.

(** X10. Recording a job.  For a loaded agent, [addActiveJob(job, content)]
    returns, and afterwards [getActiveJob(job.id)] is the record with this
    job and content, the current time as start time, the status
    ['started'] and no data.  A record the agent already had under this
    job number is replaced and the number of records stays the same;
    otherwise it grows by one.  The records of other job numbers, the
    records of other agents and [processedJobs] are unchanged. *)
Theorem addActiveJob_then_get (name : string) (job : Job) (content : string) (st : St) :
  In name (map fst (agents (local st))) ->
  let st' := snd (run w (BaseAgent.addActiveJob name job content) st) in
  fst (run w (BaseAgent.addActiveJob name job content) st) = inr tt /\
  trace st' = trace st ++ [ESys DateNow] /\
  BaseAgent.getActiveJob name (id job) (local st')
  = Some {| aj_job := job; aj_content := content;
            aj_startTime := sys w (trace st) DateNow;
            aj_status := started; aj_data := None |} /\
  JsMap.size (BaseAgent.activeJobs name (agents (local st')))
  = (if JsMap.has (id job) (BaseAgent.activeJobs name (agents (local st)))
     then JsMap.size (BaseAgent.activeJobs name (agents (local st)))
     else S (JsMap.size (BaseAgent.activeJobs name (agents (local st))))) /\
  (forall jobId, jobId <> id job ->
     BaseAgent.getActiveJob name jobId (local st')
     = BaseAgent.getActiveJob name jobId (local st)) /\
  (forall name', name' <> name ->
     BaseAgent.activeJobs name' (agents (local st'))
     = BaseAgent.activeJobs name' (agents (local st))) /\
  processedJobs (local st') = processedJobs (local st).
Proof.
  intro Hloaded. cbv zeta. unfold BaseAgent.addActiveJob, BaseAgent.getActiveJob.
  cbn [run bind sys_call get_local put_local fst snd local trace
       BaseAgent.with_activeJobs agents processedJobs].
  split; [reflexivity|]. split; [reflexivity|].
  rewrite activeJobs_set_loaded by exact Hloaded.
  split; [apply JsMap_get_set|]. split; [apply JsMap_size_set|].
  split; [intros j Hj; now apply JsMap_get_set_other|].
  split; [intros n Hn; now apply activeJobs_set_other|reflexivity].
Qed.


(** X12. Dropping a record.  [removeActiveJob(jobId)] returns and makes no
    call; afterwards the agent has no record under this job number, and
    the other records, the other agents and [processedJobs] are as
    before. *)
Theorem removeActiveJob_then_get (name : string) (jobId : Z) (st : St) :
  let st' := snd (run w (BaseAgent.removeActiveJob name jobId) st) in
  fst (run w (BaseAgent.removeActiveJob name jobId) st) = inr tt /\
  trace st' = trace st /\
  BaseAgent.getActiveJob name jobId (local st') = None /\
  (forall j, j <> jobId ->
     BaseAgent.getActiveJob name j (local st') = BaseAgent.getActiveJob name j (local st)) /\
  (forall name', name' <> name ->
     BaseAgent.activeJobs name' (agents (local st'))
     = BaseAgent.activeJobs name' (agents (local st))) /\
  processedJobs (local st') = processedJobs (local st).
Proof.
  cbv zeta. unfold BaseAgent.removeActiveJob.
  cbn [run bind get_local put_local fst snd local trace].
  destruct (getActiveJob_removed name jobId (local st)) as [Hnone Hothers].
  split; [reflexivity|]. split; [reflexivity|]. split; [exact Hnone|].
  split; [exact Hothers|].
  cbn [BaseAgent.with_activeJobs agents processedJobs].
  split; [intros n Hn; now apply activeJobs_set_other|reflexivity].
Qed.

End Records.

Lemma addActiveJob_then_get_witness :
  BaseAgent.getActiveJob "discord-bot" 0
    (local (snd (run (Double.market "0x")
                   (BaseAgent.addActiveJob "discord-bot" Double.the_job "") Double.fresh)))
  = Some {| aj_job := Double.the_job; aj_content := ""; aj_startTime := 0;
            aj_status := started; aj_data := None |}.
Proof.
  destruct (addActiveJob_then_get (Double.market "0x") "discord-bot" Double.the_job ""
              Double.fresh) as [_ [_ [H _]]].
  - left. reflexivity.
  - exact H.
Defined.

(** ** What a tick touches *)

Lemma since_extend (tr0 : list Event) (ok : Event -> Prop) (st : St) (evs : list Event) :
  since tr0 ok st -> Forall ok evs -> since tr0 ok (extend st evs).
Proof.
  intros [evs0 [E F]] Fevs. exists (evs0 ++ evs). cbn [extend trace].
  split; [now rewrite E, app_assoc|now apply Forall_app].
Qed.

Lemma JsSet_In_add (k j : Z) (s : JsSet.t) : In k (JsSet.add j s) -> k = j \/ In k s.
Proof.
  unfold JsSet.add. destruct (JsSet.has j s); [now right|].
  intro H. apply in_app_or in H. destruct H as [H|[H|[]]]; [now right|now left].
Qed.

Lemma getActiveJob_set_other (name name' : string) (jobId j : Z) (info : ActiveJobInfo)
    (l : Local) :
  j <> jobId ->
  BaseAgent.getActiveJob name' j
    (BaseAgent.with_activeJobs l name
       (JsMap.set jobId info (BaseAgent.activeJobs name (agents l))))
  = BaseAgent.getActiveJob name' j l.
Proof.
  intro Hj. unfold BaseAgent.getActiveJob. cbn [BaseAgent.with_activeJobs agents].
  destruct (string_dec name' name) as [->|Hne].
  - destruct (in_dec string_dec name (map fst (agents l))) as [Hin|Hout].
    + rewrite activeJobs_set_loaded by exact Hin. now apply JsMap_get_set_other.
    + replace (BaseAgent.set_activeJobs name
                 (JsMap.set jobId info (BaseAgent.activeJobs name (agents l))) (agents l))
        with (agents l); [reflexivity|].
      generalize (JsMap.set jobId info (BaseAgent.activeJobs name (agents l))). intro m.
      induction (agents l) as [|[n m'] ags IH]; [reflexivity|].
      cbn [map fst In BaseAgent.set_activeJobs] in *.
      destruct (String.eqb n name) eqn:E.
      * apply String.eqb_eq in E. exfalso. apply Hout. now left.
      * f_equal. apply IH. intro H. apply Hout. now right.
  - now rewrite activeJobs_set_other.
Qed.

Section Footprint.
Context {platform : Platform}.
Variable w : World.
Variable config : Config.
Variable jobId : Z.
Variable tr0 : list Event.
Variable l0 : Local.

Lemma ok_harmless_applies : forall e, is_ledger_write e = false -> applies_only_for jobId e.
Proof.
  intros [R c|R s] H; [|exact I]. destruct c; try exact I; discriminate.
Qed.

Lemma J_extend (st : St) (evs : list Event) :
  (footprint jobId tr0 l0) st -> Forall (applies_only_for jobId) evs -> (footprint jobId tr0 l0) (extend st evs).
Proof. intros [Hs Hd] F. split; [now apply since_extend|exact Hd]. Qed.

Lemma keeps_J_quiet {A} (p : Prog A) (Post : Result A -> Prop) :
  quiet (applies_only_for jobId) w p Post -> keeps w (footprint jobId tr0 l0) p (footprint jobId tr0 l0).
Proof. intro H. apply keeps_quiet with (applies_only_for jobId) Post; [exact H|apply J_extend]. Qed.

Lemma keeps_J_mark_processed : keeps w (footprint jobId tr0 l0) (Connector.mark_processed jobId) (footprint jobId tr0 l0).
Proof.
  intros st [Hs [Hp Ha]]. cbn. split; [exact Hs|]. split; [|exact Ha].
  cbn [with_processedJobs processedJobs]. intros k Hk.
  apply JsSet_In_add in Hk. destruct Hk as [->|Hk]; [now left|now apply Hp].
Qed.

Lemma keeps_J_applyForJob (applicationMessage : string) :
  keeps w (footprint jobId tr0 l0) (Connector.applyForJob config jobId applicationMessage) (footprint jobId tr0 l0).
Proof.
  unfold Connector.applyForJob. apply keeps_try_catch with (footprint jobId tr0 l0); [| |auto].
  2:{ intro e. apply keeps_bind with (footprint jobId tr0 l0); [| |auto].
      - eapply keeps_J_quiet. apply quiet_console_error. intros R s. exact I.
      - intros _. apply keeps_ret. }
  apply keeps_bind with (footprint jobId tr0 l0); [| |auto].
  { eapply keeps_J_quiet. apply quiet_getJob. apply ok_harmless_applies. }
  intro job. apply keeps_bind with (footprint jobId tr0 l0); [| |auto].
  { unfold Connector.creator_of. destruct (l_roles _); [apply keeps_ret|apply keeps_throw]. }
  intro owner. apply keeps_bind with (footprint jobId tr0 l0); [| |auto].
  { eapply keeps_J_quiet. apply quiet_call. exact I. }
  intro ownerPublicKey. destruct (_ || _); [apply keeps_throw|].
  apply keeps_bind with (footprint jobId tr0 l0); [| |auto].
  { eapply keeps_J_quiet. apply quiet_getSessionKey. apply ok_harmless_applies. }
  intro sessionKey. apply keeps_bind with (footprint jobId tr0 l0); [| |auto].
  { eapply keeps_J_quiet. apply quiet_publishToIpfs. apply ok_harmless_applies. }
  intro published. apply keeps_bind with (footprint jobId tr0 l0); [| |auto].
  { eapply keeps_J_quiet. apply quiet_call. reflexivity. }
  intro tx. apply keeps_bind with (footprint jobId tr0 l0); [| |auto].
  { eapply keeps_J_quiet. apply quiet_call. exact I. }
  intros _. apply keeps_bind with (footprint jobId tr0 l0); [| |auto].
  { apply keeps_J_mark_processed. }
  intros _. apply keeps_ret.
Qed.

Lemma keeps_J_takeJob : keeps w (footprint jobId tr0 l0) (Connector.takeJob config jobId) (footprint jobId tr0 l0).
Proof.
  unfold Connector.takeJob. apply keeps_try_catch with (footprint jobId tr0 l0); [| |auto].
  2:{ intro e. apply keeps_bind with (footprint jobId tr0 l0); [| |auto].
      - eapply keeps_J_quiet. apply quiet_console_error. intros R s. exact I.
      - intros _. apply keeps_ret. }
  apply keeps_bind with (footprint jobId tr0 l0); [| |auto].
  { eapply keeps_J_quiet. apply quiet_call. exact I. }
  intro revision. apply keeps_bind with (footprint jobId tr0 l0); [| |auto].
  { eapply keeps_J_quiet. apply quiet_lift. }
  intro w1. apply keeps_bind with (footprint jobId tr0 l0); [| |auto].
  { eapply keeps_J_quiet. apply quiet_lift. }
  intro w2. apply keeps_bind with (footprint jobId tr0 l0); [| |auto].
  { eapply keeps_J_quiet. apply quiet_lift. }
  intro signature. apply keeps_bind with (footprint jobId tr0 l0); [| |auto].
  { eapply keeps_J_quiet. apply quiet_call. reflexivity. }
  intro tx. apply keeps_bind with (footprint jobId tr0 l0); [| |auto].
  { eapply keeps_J_quiet. apply quiet_call. exact I. }
  intros _. apply keeps_bind with (footprint jobId tr0 l0); [| |auto].
  { apply keeps_J_mark_processed. }
  intros _. apply keeps_ret.
Qed.

Lemma keeps_J_addActiveJob (name : string) (job : Job) (content : string) :
  id job = jobId -> keeps w (footprint jobId tr0 l0) (BaseAgent.addActiveJob name job content) (footprint jobId tr0 l0).
Proof.
  intros Hid st [Hs [Hp Ha]]. cbn [BaseAgent.addActiveJob bind sys_call get_local put_local
                                   run snd local trace].
  split; [|split].
  - apply (since_extend tr0 (applies_only_for jobId) st [ESys DateNow] Hs). repeat constructor.
  - exact Hp.
  - intros name' j Hj. rewrite Hid. rewrite <- (Ha name' j Hj).
    now apply getActiveJob_set_other.
Qed.

Lemma keeps_J_processJob (job : Job) :
  id job = jobId -> keeps w (footprint jobId tr0 l0) (AgentManager.processJob config job) (footprint jobId tr0 l0).
Proof.
  intro Hid. unfold AgentManager.processJob. apply keeps_try_catch with (footprint jobId tr0 l0); [| |auto].
  2:{ intro e. eapply keeps_J_quiet. apply quiet_console_error. intros R s. exact I. }
  apply keeps_bind with (footprint jobId tr0 l0); [| |auto].
  { eapply keeps_J_quiet. apply quiet_getJobContent. apply ok_harmless_applies. }
  intro content. cbn [bind get_local]. apply keeps_get. intro l.
  apply keeps_weaken with (footprint jobId tr0 l0) (footprint jobId tr0 l0); [|now intros st [H _]|auto].
  destruct (negb _); [apply keeps_ret|].
  apply keeps_bind with (footprint jobId tr0 l0); [| |auto].
  { unfold AgentManager.findMatchingAgents. cbn [bind get_local]. apply keeps_get.
    intro l'. apply keeps_weaken with (footprint jobId tr0 l0) (footprint jobId tr0 l0); [|now intros st [H _]|auto].
    eapply keeps_J_quiet. apply quiet_findMatchingAgents_loop. apply ok_harmless_applies. }
  intros [|name rest]; [apply keeps_ret|].
  apply keeps_bind with (footprint jobId tr0 l0); [| |auto].
  { eapply keeps_J_quiet. apply quiet_call. exact I. }
  intro applicationMessage. apply keeps_bind with (footprint jobId tr0 l0); [| |auto].
  { rewrite Hid. apply keeps_J_applyForJob. }
  intro applicationSuccess. destruct (negb applicationSuccess); [apply keeps_ret|].
  apply keeps_bind with (footprint jobId tr0 l0); [| |auto].
  { destruct (negb (multipleApplicants job)); [|apply keeps_ret].
    apply keeps_bind with (footprint jobId tr0 l0); [| |auto].
    - rewrite Hid. apply keeps_J_takeJob.
    - intros _. apply keeps_ret. }
  intros _. now apply keeps_J_addActiveJob.
Qed.

End Footprint.

Section NewJobs.
Context {platform : Platform}.
Variable w : World.
Variable config : Config.

Lemma footprint_initial (jobId : Z) (st : St) : footprint jobId (trace st) (local st) st.
Proof.
  split; [exists []; split; [now rewrite app_nil_r|constructor]|].
  split; [intros k Hk; now right|reflexivity].
Qed.

Lemma isRelevantJob_closed (processed : JsSet.t) (job : Job) (content : string) :
  state job <> 0%Z -> Connector.isRelevantJob config processed job content = false.
Proof.
  intro H. unfold Connector.isRelevantJob. apply Z.eqb_neq in H. now rewrite H.
Qed.

(** X13. What handling a new job touches.  [processJob(job)] never raises.
    The only writes to the ledger it can make are an application and a
    take for this very job: never a write about another job, never a
    delivery.  In the memory it can change only the bookkeeping of this
    job: no other job number enters [processedJobs] and no record kept
    under another job number changes.  When the job is not open (its
    state is not 0) it writes nothing to the ledger and leaves the memory
    as it was. *)
Theorem processJob_footprint (job : Job) (st : St) :
  let st' := snd (run w (AgentManager.processJob config job) st) in
  fst (run w (AgentManager.processJob config job) st) = inr tt /\
  (exists evs, trace st' = trace st ++ evs /\ Forall (applies_only_for (id job)) evs) /\
  differs_only_at (id job) (local st) (local st') /\
  (state job <> 0%Z ->
   local st' = local st /\
   exists evs, trace st' = trace st ++ evs /\ Forall (fun e => is_ledger_write e = false) evs).
Proof.
  cbv zeta.
  pose proof (keeps_J_processJob w config (id job) (trace st) (local st) job eq_refl st
                (footprint_initial (id job) st)) as [Hs Hd].
  split; [|split; [exact Hs|split; [exact Hd|]]].
  - unfold AgentManager.processJob. rewrite run_try_catch.
    match goal with |- context [run w ?body st] =>
      destruct (run w body st) as [[e|[]] st1] end; [|reflexivity].
    now rewrite run_console_error.
  - clear Hs Hd. intro Hclosed. unfold AgentManager.processJob. rewrite run_try_catch, run_bind.
    destruct (quiet_getJobContent harmless (fun e H => H) w config job st)
      as [evs [E [F [content P]]]].
    destruct (run w (Connector.getJobContent config job) st) as [res st1].
    cbn [fst snd] in *. subst res st1. cbn [bind get_local run extend local].
    rewrite isRelevantJob_closed by exact Hclosed. cbn [negb run snd local trace].
    split; [reflexivity|]. now exists evs.
Qed.

End NewJobs.

Lemma getActiveJob_shrinks (l : Local) (name : string) (m : JsMap.t ActiveJobInfo) :
  (forall j, JsMap.get j m <> None ->
             JsMap.get j (BaseAgent.activeJobs name (agents l)) <> None) ->
  forall name' j,
    BaseAgent.getActiveJob name' j (BaseAgent.with_activeJobs l name m) <> None ->
    BaseAgent.getActiveJob name' j l <> None.
Proof.
  intros Hm name' j. unfold BaseAgent.getActiveJob. cbn [BaseAgent.with_activeJobs agents].
  destruct (string_dec name' name) as [->|Hne].
  - destruct (activeJobs_set name name m (agents l)) as [E|E]; rewrite E; [apply Hm|auto].
  - now rewrite activeJobs_set_other.
Qed.

Lemma for_each_returns {X} (w : World) (xs : list X) (body : X -> Prog unit) :
  (forall x st, fst (run w (body x) st) = inr tt) ->
  forall st, fst (run w (for_each xs body) st) = inr tt.
Proof.
  intro H. induction xs as [|x xs IH]; intro st; [reflexivity|].
  cbn [for_each]. rewrite run_bind. specialize (H x st).
  destruct (run w (body x) st) as [[e|[]] st1]; [discriminate|]. apply IH.
Qed.

Section ActiveTick.
Context {platform : Platform}.
Variable w : World.
Variable config : Config.
Variable tr0 : list Event.
Variable l0 : Local.

Lemma ok_harmless_delivers : forall e, is_ledger_write e = false -> delivers_only e.
Proof.
  intros [R c|R s] H; [|exact I]. destruct c; try exact I; discriminate.
Qed.

Lemma active_extend (st : St) (evs : list Event) :
  active_footprint tr0 l0 st -> Forall delivers_only evs ->
  active_footprint tr0 l0 (extend st evs).
Proof. intros [Hs Hd] F. split; [now apply since_extend|exact Hd]. Qed.

Lemma keeps_active_quiet {A} (p : Prog A) (Post : Result A -> Prop) :
  quiet delivers_only w p Post ->
  keeps w (active_footprint tr0 l0) p (active_footprint tr0 l0).
Proof. intro H. apply keeps_quiet with delivers_only Post; [exact H|apply active_extend]. Qed.

Lemma keeps_active_remove (name : string) (j : Z) :
  keeps w (active_footprint tr0 l0) (BaseAgent.removeActiveJob name j)
    (active_footprint tr0 l0).
Proof.
  intros st [Hs [Hp Ha]]. cbn. split; [exact Hs|]. split; [exact Hp|].
  intros name' j' H. apply Ha. revert name' j' H. apply getActiveJob_shrinks.
  intros k Hk. destruct (Z.eq_dec k j) as [->|Hne].
  - now rewrite JsMap_get_delete in Hk.
  - now rewrite JsMap_get_delete_other in Hk.
Qed.

Lemma keeps_active_update (name : string) (j : Z) (status : Status) (data : option string) :
  keeps w (active_footprint tr0 l0) (BaseAgent.updateActiveJob name j status data)
    (active_footprint tr0 l0).
Proof.
  intros st [Hs [Hp Ha]]. unfold BaseAgent.updateActiveJob. cbn [bind get_local run].
  destruct (JsMap.get j (BaseAgent.activeJobs name (agents (local st)))) as [jobInfo|] eqn:Hget;
    cbn; [|now repeat split].
  split; [exact Hs|]. split; [exact Hp|].
  intros name' j' H. apply Ha. revert name' j' H. apply getActiveJob_shrinks.
  intros k Hk. destruct (Z.eq_dec k j) as [->|Hne].
  - rewrite Hget. discriminate.
  - now rewrite JsMap_get_set_other in Hk.
Qed.

Lemma keeps_active_processActiveJob (name : string) (entry : Z * ActiveJobInfo) :
  keeps w (active_footprint tr0 l0) (AgentManager.processActiveJob config name entry)
    (active_footprint tr0 l0).
Proof.
  destruct entry as [j info0]. unfold AgentManager.processActiveJob.
  apply keeps_try_catch with (active_footprint tr0 l0); [| |auto].
  2:{ intro e. eapply keeps_active_quiet. apply quiet_console_error. intros R s. exact I. }
  apply keeps_bind with (active_footprint tr0 l0); [| |auto].
  { eapply keeps_active_quiet. apply quiet_getJob. apply ok_harmless_delivers. }
  intro currentJob. apply keeps_bind with (active_footprint tr0 l0); [| |auto].
  { unfold AgentManager.worker_of. destruct (l_roles _);
      [apply keeps_ret | apply keeps_throw]. }
  intro currentWorker. destruct (negb _); [apply keeps_active_remove|].
  cbn [bind get_local]. apply keeps_get. intro l.
  apply keeps_weaken with (active_footprint tr0 l0) (active_footprint tr0 l0);
    [|now intros st [H _]|auto].
  destruct (_ && _ && _).
  - apply keeps_bind with (active_footprint tr0 l0); [| |auto].
    { apply keeps_active_update. }
    intros _. apply keeps_bind with (active_footprint tr0 l0); [| |auto].
    { eapply keeps_active_quiet. apply quiet_call. exact I. }
    intro result. apply keeps_bind with (active_footprint tr0 l0); [| |auto].
    { eapply keeps_active_quiet. apply quiet_call. exact I. }
    intro packagedResult. apply keeps_bind with (active_footprint tr0 l0); [| |auto].
    { eapply keeps_active_quiet. apply quiet_deliverResult; [apply ok_harmless_delivers|].
      intro h. exact I. }
    intros [|]; apply keeps_active_update.
  - destruct (_ >? 1)%Z; [apply keeps_active_remove | apply keeps_ret].
Qed.

Lemma keeps_active_processActiveJobs :
  keeps w (active_footprint tr0 l0) (AgentManager.processActiveJobs config)
    (active_footprint tr0 l0).
Proof.
  unfold AgentManager.processActiveJobs. cbn [bind get_local]. apply keeps_get.
  intro l1. apply keeps_weaken with (active_footprint tr0 l0) (active_footprint tr0 l0);
    [|now intros st [H _]|auto].
  apply keeps_for_each. intros name _. cbn [bind get_local]. apply keeps_get. intro l.
  apply keeps_weaken with (active_footprint tr0 l0) (active_footprint tr0 l0);
    [|now intros st [H _]|auto].
  destruct (JsMap.size _ =? 0); [apply keeps_ret|].
  apply keeps_for_each. intros entry _. apply keeps_active_processActiveJob.
Qed.

End ActiveTick.

Section ActiveTickTheorem.
Context {platform : Platform}.
Variable w : World.
Variable config : Config.

Lemma processActiveJob_returns (name : string) (entry : Z * ActiveJobInfo) (st : St) :
  fst (run w (AgentManager.processActiveJob config name entry) st) = inr tt.
Proof.
  destruct entry as [j info0]. unfold AgentManager.processActiveJob.
  rewrite run_try_catch.
  match goal with |- context [run w ?body st] =>
    destruct (run w body st) as [[e|[]] st1] end; [|reflexivity].
  now rewrite run_console_error.
Qed.

(** X14. What working on the active jobs touches.  [processActiveJobs]
    never raises.  It never applies for a job and never takes one: the
    only writes to the ledger it can make are deliveries.  It leaves
    [processedJobs] as it was, and it adds no record: every job number an
    agent has a record of afterwards, it had a record of before. *)
Theorem processActiveJobs_footprint (st : St) :
  let st' := snd (run w (AgentManager.processActiveJobs config) st) in
  fst (run w (AgentManager.processActiveJobs config) st) = inr tt /\
  (exists evs, trace st' = trace st ++ evs /\ Forall delivers_only evs) /\
  processedJobs (local st') = processedJobs (local st) /\
  (forall name j,
     BaseAgent.getActiveJob name j (local st') <> None ->
     BaseAgent.getActiveJob name j (local st) <> None).
Proof.
  cbv zeta. split.
  - unfold AgentManager.processActiveJobs. cbn [bind get_local run].
    apply for_each_returns. intros name st1. cbn [bind get_local run].
    destruct (JsMap.size _ =? 0); [reflexivity|].
    apply for_each_returns. intros entry st2. apply processActiveJob_returns.
  - assert (Hinit : active_footprint (trace st) (local st) st).
    { split; [exists []; split; [now rewrite app_nil_r|constructor]|].
      split; [reflexivity|auto]. }
    pose proof (keeps_active_processActiveJobs w config (trace st) (local st) st Hinit)
      as [Hs [Hp Ha]].
    split; [exact Hs|]. split; [exact Hp|exact Ha].
Qed.

End ActiveTickTheorem.

Section Execution.
Context {platform : Platform}.
Variable w : World.
Variable config : Config.




End Execution.




Section Dropped.
Context {platform : Platform}.
Variable w : World.
Variable config : Config.


End Dropped.


(** ** What a program can ever call *)

Section MakesOnly.
Variable ok : Event -> Prop.

Lemma makes_only_bind {A B} (p : Prog A) (f : A -> Prog B) :
  makes_only ok p -> (forall a, makes_only ok (f a)) -> makes_only ok (bind p f).
Proof.
  intros Hp Hf. induction p as [a|e|R c k IH|R s k IH|k IH|l k IH]; cbn [bind makes_only] in *.
  - apply Hf.
  - exact I.
  - destruct Hp as [Hc Hk]. split; [exact Hc|]. intro r. apply IH, Hk.
  - destruct Hp as [Hs Hk]. split; [exact Hs|]. intro r. apply IH, Hk.
  - intro l. apply IH, Hp.
  - apply IH, Hp.
Qed.

Lemma makes_only_try_catch {A} (p : Prog A) (h : Exn -> Prog A) :
  makes_only ok p -> (forall e, makes_only ok (h e)) -> makes_only ok (try_catch p h).
Proof.
  intros Hp Hh. induction p as [a|e|R c k IH|R s k IH|k IH|l k IH];
    cbn [try_catch makes_only] in *.
  - exact I.
  - apply Hh.
  - destruct Hp as [Hc Hk]. split; [exact Hc|]. intro r. apply IH, Hk.
  - destruct Hp as [Hs Hk]. split; [exact Hs|]. intro r. apply IH, Hk.
  - intro l. apply IH, Hp.
  - apply IH, Hp.
Qed.

Lemma makes_only_call {R} (c : Call R) : ok (ECall c) -> makes_only ok (call c).
Proof. intro H. split; [exact H|]. now intros [e|v]. Qed.

Lemma makes_only_sys {R} (s : Sys R) : ok (ESys s) -> makes_only ok (sys_call s).
Proof. intro H. split; [exact H|]. now intro r. Qed.

Lemma makes_only_lift {A} (r : Result A) : makes_only ok (lift r).
Proof. now destruct r. Qed.

Lemma makes_only_attempt {A} (p : Prog A) : makes_only ok p -> makes_only ok (attempt p).
Proof.
  intro H. unfold attempt. apply makes_only_try_catch; [|now intro e].
  apply makes_only_bind; [exact H|now intro a].
Qed.

Lemma makes_only_for_each {X} (xs : list X) (body : X -> Prog unit) :
  (forall x, In x xs -> makes_only ok (body x)) -> makes_only ok (for_each xs body).
Proof.
  induction xs as [|x xs IH]; intro H; cbn [for_each]; [exact I|].
  apply makes_only_bind; [apply H; now left|]. intros _. apply IH.
  intros y Hy. apply H. now right.
Qed.

(** Running a program that makes only such calls adds only such calls to
    the history. *)
Lemma makes_only_run {A} (w : World) (p : Prog A) (st : St) :
  makes_only ok p ->
  exists evs, trace (snd (run w p st)) = trace st ++ evs /\ Forall ok evs.
Proof.
  revert st. induction p as [a|e|R c k IH|R s k IH|k IH|l k IH]; intros st Hp;
    cbn [run makes_only] in *.
  - exists []. now rewrite app_nil_r.
  - exists []. now rewrite app_nil_r.
  - destruct Hp as [Hc Hk].
    destruct (IH (answer w (trace st) c)
                {| local := local st; trace := trace st ++ [ECall c] |} (Hk _))
      as [evs [E F]].
    exists (ECall c :: evs). rewrite E. cbn [trace]. rewrite <- app_assoc.
    split; [reflexivity|now constructor].
  - destruct Hp as [Hs Hk].
    destruct (IH (sys w (trace st) s)
                {| local := local st; trace := trace st ++ [ESys s] |} (Hk _))
      as [evs [E F]].
    exists (ESys s :: evs). rewrite E. cbn [trace]. rewrite <- app_assoc.
    split; [reflexivity|now constructor].
  - apply IH, Hp.
  - destruct (IH {| local := l; trace := trace st |} Hp) as [evs [E F]].
    now exists evs.
Qed.

End MakesOnly.

Section WhatIsRead.
Context {platform : Platform}.
Variable config : Config.
Variable ok : Event -> Prop.
Hypothesis ok_other : forall e, ledger_reads [e] = [] -> ok e.

Lemma ok_sys_event {R} (s : Sys R) : ok (ESys s).
Proof. now apply ok_other. Qed.

Lemma makes_only_console_error (context : string) (e : Exn) :
  makes_only ok (console_error context e).
Proof. apply makes_only_sys, ok_sys_event. Qed.

Lemma makes_only_getFromIpfs_loop (gs : list string) (cid : string) (key : option string)
    (le : option Exn) :
  makes_only ok (Encryption.getFromIpfs_loop gs cid key le).
Proof.
  revert le. induction gs as [|g gs IH]; intro le; cbn [Encryption.getFromIpfs_loop].
  - now destruct le.
  - apply makes_only_bind.
    + apply makes_only_attempt, makes_only_bind;
        [apply makes_only_call; now apply ok_other|].
      intro content. destruct (Encryption.truthy_opt key);
        [apply makes_only_lift|exact I].
    + intros [e|content]; [apply IH|exact I].
Qed.

Lemma makes_only_getJobContent (job : Job) :
  makes_only ok (Connector.getJobContent config job).
Proof.
  unfold Connector.getJobContent. destruct (contentHash job) as [h|]; [|exact I].
  destruct (_ || _); [exact I|]. apply makes_only_try_catch.
  - apply makes_only_bind; [apply makes_only_lift|]. intro cid.
    apply makes_only_bind; [apply makes_only_getFromIpfs_loop|now intro].
  - intro e. apply makes_only_bind; [apply makes_only_console_error|now intro].
Qed.

Lemma makes_only_getJob (jobId : Z) :
  ok (ECall (MarketplaceGetJob jobId)) -> makes_only ok (Connector.getJob jobId).
Proof.
  intro H. unfold Connector.getJob. apply makes_only_try_catch.
  - apply makes_only_bind; [now apply makes_only_call|now intro].
  - intro e. apply makes_only_bind; [apply makes_only_console_error|now intro].
Qed.

Lemma makes_only_findMatchingAgents_loop (names : list string) (job : Job)
    (content : string) (acc : list string) :
  makes_only ok (AgentManager.findMatchingAgents_loop names job content acc).
Proof.
  revert acc. induction names as [|n names IH]; intro acc;
    cbn [AgentManager.findMatchingAgents_loop]; [exact I|].
  apply makes_only_bind; [apply makes_only_call; now apply ok_other|].
  intro m. apply IH.
Qed.

Lemma makes_only_randomBytes (n : nat) : makes_only ok (randomBytes n).
Proof.
  induction n as [|n IH]; cbn [randomBytes]; [exact I|].
  apply makes_only_bind; [apply makes_only_sys, ok_sys_event|]. intro b.
  apply makes_only_bind; [exact IH|now intro].
Qed.

Lemma makes_only_getSessionKey (wl : Wallet) (otherPublicKey : string) (jobId : Z) :
  makes_only ok (Encryption.getSessionKey wl otherPublicKey jobId).
Proof.
  unfold Encryption.getSessionKey. apply makes_only_try_catch.
  - apply makes_only_bind; [apply makes_only_lift|now intro].
  - intro e. apply makes_only_bind; [apply makes_only_console_error|now intro].
Qed.

Lemma makes_only_publishToIpfs (content : string) (encryptionKey : option string) :
  makes_only ok (Encryption.publishToIpfs config content encryptionKey).
Proof.
  unfold Encryption.publishToIpfs. apply makes_only_bind.
  - destruct encryptionKey as [key|]; [|exact I]. destruct (Encryption.truthy key); [|exact I].
    apply makes_only_bind; [|now intro]. unfold Encryption.encryptUtf8Data.
    apply makes_only_bind; [apply makes_only_randomBytes|]. intro iv. apply makes_only_lift.
  - intro dataToUpload. apply makes_only_try_catch.
    + apply makes_only_bind; [apply makes_only_sys, ok_sys_event|]. intro now1.
      apply makes_only_bind; [apply makes_only_sys, ok_sys_event|]. intro now2.
      apply makes_only_bind; [apply makes_only_call; now apply ok_other|now intro].
    + intro e. apply makes_only_bind; [apply makes_only_console_error|now intro].
Qed.

Lemma makes_only_mark_processed (jobId : Z) : makes_only ok (Connector.mark_processed jobId).
Proof. now intro l. Qed.

Lemma makes_only_applyForJob (jobId : Z) (applicationMessage : string) :
  ok (ECall (MarketplaceGetJob jobId)) ->
  makes_only ok (Connector.applyForJob config jobId applicationMessage).
Proof.
  intro H. unfold Connector.applyForJob. apply makes_only_try_catch.
  2:{ intro e. apply makes_only_bind; [apply makes_only_console_error|now intro]. }
  apply makes_only_bind; [now apply makes_only_getJob|]. intro job.
  apply makes_only_bind.
  { unfold Connector.creator_of. now destruct (l_roles _). }
  intro owner. apply makes_only_bind; [apply makes_only_call; now apply ok_other|].
  intro ownerPublicKey. destruct (_ || _); [exact I|].
  apply makes_only_bind; [apply makes_only_getSessionKey|]. intro sessionKey.
  apply makes_only_bind; [apply makes_only_publishToIpfs|]. intro published.
  apply makes_only_bind; [apply makes_only_call; now apply ok_other|]. intro tx.
  apply makes_only_bind; [apply makes_only_call; now apply ok_other|]. intros _.
  apply makes_only_bind; [apply makes_only_mark_processed|now intro].
Qed.

Lemma makes_only_takeJob (jobId : Z) : makes_only ok (Connector.takeJob config jobId).
Proof.
  unfold Connector.takeJob. apply makes_only_try_catch.
  2:{ intro e. apply makes_only_bind; [apply makes_only_console_error|now intro]. }
  apply makes_only_bind; [apply makes_only_call; now apply ok_other|]. intro revision.
  apply makes_only_bind; [apply makes_only_lift|]. intro w1.
  apply makes_only_bind; [apply makes_only_lift|]. intro w2.
  apply makes_only_bind; [apply makes_only_lift|]. intro signature.
  apply makes_only_bind; [apply makes_only_call; now apply ok_other|]. intro tx.
  apply makes_only_bind; [apply makes_only_call; now apply ok_other|]. intros _.
  apply makes_only_bind; [apply makes_only_mark_processed|now intro].
Qed.

Lemma makes_only_processJob (job : Job) :
  ok (ECall (MarketplaceGetJob (id job))) ->
  makes_only ok (AgentManager.processJob config job).
Proof.
  intro H. unfold AgentManager.processJob. apply makes_only_try_catch.
  2:{ intro e. apply makes_only_console_error. }
  apply makes_only_bind; [apply makes_only_getJobContent|]. intro content.
  cbn [bind get_local makes_only]. intro l. destruct (negb _); [exact I|].
  apply makes_only_bind.
  { unfold AgentManager.findMatchingAgents. cbn [bind get_local makes_only]. intro l'.
    apply makes_only_findMatchingAgents_loop. }
  intros [|name rest]; [exact I|].
  apply makes_only_bind; [apply makes_only_call; now apply ok_other|].
  intro applicationMessage.
  apply makes_only_bind; [now apply makes_only_applyForJob|].
  intro applicationSuccess. destruct (negb applicationSuccess); [exact I|].
  apply makes_only_bind.
  { destruct (negb (multipleApplicants job)); [|exact I].
    apply makes_only_bind; [apply makes_only_takeJob|now intro]. }
  intros _. unfold BaseAgent.addActiveJob.
  apply makes_only_bind; [apply makes_only_sys, ok_sys_event|]. intro now.
  now intro l'.
Qed.

End WhatIsRead.

Section Window.
Context {platform : Platform}.
Variable w : World.
Variable config : Config.

Lemma reads_from_other (lo : Z) (e : Event) : ledger_reads [e] = [] -> reads_from lo e.
Proof.
  destruct e as [R c|R s]; [|now intros _]. destruct c; try (now intros _).
  cbn. discriminate.
Qed.

Lemma makes_only_getJobs_loop (lo : Z) (n : nat) (i : Z) (jobs : list Job) :
  (lo <= i)%Z -> makes_only (reads_from lo) (Connector.getJobs_loop config n i jobs).
Proof.
  revert i jobs. induction n as [|n IH]; intros i jobs Hi; cbn [Connector.getJobs_loop];
    [exact I|].
  apply makes_only_bind.
  - apply makes_only_attempt, makes_only_bind; [now apply makes_only_call|now intro].
  - intros [e|job].
    + apply makes_only_bind;
        [apply makes_only_console_error, reads_from_other|].
      intros _. apply IH. lia.
    + apply IH. lia.
Qed.

Lemma makes_only_getJobs (startIdx count : Z) :
  makes_only (reads_from startIdx) (Connector.getJobs config startIdx count).
Proof.
  unfold Connector.getJobs. apply makes_only_try_catch.
  - apply makes_only_bind; [now apply makes_only_call|]. intro jobCount.
    apply makes_only_getJobs_loop. lia.
  - intro e. apply makes_only_bind;
      [apply makes_only_console_error, reads_from_other|now intro].
Qed.

Lemma getJobs_ids (startIdx count : Z) (st st' : St) (jobs : list Job) :
  run w (Connector.getJobs config startIdx count) st = (inr jobs, st') ->
  Forall (fun job => (startIdx <= id job)%Z) jobs.
Proof.
  unfold Connector.getJobs. rewrite run_try_catch, run_bind, run_call.
  destruct (answer w (trace st) JobsLength) as [e|totalJobs].
  - rewrite run_bind, run_console_error. cbn [run]. discriminate.
  - match goal with |- context [Connector.getJobs_loop config ?n startIdx [] ] =>
      destruct (getJobs_loop_spec w config n startIdx []
                  {| local := local st; trace := trace st ++ [ECall JobsLength] |})
        as [new [evs [Hrun [_ [_ [_ [Hrange _]]]]]]]
    end.
    rewrite Hrun. cbn [app]. intro H. injection H as <- _.
    eapply Forall_impl; [|exact Hrange]. cbv beta. intros job Hjob. lia.
Qed.

(** X18. The window of a poll.  [monitorNewJobs] reads the number of jobs
    and then looks only at the last ten: when the count it reads is
    [jobCount], no job numbered below [max(0, jobCount - 10)] is read from
    the ledger during the poll, by the listing or by the handling of a
    job; when the count cannot be read, no job is read at all.  Jobs
    posted more than ten places before the end of the list are never
    examined by a poll. *)
Theorem monitorNewJobs_window (st : St) :
  let st' := snd (run w (AgentManager.monitorNewJobs config) st) in
  exists evs,
    trace st' = trace st ++ evs /\
    match answer w (trace st) JobsLength with
    | inl _ => ledger_reads evs = []
    | inr jobCount => Forall (reads_from (Z.max 0 (jobCount - 10))) evs
    end.
Proof.
  cbv zeta. unfold AgentManager.monitorNewJobs.
  rewrite run_try_catch, run_bind, run_call.
  destruct (answer w (trace st) JobsLength) as [e|jobCount].
  - rewrite run_bind, run_console_error. cbn [run snd trace].
    eexists. rewrite <- app_assoc. split; reflexivity.
  - set (lo := Z.max 0 (jobCount - 10)). rewrite run_bind.
    set (st1 := {| local := local st; trace := trace st ++ [ECall JobsLength] |}).
    destruct (makes_only_run (reads_from lo) w (Connector.getJobs config lo 0) st1
                (makes_only_getJobs lo 0)) as [evs1 [E1 F1]].
    pose proof (getJobs_ids lo 0 st1) as Hids.
    destruct (run w (Connector.getJobs config lo 0) st1) as [[e|jobs] st2]; cbn [snd] in E1.
    + rewrite run_bind, run_console_error. cbn [run snd trace].
      exists ([ECall JobsLength] ++ evs1 ++ [ESys (ConsoleError "Error monitoring new jobs:" e)]).
      split; [rewrite E1; unfold st1; cbn [trace]; now rewrite <- !app_assoc|].
      apply Forall_app. split; [now repeat constructor|].
      apply Forall_app. split; [exact F1|now repeat constructor].
    + specialize (Hids st2 jobs eq_refl).
      destruct (makes_only_run (reads_from lo) w
                  (for_each jobs (AgentManager.processJob config)) st2)
        as [evs2 [E2 F2]].
      { apply makes_only_for_each. intros job Hin.
        apply makes_only_processJob; [apply reads_from_other|].
        rewrite Forall_forall in Hids. exact (Hids job Hin). }
      destruct (run w (for_each jobs (AgentManager.processJob config)) st2)
        as [[e|[]] st3]; cbn [snd] in E2.
      * rewrite run_bind, run_console_error. cbn [run snd trace].
        exists ([ECall JobsLength] ++ evs1 ++ evs2 ++
                [ESys (ConsoleError "Error monitoring new jobs:" e)]).
        split; [rewrite E2, E1; unfold st1; cbn [trace]; now rewrite <- !app_assoc|].
        apply Forall_app. split; [now repeat constructor|].
        apply Forall_app. split; [exact F1|].
        apply Forall_app. split; [exact F2|now repeat constructor].
      * cbn [snd]. exists ([ECall JobsLength] ++ evs1 ++ evs2).
        split; [rewrite E2, E1; unfold st1; cbn [trace]; now rewrite <- !app_assoc|].
        apply Forall_app. split; [now repeat constructor|].
        apply Forall_app. split; [exact F1|exact F2].
Qed.

End Window.

(** ** Stopping the timers *)

Section Stopping.
Context {platform : Platform}.
Variable config : Config.
Variable w : World.

Lemma set_nth_length {X} (i : nat) (x : X) (l : list X) :
  List.length (Monitoring.set_nth i x l) = List.length l.
Proof.
  revert i. induction l as [|y l IH]; intros [|i]; cbn [Monitoring.set_nth List.length];
    try reflexivity. now rewrite IH.
Qed.

(** Resuming tick [i] replaces it by a tick of the same timer; a tick that
    awaits nothing stays as it is. *)
Lemma in_flight_set_nth (t : Timer) (i : nat) (k k' : Tick) (l : list Tick) :
  nth_error l i = Some k -> tick_timer k' = tick_timer k ->
  (tick_awaits k = None -> tick_awaits k' = None) ->
  List.length
    (filter (fun k => Timer_eqb (tick_timer k) t &&
                      match tick_awaits k with Some _ => true | None => false end)
       (Monitoring.set_nth i k' l))
  <= List.length
       (filter (fun k => Timer_eqb (tick_timer k) t &&
                         match tick_awaits k with Some _ => true | None => false end) l).
Proof.
  revert i. induction l as [|y l IH]; intros [|i] Hnth Ht Ha; cbn [nth_error] in Hnth;
    try discriminate.
  - injection Hnth as ->. cbn [Monitoring.set_nth filter]. rewrite Ht.
    destruct (Timer_eqb (tick_timer k) t); cbn [andb]; [|lia].
    destruct (tick_awaits k) as [a|]; [|now rewrite (Ha eq_refl)].
    destruct (tick_awaits k'); cbn [List.length]; lia.
  - cbn [Monitoring.set_nth filter]. specialize (IH i Hnth Ht Ha).
    destruct (_ && _); cbn [List.length]; lia.
Qed.

Lemma step_stopped (s : System) (h : Happening) :
  intervals_set s = false ->
  intervals_set (Monitoring.step config w s h) = false /\
  List.length (ticks (Monitoring.step config w s h)) = List.length (ticks s) /\
  forall t, Monitoring.in_flight t (Monitoring.step config w s h)
            <= Monitoring.in_flight t s.
Proof.
  intro Hoff. destruct h as [t|i|]; cbn [Monitoring.step].
  - rewrite Hoff. auto.
  - destruct (nth_error (ticks s) i) as [[t [a|]]|] eqn:Hnth; auto.
    destruct (EventLoop.resume w a (memory s)) as [a' st'].
    cbn [intervals_set ticks]. split; [exact Hoff|]. split; [apply set_nth_length|].
    intro t'. unfold Monitoring.in_flight. cbn [ticks].
    apply in_flight_set_nth with {| tick_timer := t; tick_awaits := Some a |};
      [exact Hnth|reflexivity|discriminate].
  - unfold Monitoring.stopJobMonitoring. cbn [intervals_set ticks]. auto.
Qed.

(** X19. Stopping.  [stopJobMonitoring] changes neither the memory nor the
    ticks already started.  After it, whatever happens next (intervals
    coming due, awaited calls being answered, further stops), no new tick
    is started: the number of ticks stays the same and, for each timer,
    the number of its ticks in flight can only go down.  The ticks in
    flight are not cancelled: when the call that a tick awaits is
    answered, the tick goes on exactly as it would have without the
    stop. *)
Theorem stop_prevents_new_ticks (s : System) (hs : list Happening) :
  memory (Monitoring.stopJobMonitoring s) = memory s /\
  ticks (Monitoring.stopJobMonitoring s) = ticks s /\
  (forall i,
     memory (Monitoring.step config w (Monitoring.stopJobMonitoring s) (Answered i))
     = memory (Monitoring.step config w s (Answered i)) /\
     ticks (Monitoring.step config w (Monitoring.stopJobMonitoring s) (Answered i))
     = ticks (Monitoring.step config w s (Answered i))) /\
  let s' := Monitoring.exec config w (Monitoring.stopJobMonitoring s) hs in
  intervals_set s' = false /\
  List.length (ticks s') = List.length (ticks s) /\
  forall t, Monitoring.in_flight t s' <= Monitoring.in_flight t s.
Proof.
  split; [reflexivity|]. split; [reflexivity|].
  split.
  { intro i. cbn [Monitoring.step Monitoring.stopJobMonitoring ticks memory].
    destruct (nth_error (ticks s) i) as [[t [a|]]|]; [|now split..].
    destruct (EventLoop.resume w a (memory s)) as [a' st']. now split. }
  cbv zeta.
  assert (H : forall s0, intervals_set s0 = false ->
              intervals_set (Monitoring.exec config w s0 hs) = false /\
              List.length (ticks (Monitoring.exec config w s0 hs)) = List.length (ticks s0) /\
              forall t, Monitoring.in_flight t (Monitoring.exec config w s0 hs)
                        <= Monitoring.in_flight t s0).
  { unfold Monitoring.exec. induction hs as [|h hs' IH]; intros s0 Hoff; [auto|].
    cbn [fold_left]. destruct (step_stopped s0 h Hoff) as [H1 [H2 H3]].
    destruct (IH _ H1) as [I1 [I2 I3]].
    split; [exact I1|]. split; [now rewrite I2|].
    intro t. specialize (I3 t). specialize (H3 t). lia. }
  apply (H (Monitoring.stopJobMonitoring s)). reflexivity.
Qed.

End Stopping.

(** ** The configuration *)

Lemma includes_name_In (names : list string) (name : string) :
  includes_name names name = true <-> In name names.
Proof.
  unfold includes_name. rewrite existsb_exists. split.
  - intros [x [Hin Heq]]. apply String.eqb_eq in Heq. now subst.
  - intro H. exists name. split; [exact H|apply String.eqb_refl].
Qed.

Lemma validate_agents_all (configs : AgentConfigs) (agents : list string) :
  validate_agents configs agents = inr tt <->
  Forall (fun agent => validate_agent configs agent = inr tt) agents.
Proof.
  induction agents as [|a agents IH]; cbn [validate_agents].
  - split; [constructor|reflexivity].
  - destruct (validate_agent configs a) as [e|[]] eqn:E.
    + split; [discriminate|]. intro H. inversion H. congruence.
    + rewrite IH. split; [now constructor|]. intro H. now inversion H.
Qed.

Lemma missing_is_set (env : Env) (name : string) :
  missing (env name) = false <-> is_set env name.
Proof. unfold missing, is_set. now rewrite negb_false_iff. Qed.

Section Validation.
Variable env : Env.
Variable now : Z.

Lemma validate_agent_ready (agent : string) :
  In agent (enabledAgents (loadConfig env now)) ->
  validate_agent (agentConfig (loadConfig env now)) agent = inr tt <->
  agent_ready env agent.
Proof.
  intro Hin. apply includes_name_In in Hin. cbn [loadConfig enabledAgents] in Hin.
  unfold validate_agent, has_agentConfig, agent_ready.
  cbn [loadConfig agentConfig discord_bot telegram_bot twitter_bot].
  destruct (String.eqb agent "discord-bot") eqn:Ed.
  { apply String.eqb_eq in Ed. subst agent. rewrite Hin.
    cbn [negb discord_token String.eqb Ascii.eqb Bool.eqb andb].
    destruct (missing (env "DISCORD_TOKEN")) eqn:Hm.
    - split; [discriminate|]. intros [[_ H]|[[C _]|[[C _]|C]]]; try discriminate.
      + apply missing_is_set in H. congruence.
      + cbn in C. repeat (destruct C as [C|C]; [discriminate|]). contradiction.
    - apply missing_is_set in Hm. split; [intros _|reflexivity]. now left. }
  destruct (String.eqb agent "telegram-bot") eqn:Et.
  { apply String.eqb_eq in Et. subst agent. rewrite Hin.
    cbn [negb telegram_token String.eqb Ascii.eqb Bool.eqb andb].
    destruct (missing (env "TELEGRAM_BOT_TOKEN")) eqn:Hm.
    - split; [discriminate|]. intros [[C _]|[[_ H]|[[C _]|C]]]; try discriminate.
      + apply missing_is_set in H. congruence.
      + cbn in C. repeat (destruct C as [C|C]; [discriminate|]). contradiction.
    - apply missing_is_set in Hm. split; [intros _|reflexivity]. right. now left. }
  destruct (String.eqb agent "twitter-bot") eqn:Ew.
  { apply String.eqb_eq in Ew. subst agent. rewrite Hin.
    cbn [negb twitter_apiKey twitter_apiSecret twitter_accessToken twitter_accessSecret].
    unfold missing_names. cbn [filter snd].
    destruct (missing (env "TWITTER_API_KEY")) eqn:H1;
      destruct (missing (env "TWITTER_API_SECRET")) eqn:H2;
      destruct (missing (env "TWITTER_ACCESS_TOKEN")) eqn:H3;
      destruct (missing (env "TWITTER_ACCESS_SECRET")) eqn:H4;
      cbn [map fst List.length Nat.eqb negb];
      try (split; [discriminate|];
           intros [[C _]|[[C _]|[[_ [K1 [K2 [K3 K4]]]]|C]]]; try discriminate;
           [apply missing_is_set in K1, K2, K3, K4; congruence
           |cbn in C; repeat (destruct C as [C|C]; [discriminate|]); contradiction]).
    apply missing_is_set in H1, H2, H3, H4.
    split; [intros _|reflexivity]. right. right. left. auto. }
  apply String.eqb_neq in Ed, Et, Ew.
  destruct (includes_name object_prototype_names agent) eqn:Hp; cbn [negb].
  - apply includes_name_In in Hp. split; [intros _|reflexivity]. right. right. right. exact Hp.
  - split; [discriminate|].
    intros [[C _]|[[C _]|[[C _]|C]]]; try contradiction.
    apply includes_name_In in C. congruence.
Qed.

(** X20. When the configuration is accepted.  [new Config()] returns, with
    the settings that [loadConfig] read, exactly when [RPC_URL],
    [PRIVATE_KEY], [MARKETPLACE_ADDRESS] and [MARKETPLACE_DATA_ADDRESS] are
    set and not empty, at least one agent is enabled, and every enabled
    agent is ["discord-bot"] with [DISCORD_TOKEN] set, ["telegram-bot"]
    with [TELEGRAM_BOT_TOKEN] set, ["twitter-bot"] with its four keys
    set, or a name that every object answers to through
    [Object.prototype].  Any other enabled name makes it raise: an agent
    of one's own cannot be enabled.  The polling intervals, the tags and
    the IPFS credentials are not checked. *)
Theorem new_Config_succeeds_iff :
  (forall settings, new_Config env now = inr settings -> settings = loadConfig env now) /\
  ((exists settings, new_Config env now = inr settings) <->
   is_set env "RPC_URL" /\ is_set env "PRIVATE_KEY" /\
   is_set env "MARKETPLACE_ADDRESS" /\ is_set env "MARKETPLACE_DATA_ADDRESS" /\
   enabledAgents (loadConfig env now) <> [] /\
   Forall (agent_ready env) (enabledAgents (loadConfig env now))).
Proof.
  unfold new_Config. split.
  { intros settings. destruct (validateConfig (loadConfig env now)); [discriminate|].
    intro H. now injection H as <-. }
  assert (Hready :
    validate_agents (agentConfig (loadConfig env now)) (enabledAgents (loadConfig env now))
    = inr tt <-> Forall (agent_ready env) (enabledAgents (loadConfig env now))).
  { rewrite validate_agents_all, !Forall_forall.
    split; intros H a Ha; apply (validate_agent_ready a Ha), H, Ha. }
  unfold validateConfig in *.
  cbn [rpcUrl privateKey marketplaceAddress marketplaceDataAddress loadConfig] in *.
  unfold missing_names. cbn [filter snd].
  destruct (missing (env "RPC_URL")) eqn:H1;
    destruct (missing (env "PRIVATE_KEY")) eqn:H2;
    destruct (missing (env "MARKETPLACE_ADDRESS")) eqn:H3;
    destruct (missing (env "MARKETPLACE_DATA_ADDRESS")) eqn:H4;
    cbn [map fst List.length Nat.eqb negb];
    try (split; [intros [s C]; discriminate|];
         intros [K1 [K2 [K3 [K4 _]]]];
         apply missing_is_set in K1, K2, K3, K4; congruence).
  apply missing_is_set in H1, H2, H3, H4.
  fold (loadConfig env now) in *.
  destruct (enabledAgents (loadConfig env now)) as [|a agents] eqn:Hagents.
  - cbn [List.length Nat.eqb]. split; [intros [s C]; discriminate|].
    intros [_ [_ [_ [_ [C _]]]]]. contradiction.
  - cbn [List.length Nat.eqb].
    destruct (validate_agents (agentConfig (loadConfig env now)) (a :: agents))
      as [e|[]] eqn:Hv.
    + split; [intros [s C]; discriminate|].
      intros [_ [_ [_ [_ [_ F]]]]]. apply Hready in F. discriminate.
    + split; [intros _|intros _; now eexists].
      repeat (split; [assumption|]). split; [discriminate|]. now apply Hready.
Qed.

End Validation.

Lemma new_Config_succeeds_iff_witness :
  (exists settings, new_Config discord_env 0 = inr settings) /\
  jobPollInterval (loadConfig discord_env 0) = None /\
  ~ (exists settings, new_Config custom_env 0 = inr settings).
Proof.
  split; [|split; [reflexivity|]].
  - apply (proj2 (new_Config_succeeds_iff discord_env 0)).
    repeat (split; [reflexivity|]).
    change (enabledAgents (loadConfig discord_env 0)) with ["discord-bot"; "toString"].
    split; [discriminate|].
    constructor; [left; split; reflexivity|].
    constructor; [|constructor].
    right. right. right. cbn. tauto.
  - intro H. apply (proj2 (new_Config_succeeds_iff custom_env 0)) in H.
    destruct H as [_ [_ [_ [_ [_ H]]]]].
    change (enabledAgents (loadConfig custom_env 0)) with ["my-agent"] in H.
    apply Forall_inv in H.
    destruct H as [[C _]|[[C _]|[[C _]|C]]]; try discriminate.
    cbn in C. repeat (destruct C as [C|C]; [discriminate|]). exact C.
Defined.

Lemma append_assoc (a b c : string) : ((a ++ b) ++ c = a ++ b ++ c)%string.
Proof. induction a as [|x a IH]; [reflexivity|]. cbn. now rewrite IH. Qed.

Lemma append_nil_r (a : string) : (a ++ "" = a)%string.
Proof. induction a as [|x a IH]; [reflexivity|]. cbn. now rewrite IH. Qed.

Lemma append_length (a b : string) :
  String.length (a ++ b) = String.length a + String.length b.
Proof. induction a as [|x a IH]; [reflexivity|]. cbn. now rewrite IH. Qed.

Lemma reverse_onto_spec (s acc : string) :
  Js.reverse_onto s acc = (Js.reverse s ++ acc)%string.
Proof.
  unfold Js.reverse. revert acc. induction s as [|c s IH]; intro acc; [reflexivity|].
  cbn [Js.reverse_onto]. rewrite IH, (IH (String c "")), append_assoc. reflexivity.
Qed.

Lemma reverse_cons (c : ascii) (s : string) :
  Js.reverse (String c s) = (Js.reverse s ++ String c "")%string.
Proof. unfold Js.reverse at 1. cbn [Js.reverse_onto]. apply reverse_onto_spec. Qed.

Lemma reverse_append (a b : string) :
  Js.reverse (a ++ b) = (Js.reverse b ++ Js.reverse a)%string.
Proof.
  induction a as [|c a IH]; [cbn; now rewrite append_nil_r|].
  cbn [String.append]. now rewrite !reverse_cons, IH, append_assoc.
Qed.

Lemma reverse_involutive (s : string) : Js.reverse (Js.reverse s) = s.
Proof.
  induction s as [|c s IH]; [reflexivity|].
  now rewrite reverse_cons, reverse_append, IH.
Qed.

Lemma reverse_length (s : string) : String.length (Js.reverse s) = String.length s.
Proof.
  induction s as [|c s IH]; [reflexivity|].
  rewrite reverse_cons, append_length, IH. cbn. lia.
Qed.

(** One white-space character at the head: what is cut off is not
    empty. *)
Lemma white_head_cut (s r : string) :
  Js.white_head s = Some r ->
  exists a, s = (a ++ r)%string /\ 0 < String.length a.
Proof.
  unfold Js.white_head. intro H.
  destruct s as [|a [|b [|c r3]]]; try discriminate;
    repeat match type of H with
           | context [if ?cond then _ else _] => destruct cond
           end;
    try discriminate; injection H as <-;
    first [ exists (String a ""); split; [reflexivity|cbn; lia]
          | exists (String a (String b "")); split; [reflexivity|cbn; lia]
          | exists (String a (String b (String c ""))); split; [reflexivity|cbn; lia] ].
Qed.

Lemma white_last_cut (s r : string) :
  Js.white_last s = Some r ->
  exists a, s = (a ++ r)%string /\ 0 < String.length a.
Proof.
  unfold Js.white_last. intro H.
  destruct s as [|a [|b [|c r3]]]; try discriminate;
    repeat match type of H with
           | context [if ?cond then _ else _] => destruct cond
           end;
    try discriminate; injection H as <-;
    first [ exists (String a ""); split; [reflexivity|cbn; lia]
          | exists (String a (String b "")); split; [reflexivity|cbn; lia]
          | exists (String a (String b (String c ""))); split; [reflexivity|cbn; lia] ].
Qed.

(** A text without white space at its head has none after its end is cut. *)
Lemma white_head_prefix (t b : string) :
  Js.white_head (t ++ b) = None -> Js.white_head t = None.
Proof.
  intro H. destruct t as [|x [|y [|z r]]]; cbn [String.append] in H;
    unfold Js.white_head in *;
    repeat match goal with
           | |- context [if ?cond then _ else _] =>
               let E := fresh "E" in destruct cond eqn:E; try rewrite E in H
           end;
    try reflexivity; try discriminate;
    destruct b as [|b1 [|b2 b3]]; try discriminate;
    repeat match type of H with
           | context [if ?cond then _ else _] => destruct cond
           end; discriminate.
Qed.

Lemma trimStart_loop_spec (fuel : nat) (s : string) :
  String.length s <= fuel ->
  exists a, s = (a ++ Js.trimStart_loop fuel s)%string /\
            Js.white_head (Js.trimStart_loop fuel s) = None.
Proof.
  revert s. induction fuel as [|f IH]; intros s Hlen; cbn [Js.trimStart_loop].
  - destruct s; [now exists EmptyString|cbn in Hlen; lia].
  - destruct (Js.white_head s) as [r|] eqn:Hw; [|now exists EmptyString].
    destruct (white_head_cut s r Hw) as [a [Hs Ha]].
    destruct (IH r) as [a' [Hr Hnone]].
    { rewrite Hs, append_length in Hlen. lia. }
    exists (a ++ a')%string. split; [|exact Hnone].
    rewrite append_assoc, <- Hr. exact Hs.
Qed.

Lemma trimEnd_loop_spec (fuel : nat) (s : string) :
  String.length s <= fuel ->
  exists a, s = (a ++ Js.trimEnd_loop fuel s)%string /\
            Js.white_last (Js.trimEnd_loop fuel s) = None.
Proof.
  revert s. induction fuel as [|f IH]; intros s Hlen; cbn [Js.trimEnd_loop].
  - destruct s; [now exists EmptyString|cbn in Hlen; lia].
  - destruct (Js.white_last s) as [r|] eqn:Hw; [|now exists EmptyString].
    destruct (white_last_cut s r Hw) as [a [Hs Ha]].
    destruct (IH r) as [a' [Hr Hnone]].
    { rewrite Hs, append_length in Hlen. lia. }
    exists (a ++ a')%string. split; [|exact Hnone].
    rewrite append_assoc, <- Hr. exact Hs.
Qed.

Lemma trimStart_spec (s : string) :
  exists a, s = (a ++ Js.trimStart s)%string /\ Js.white_head (Js.trimStart s) = None.
Proof. apply trimStart_loop_spec. lia. Qed.

Lemma trimEnd_spec (s : string) :
  exists b, s = (Js.trimEnd s ++ b)%string /\
            Js.white_last (Js.reverse (Js.trimEnd s)) = None.
Proof.
  unfold Js.trimEnd.
  destruct (trimEnd_loop_spec (String.length s) (Js.reverse s)) as [a [Hs Hnone]].
  { rewrite reverse_length. lia. }
  exists (Js.reverse a). split; [|now rewrite reverse_involutive].
  rewrite <- reverse_append, <- Hs. now rewrite reverse_involutive.
Qed.

Lemma trimStart_fixed (t : string) : Js.white_head t = None -> Js.trimStart t = t.
Proof.
  intro H. unfold Js.trimStart. destruct (String.length t); cbn [Js.trimStart_loop];
    [reflexivity|now rewrite H].
Qed.

Lemma trimEnd_fixed (t : string) : Js.white_last (Js.reverse t) = None -> Js.trimEnd t = t.
Proof.
  intro H. unfold Js.trimEnd. destruct (String.length t); cbn [Js.trimEnd_loop];
    [|rewrite H]; apply reverse_involutive.
Qed.

(** [trim] cuts a piece out of the text, and trimming twice changes
    nothing more. *)
Lemma trim_spec (s : string) :
  (exists a b, s = (a ++ Js.trim s ++ b)%string) /\ Js.trim (Js.trim s) = Js.trim s.
Proof.
  unfold Js.trim at 1 2 3.
  destruct (trimStart_spec s) as [a [Hs Hhead]].
  destruct (trimEnd_spec (Js.trimStart s)) as [b [Hu Hlast]].
  split.
  - exists a, b. now rewrite <- Hu.
  - rewrite Hu in Hhead. apply white_head_prefix in Hhead.
    unfold Js.trim. rewrite (trimStart_fixed _ Hhead). now apply trimEnd_fixed.
Qed.

Lemma occurs_inside (t s a b : string) : occurs t s -> occurs t (a ++ s ++ b).
Proof.
  intros [x [y ->]]. exists (a ++ x)%string, (y ++ b)%string.
  now rewrite !append_assoc.
Qed.

Lemma split_commas_no_comma (s : string) :
  Forall (fun piece => ~ occurs "," piece) (Js.split_commas s).
Proof.
  induction s as [|c s IH]; cbn [Js.split_commas].
  - constructor; [|constructor]. intros [[|x a] [b H]]; discriminate.
  - destruct (Ascii.eqb c ",") eqn:E.
    + constructor; [|exact IH]. intros [[|x a] [b H]]; discriminate.
    + apply Ascii.eqb_neq in E.
      destruct (Js.split_commas s) as [|piece pieces].
      * constructor; [|constructor]. intros [[|x [|y a]] [b H]]; cbn in H;
          try discriminate. congruence.
      * inversion IH as [|? ? Hpiece Hrest]. subst. constructor; [|exact Hrest].
        intros [[|x a] [b H]]; cbn [String.append] in H.
        -- congruence.
        -- injection H as _ H. apply Hpiece. now exists a, b.
Qed.

(** X21. The lists read from the environment.  Every entry of
    [enabledAgents] and of [relevantTags] is not empty, holds no comma and
    has no white space at either end (an empty keyword would occur in
    every text).  When [RELEVANT_TAGS] is not set or is empty, the keywords
    are ["bot"] and ["automation"]. *)
Theorem loaded_lists_are_clean (env : Env) (now : Z) :
  Forall clean_entry (enabledAgents (loadConfig env now)) /\
  Forall clean_entry (s_relevantTags (loadConfig env now)) /\
  (env "RELEVANT_TAGS" = None \/ env "RELEVANT_TAGS" = Some "" ->
   s_relevantTags (loadConfig env now) = ["bot"; "automation"]).
Proof.
  assert (Hclean : forall text, Forall clean_entry (comma_list text)).
  { intro text. unfold comma_list. apply Forall_forall. intros entry Hin.
    apply filter_In in Hin. destruct Hin as [Hin Hne].
    apply in_map_iff in Hin. destruct Hin as [piece [<- Hpiece]].
    pose proof (split_commas_no_comma text) as Hcomma.
    rewrite Forall_forall in Hcomma. specialize (Hcomma piece Hpiece).
    destruct (trim_spec piece) as [[a [b Hcut]] Hidem].
    split; [|split; [|exact Hidem]].
    - intro C. unfold nonempty in Hne. rewrite C in Hne. discriminate.
    - intro C. apply Hcomma. rewrite Hcut. now apply occurs_inside. }
  split; [apply Hclean|]. split; [apply Hclean|].
  intro H. cbn [loadConfig s_relevantTags]. unfold env_or.
  destruct H as [-> | ->]; reflexivity.
Qed.

Section LoadedGateways.
Context {platform : Platform}.
Variable w : World.


End LoadedGateways.


(** ** The text that is signed *)

Lemma digit_value_of_digit (d : N) :
  (d < 10)%N -> Js.digit_value (ascii_of_N (48 + d)) = Some (Z.of_N d).
Proof.
  intro H. rewrite <- (N2Nat.id d). assert (Hn : N.to_nat d < 10) by lia.
  generalize dependent (N.to_nat d). clear. intros n Hn.
  do 10 (destruct n as [|n]; [reflexivity|]). lia.
Qed.

Lemma leading_digits_append (D rest : string) (acc : option Z) (v : Z) :
  Js.leading_digits D acc = Some v -> all_digits D -> D <> "" ->
  Js.leading_digits (D ++ rest) acc = Js.leading_digits rest (Some v).
Proof.
  revert acc. induction D as [|c D IH]; intros acc Hv Hd Hne; [contradiction|].
  cbn [String.append Js.leading_digits all_digits] in *. destruct Hd as [Hc Hd].
  destruct (Js.digit_value c) as [d|]; [|contradiction].
  destruct D as [|c' D'].
  - cbn [Js.leading_digits] in Hv. injection Hv as <-. reflexivity.
  - apply IH; [exact Hv|exact Hd|discriminate].
Qed.

(** The decimal rendering of a positive number: digits only, at least one,
    and they spell the number. *)
Lemma digits_of_pos_spec (fuel : nat) (n : N) (acc : string) :
  (0 < n)%N -> (n < 2 ^ N.of_nat fuel)%N ->
  exists D,
    JsString.digits_of_pos fuel n acc = (D ++ acc)%string /\
    all_digits D /\ D <> "" /\
    forall a0,
      Js.leading_digits D a0
      = Some (10 ^ Z.of_nat (String.length D) * value_or_zero a0 + Z.of_N n)%Z.
Proof.
  revert n acc. induction fuel as [|f IH]; intros n acc Hpos Hlt.
  - cbn in Hlt. lia.
  - cbn [JsString.digits_of_pos].
    assert (Hd : Js.digit_value (ascii_of_N (48 + n mod 10)) = Some (Z.of_N (n mod 10)))
      by (apply digit_value_of_digit, N.mod_lt; lia).
    destruct (n / 10 =? 0)%N eqn:Hq.
    + apply N.eqb_eq in Hq. exists (String (ascii_of_N (48 + n mod 10)) "").
      split; [reflexivity|].
      split; [cbn [all_digits]; split; [rewrite Hd; discriminate|exact I]|].
      split; [discriminate|]. intro a0. cbn [Js.leading_digits String.length]. rewrite Hd.
      f_equal. pose proof (N.div_mod n 10). destruct a0; cbn [value_or_zero]; lia.
    + apply N.eqb_neq in Hq.
      destruct (IH (n / 10)%N (String (ascii_of_N (48 + n mod 10)) acc)) as [D [HD [Hall [Hne Hval]]]].
      * now apply N.neq_0_lt_0.
      * rewrite Nat2N.inj_succ, N.pow_succ_r' in Hlt.
        apply N.Div0.div_lt_upper_bound. clear -Hlt. lia.
      * exists (D ++ String (ascii_of_N (48 + n mod 10)) "")%string.
        split; [rewrite HD, append_assoc; reflexivity|].
        split; [|split].
        -- clear -Hall Hd. induction D as [|c D IHD]; cbn [String.append all_digits] in *.
           ++ split; [rewrite Hd; discriminate|exact I].
           ++ destruct Hall as [Hc Hall]. split; [exact Hc|now apply IHD].
        -- destruct D; discriminate.
        -- intro a0. rewrite (leading_digits_append D _ a0 _ (Hval a0) Hall Hne).
           cbn [Js.leading_digits]. rewrite Hd. f_equal.
           rewrite append_length. cbn [String.length].
           rewrite Nat2Z.inj_add, Z.pow_add_r by lia. cbn [value_or_zero].
           pose proof (N.div_mod n 10) as Hdm.
           change (Z.of_nat 1) with 1%Z. rewrite Z.pow_1_r.
           rewrite N2Z.inj_div, N2Z.inj_mod in *. 
           pose proof (Z.div_mod (Z.of_N n) 10). 
           change (Z.of_N 10) with 10%Z. lia.
Qed.

Lemma size_nat_bound (p : positive) : (Npos p < 2 ^ N.of_nat (Pos.size_nat p))%N.
Proof.
  induction p as [p IH|p IH|]; cbn [Pos.size_nat].
  - rewrite Nat2N.inj_succ, N.pow_succ_r'. lia.
  - rewrite Nat2N.inj_succ, N.pow_succ_r'. lia.
  - cbn. lia.
Qed.

(** The rendering of a number that is not negative. *)
Lemma of_Z_spec (z : Z) :
  (0 <= z)%Z ->
  all_digits (JsString.of_Z z) /\ JsString.of_Z z <> "" /\
  Js.leading_digits (JsString.of_Z z) None = Some z.
Proof.
  intro Hz. destruct z as [|p|p]; [| |lia].
  - cbn. split; [split; [discriminate|exact I]|]. split; [discriminate|reflexivity].
  - unfold JsString.of_Z.
    destruct (digits_of_pos_spec (S (N.size_nat (Npos p))) (Npos p) "") as [D [HD [Hall [Hne Hval]]]].
    + lia.
    + cbn [N.size_nat]. rewrite Nat2N.inj_succ, N.pow_succ_r'.
      pose proof (size_nat_bound p). lia.
    + rewrite HD, append_nil_r. split; [exact Hall|]. split; [exact Hne|].
      rewrite Hval. cbn [value_or_zero]. f_equal. lia.
Qed.

Lemma digits_then_dash (a b x y : string) :
  all_digits a -> all_digits b ->
  (a ++ String "-" x = b ++ String "-" y)%string -> a = b /\ x = y.
Proof.
  revert b. induction a as [|c a IH]; intros [|d b] Ha Hb E; cbn [String.append] in E.
  - injection E as ->. now split.
  - injection E as <- _. cbn in Hb. destruct Hb as [C _]. now contradiction C.
  - injection E as -> _. cbn in Ha. destruct Ha as [C _]. now contradiction C.
  - injection E as -> E. cbn [all_digits] in Ha, Hb.
    destruct (IH b (proj2 Ha) (proj2 Hb) E) as [-> ->]. now split.
Qed.

(** X23. The text that is signed.  The text [getSessionKey] gives the wallet
    to sign, [session-key-<jobId>-<otherPublicKey>], determines the job
    number and the key: for job numbers that are not negative, two
    different pairs of job number and key never give the same text. *)
Theorem session_text_is_unambiguous (jobId1 jobId2 : Z) (key1 key2 : string) :
  (0 <= jobId1)%Z -> (0 <= jobId2)%Z ->
  messageToSign jobId1 key1 = messageToSign jobId2 key2 ->
  jobId1 = jobId2 /\ key1 = key2.
Proof.
  intros H1 H2 E. unfold messageToSign in E.
  apply (f_equal string_of_list_byte) in E.
  rewrite !string_of_list_byte_of_string in E.
  cbn [String.append] in E.
  repeat match type of E with String _ _ = String _ _ => injection E as E end.
  destruct (of_Z_spec jobId1 H1) as [A1 [_ V1]].
  destruct (of_Z_spec jobId2 H2) as [A2 [_ V2]].
  destruct (digits_then_dash _ _ _ _ A1 A2 E) as [Hj Hk].
  split; [|exact Hk]. rewrite Hj in V1. congruence.
Qed.

Lemma session_text_is_unambiguous_witness :
  messageToSign 12 "3-0x02aa" <> messageToSign 1 "2-3-0x02aa" /\
  messageToSign 12 "3-0x02aa" <> messageToSign 123 "-0x02aa".
Proof.
  split; intro E.
  - destruct (session_text_is_unambiguous 12 1 "3-0x02aa" "2-3-0x02aa") as [C _];
      [lia|lia|exact E|discriminate C].
  - destruct (session_text_is_unambiguous 12 123 "3-0x02aa" "-0x02aa") as [C _];
      [lia|lia|exact E|discriminate C].
Defined.

(** ** The digest that is recorded *)

(** X24. The recorded digest as a locator.  The digest that [applyForJob]
    and [deliverResult] record, [ethers.keccak256] of some bytes, is always
    ["0x"] followed by 64 hexadecimal digits.  [hashToCid] never takes such
    a digest for a locator: it returns the base-58 text of the multihash
    (0x12, 0x20, then the 32 bytes of the Keccak digest), which has 46
    characters and begins with ["Qm"]. *)
Theorem recorded_digest_as_locator (data : list byte) :
  String.length (ethers.keccak256 data) = 66 /\
  ethers.getBytes (ethers.keccak256 data) = keccak.keccak256 data /\
  exists rest,
    Encryption.hashToCid (ethers.keccak256 data)
    = inr (bs58.encode (x12 :: x20 :: keccak.keccak256 data)) /\
    bs58.encode (x12 :: x20 :: keccak.keccak256 data) = String "Q" (String "m" rest) /\
    String.length rest = 44.
Proof.
  pose proof (keccak256_length data) as Hlen.
  split; [|split; [apply getBytes_keccak256|]].
  - unfold ethers.keccak256. cbn [String.length]. rewrite to_hex_length, Hlen. reflexivity.
  - destruct (hashToCid_digest (keccak.keccak256 data) Hlen) as [_ H0x].
    destruct (bs58_multihash_prefix (keccak.keccak256 data) Hlen) as [rest Hrest].
    destruct (bs58_multihash_digits (keccak.keccak256 data) Hlen) as [n [_ [Henc Hn]]].
    exists rest. split; [exact H0x|]. split; [exact Hrest|].
    assert (H46 : String.length (bs58.encode (x12 :: x20 :: keccak.keccak256 data)) = 46).
    { rewrite Henc, string_of_chars_length, length_map, length_rev. exact Hn. }
    rewrite Hrest in H46. cbn [String.length] in H46. lia.
Qed.

Lemma substring_to_hex (k : nat) (bs : list byte) :
  String.substring 0 (2 * k) (Buffer.to_hex bs) = Buffer.to_hex (firstn k bs).
Proof.
  revert bs. induction k as [|k IH]; intros bs.
  - cbn [Nat.mul firstn Buffer.to_hex]. now destruct (Buffer.to_hex bs).
  - destruct bs as [|b bs]; [reflexivity|].
    replace (2 * S k) with (S (S (2 * k))) by lia.
    cbn [Buffer.to_hex firstn String.substring]. now rewrite IH.
Qed.

Section SessionKey.
Context {platform : Platform}.
Variable w : World.

(** X25. The session key as a cipher key.  When the wallet's signature
    is the usual ["0x"] and 65 bytes in hex, [getSessionKey] returns the
    hex of its first 32 bytes, and [encryptUtf8Data] accepts that key:
    with a 16-byte nonce it returns the envelope of nonce, tag and
    ciphertext under those 32 bytes. *)
Theorem session_key_is_a_cipher_key (wl : Wallet) (otherPublicKey : string) (jobId : Z)
    (signature : list byte) (st : St) :
  signMessage wl (messageToSign jobId otherPublicKey)
  = inr (String "0" (String "x" (Buffer.to_hex signature))) ->
  List.length signature = 65 ->
  let K := firstn 32 signature in
  run w (Encryption.getSessionKey wl otherPublicKey jobId) st
  = (inr (Buffer.to_hex K), st) /\
  forall (iv : list byte) (data : string),
    List.length iv = 16 ->
    Encryption.encryptUtf8Data_with iv data (Buffer.to_hex K)
    = inr (iv ++ gcm_tag K iv (gcm_ctr K iv (list_byte_of_string data))
              ++ gcm_ctr K iv (list_byte_of_string data)).
Proof.
  intros Hsig Hlen. cbv zeta.
  assert (HK : List.length (firstn 32 signature) = 32)
    by (rewrite length_firstn; lia).
  split.
  - rewrite (run_getSessionKey w st wl otherPublicKey jobId _ Hsig). f_equal. f_equal.
    unfold JsString.slice. cbn [String.length]. rewrite to_hex_length, Hlen.
    change (Nat.min 66 (S (S (2 * 65))) - 2) with (2 * 32).
    cbn [String.substring]. apply substring_to_hex.
  - intros iv data Hiv. now apply encryptUtf8Data_with_envelope.
Qed.

End SessionKey.

Lemma session_key_is_a_cipher_key_witness :
  exists K : list byte,
    List.length K = 32 /\
    run (Double.market Double.publicKey_B)
      (Encryption.getSessionKey Double.wallet_A Double.publicKey_B 0) Double.fresh
    = (inr (Buffer.to_hex K), Double.fresh) /\
    exists envelope : list byte,
      @Encryption.encryptUtf8Data_with Double.platform (repeat x00 16)
        "I can build this bot." (Buffer.to_hex K)
      = inr envelope /\
      List.length envelope = 16 + 16 + 21.
Proof.
  assert (Hsig :
    signMessage Double.wallet_A (messageToSign 0 Double.publicKey_B)
    = inr (String "0" (String "x"
             (Buffer.to_hex
                (keccak.keccak256
                   (list_byte_of_string "secret of A" ++ messageToSign 0 Double.publicKey_B)
                 ++ keccak.keccak256
                      (messageToSign 0 Double.publicKey_B ++ list_byte_of_string "secret of A")
                 ++ [x1b])))))
    by (vm_compute; reflexivity).
  assert (Hlen :
    List.length
      (keccak.keccak256
         (list_byte_of_string "secret of A" ++ messageToSign 0 Double.publicKey_B)
       ++ keccak.keccak256
            (messageToSign 0 Double.publicKey_B ++ list_byte_of_string "secret of A")
       ++ [x1b]) = 65)
    by (vm_compute; reflexivity).
  pose proof (@session_key_is_a_cipher_key Double.platform
                (Double.market Double.publicKey_B) Double.wallet_A Double.publicKey_B 0 _
                Double.fresh Hsig Hlen) as H.
  cbv zeta in H. destruct H as [Hrun Henc].
  eexists. split; [|split; [exact Hrun|]].
  - rewrite length_firstn, Hlen. reflexivity.
  - eexists. split; [apply Henc; reflexivity|].
    rewrite !length_app. vm_compute. reflexivity.
Defined.
